(** * libbigint: a shallow embedding of [src/BigInt.c]

    The C program keeps an unsigned big integer as a doubly linked chain of
    fixed-capacity chunks of [unsigned int] words.  The embedding keeps the
    C memory explicit: chunks and [BigInt] objects live in a heap and are
    named by addresses, so that two iterators over one container see each
    other's writes.  Every C function becomes a computation in a small
    state-and-fault monad; [while] loops take fuel. *)

From Stdlib Require Import ZArith Ascii String Lia.
From stdpp Require Import base list.

Local Open Scope Z_scope.

(** ** Machine words *)

(** [unsigned int] is taken to be four bytes wide, as on every platform the
    spec's examples ([0xFFFFFFFF]) refer to. *)
Definition sizeof_uint : Z := 4.
Definition uint_modulus : Z := 2 ^ (8 * sizeof_uint).
Definition UINT_MAX : Z := uint_modulus - 1.

(** Unsigned addition wraps around. *)
Definition uadd (x y : Z) : Z := (x + y) mod uint_modulus.

(** ** Memory *)

(** A pointer is an address or NULL. *)
Definition ptr := option nat.
Abbreviation NULL := (@None nat).

(** [struct Chunk] (declared in Chunk.h): links, the count of valid words
    and the word array. *)
Record Chunk := mkChunk {
  ch_prev : ptr;
  ch_next : ptr;
  ch_length : Z;
  ch_value : list Z
}.

(** [struct BigInt]. *)
Record BigInt := mkBigInt {
  bi_first : ptr;
  bi_last : ptr;
  bi_parity : Z;
  bi_length : Z
}.

(** [struct Iterator].  An iterator is only ever reached through the one
    local variable that holds it, so it is passed by value. *)
Record Iterator := mkIterator {
  it_obj : ptr;
  it_chunk : ptr;
  it_index : Z
}.

(** The heap: an address is an index, allocation appends. *)
Record heap := mkHeap {
  chunks : list Chunk;
  bigints : list BigInt
}.

Definition empty_heap : heap := mkHeap [] [].

(** ** The monad *)

Inductive fault :=
| NullDeref    (* a NULL pointer is dereferenced *)
| Dangling     (* an address is used that was never allocated *)
| OutOfBounds  (* an array is read or written outside its bounds *)
| OutOfFuel.   (* the loop did not end within the fuel given *)

Inductive result (A : Type) :=
| Ok (a : A)
| Fault (f : fault).
Arguments Ok {A} a.
Arguments Fault {A} f.

Definition M (A : Type) : Type := heap -> result (A * heap).

Definition ret {A} (a : A) : M A := fun h => Ok (a, h).

Definition bind {A B} (m : M A) (k : A -> M B) : M B :=
  fun h => match m h with
           | Ok (a, h') => k a h'
           | Fault f => Fault f
           end.

Definition raise {A} (f : fault) : M A := fun _ => Fault f.

Notation "x <- m ;; k" := (bind m (fun x => k))
  (at level 100, m at level 99, k at level 200, only parsing,
   right associativity).
Notation "' pat <- m ;; k" := (bind m (fun x => match x with pat => k end))
  (at level 20, pat pattern, m at level 99, k at level 200, only parsing).
Notation "m ;;; k" := (bind m (fun _ => k))
  (at level 100, k at level 200, only parsing, right associativity).

(** [while (cond) body], with the loop's variables as the state [s]. *)
Fixpoint while {S : Type} (fuel : nat) (cond : S -> M bool) (body : S -> M S)
    (s : S) : M S :=
  match fuel with
  | O => raise OutOfFuel
  | S fuel' =>
      b <- cond s ;;
      if b : bool then s' <- body s ;; while fuel' cond body s' else ret s
  end.

(** ** Loads and stores *)

Definition load (p : ptr) : M Chunk := fun h =>
  match p with
  | None => Fault NullDeref
  | Some a => match chunks h !! a with
              | Some c => Ok (c, h)
              | None => Fault Dangling
              end
  end.

Definition store (p : ptr) (c : Chunk) : M unit := fun h =>
  match p with
  | None => Fault NullDeref
  | Some a => match chunks h !! a with
              | Some _ => Ok (tt, mkHeap (<[a := c]> (chunks h)) (bigints h))
              | None => Fault Dangling
              end
  end.

Definition load_bi (p : ptr) : M BigInt := fun h =>
  match p with
  | None => Fault NullDeref
  | Some a => match bigints h !! a with
              | Some b => Ok (b, h)
              | None => Fault Dangling
              end
  end.

Definition store_bi (p : ptr) (b : BigInt) : M unit := fun h =>
  match p with
  | None => Fault NullDeref
  | Some a => match bigints h !! a with
              | Some _ => Ok (tt, mkHeap (chunks h) (<[a := b]> (bigints h)))
              | None => Fault Dangling
              end
  end.

(** [p->prev = q], [p->next = q], [p->length = n]. *)
Definition set_prev (p q : ptr) : M unit :=
  c <- load p ;; store p (mkChunk q (ch_next c) (ch_length c) (ch_value c)).
Definition set_next (p q : ptr) : M unit :=
  c <- load p ;; store p (mkChunk (ch_prev c) q (ch_length c) (ch_value c)).
Definition set_length (p : ptr) (n : Z) : M unit :=
  c <- load p ;; store p (mkChunk (ch_prev c) (ch_next c) n (ch_value c)).

(** [p->value[i]] and [p->value[i] = v]; the array has as many slots as
    the chunk was allocated with. *)
Definition get_value (p : ptr) (i : Z) : M Z :=
  c <- load p ;;
  if i <? 0 then raise OutOfBounds
  else match ch_value c !! Z.to_nat i with
       | Some v => ret v
       | None => raise OutOfBounds
       end.

Definition set_value (p : ptr) (i : Z) (v : Z) : M unit :=
  c <- load p ;;
  if (i <? 0) || (Z.of_nat (length (ch_value c)) <=? i) then raise OutOfBounds
  else store p (mkChunk (ch_prev c) (ch_next c) (ch_length c)
                        (<[Z.to_nat i := v]> (ch_value c))).

(** [self->first = q] and the like. *)
Definition set_first (self q : ptr) : M unit :=
  b <- load_bi self ;;
  store_bi self (mkBigInt q (bi_last b) (bi_parity b) (bi_length b)).
Definition set_last (self q : ptr) : M unit :=
  b <- load_bi self ;;
  store_bi self (mkBigInt (bi_first b) q (bi_parity b) (bi_length b)).
Definition set_parity (self : ptr) (n : Z) : M unit :=
  b <- load_bi self ;;
  store_bi self (mkBigInt (bi_first b) (bi_last b) n (bi_length b)).
Definition set_bi_length (self : ptr) (n : Z) : M unit :=
  b <- load_bi self ;;
  store_bi self (mkBigInt (bi_first b) (bi_last b) (bi_parity b) n).

(** [malloc(sizeof(BigInt))]: a new object, its fields not yet set.
    Allocation is taken to succeed. *)
Definition malloc_BigInt : M ptr := fun h =>
  Ok (Some (length (bigints h)),
      mkHeap (chunks h) (bigints h ++ [mkBigInt NULL NULL 0 0])).

(** ** Freeing *)

(** The heap keeps no record of what is live.  A function that frees
    carries the list of the addresses it has passed to [free], in order;
    reading a chunk that is on the list, or freeing it again, is a
    fault. *)
Inductive freed :=
| FreedChunk (x : nat)
| FreedBigInt (a : nat).

Definition is_freed (log : list freed) (x : nat) : bool :=
  existsb (fun f => match f with
                    | FreedChunk y => Nat.eqb x y
                    | FreedBigInt _ => false
                    end) log.

(** [*p] for a chunk that may have been freed. *)
Definition load_live (log : list freed) (p : ptr) : M Chunk :=
  match p with
  | Some x => if is_freed log x then raise Dangling else load p
  | None => raise NullDeref
  end.

(** [free(p)] for a chunk; [free(NULL)] does nothing. *)
Definition free_chunk (log : list freed) (p : ptr) : M (list freed) :=
  match p with
  | Some x =>
      if is_freed log x then raise Dangling
      else load p ;;; ret (log ++ [FreedChunk x])
  | None => ret log
  end.

(** [free(self)] for a container object. *)
Definition free_BigInt (log : list freed) (self : ptr) : M (list freed) :=
  match self with
  | Some a => load_bi self ;;; ret (log ++ [FreedBigInt a])
  | None => ret log
  end.

(** ** Hexadecimal digits *)

Definition hex : list ascii :=
  ["0"; "1"; "2"; "3"; "4"; "5"; "6"; "7";
   "8"; "9"; "a"; "b"; "c"; "d"; "e"; "f"]%char.

Definition charsPerUint : Z := 2 * sizeof_uint.

(** A [char] buffer obtained from [malloc]: a cell is [None] until it is
    written. *)
Abbreviation buffer := (list (option ascii)).

Definition NUL : ascii := Ascii.zero.

(** [target[i] = c] for a buffer of known size. *)
Definition poke (buf : buffer) (i : Z) (c : ascii) : result buffer :=
  if (i <? 0) || (Z.of_nat (length buf) <=? i) then Fault OutOfBounds
  else Ok (<[Z.to_nat i := Some c]> buf).

(** The C string a buffer holds: the characters before the first NUL. *)
Fixpoint c_string (buf : buffer) : option (list ascii) :=
  match buf with
  | [] => None
  | None :: _ => None
  | Some c :: rest =>
      if Ascii.eqb c NUL then Some []
      else match c_string rest with
           | Some s => Some (c :: s)
           | None => None
           end
  end.

(** The loop of [uintToHex]: [n] iterations are left, [i] is the loop
    index. *)
Fixpoint uintToHex_loop (n : nat) (buf : buffer) (target i uint : Z)
    : result buffer :=
  match n with
  | O => Ok buf
  | S n' =>
      match poke buf (target + i)
                 (nth (Z.to_nat (Z.land uint 15)) hex NUL) with
      | Ok buf' => uintToHex_loop n' buf' target (i + 1) (Z.shiftr uint 4)
      | Fault f => Fault f
      end
  end.

(** [uintToHex(target, uint)], [target] an offset into [buf]. *)
Definition uintToHex (buf : buffer) (target uint : Z) : result buffer :=
  match uintToHex_loop (Z.to_nat charsPerUint) buf target 0 uint with
  | Ok buf' => poke buf' (target + charsPerUint) NUL
  | Fault f => Fault f
  end.

Definition lift {A} (r : result A) : M A := fun h =>
  match r with
  | Ok a => Ok (a, h)
  | Fault f => Fault f
  end.

Definition is_null (p : ptr) : bool :=
  match p with
  | None => true
  | Some _ => false
  end.

Section BigInt.

(** [CHUNKSIZE] (defined in Chunk.h): the number of words of a chunk. *)
Variable CHUNKSIZE : Z.

(** ** Chunk.h *)

(** Modelled from the spec: [newChunk], whose code (Chunk.c) is not among
    the sources.  "A fresh chunk, valid length 0, capacity C, word array
    zero-initialized [...], unlinked."  Allocation is taken to succeed. *)
Definition newChunk : M ptr := fun h =>
  Ok (Some (length (chunks h)),
      mkHeap (chunks h ++ [mkChunk NULL NULL 0
                                   (replicate (Z.to_nat CHUNKSIZE) 0)])
             (bigints h)).

(** Modelled from the spec: [trimChunk], whose code (Chunk.c) is not among
    the sources.  It "detaches and returns the sub-chain starting at
    [chunk]'s successor [...], leaving [chunk] as the new chain tail".  The
    spec does not say what an absent chunk gives; as every function of
    BigInt.c does for an absent argument, the model returns NULL and
    changes nothing. *)
Definition trimChunk (p : ptr) : M ptr :=
  match p with
  | None => ret NULL
  | Some _ =>
      c <- load p ;;
      set_next p NULL ;;;
      match ch_next c with
      | None => ret NULL
      | Some _ => set_prev (ch_next c) NULL ;;; ret (ch_next c)
      end
  end.

(** ** BigInt.c: the container *)

Definition newBigInt : M ptr :=
  self <- malloc_BigInt ;;
  chunk <- newChunk ;;
  set_first self chunk ;;;
  set_last self chunk ;;;
  set_parity self 1 ;;;
  set_bi_length self 1 ;;;
  set_prev chunk NULL ;;;
  set_next chunk NULL ;;;
  set_length chunk 1 ;;;
  set_value chunk 0 0 ;;;
  ret self.

(** [freeBigInt(self)]: the addresses freed, in order. *)
Definition freeBigInt (fuel : nat) (self : ptr) : M (list freed) :=
  if is_null self then ret []
  else
    b <- load_bi self ;;
    '(_, log) <-
      while fuel
        (fun '(chunk, log) => ret (negb (is_null chunk)))
        (fun '(chunk, log) =>
           c <- load_live log chunk ;;
           let next := ch_next c in
           log <- free_chunk log chunk ;;
           ret (next, log))
        (bi_first b, []) ;;
    free_BigInt log self.

Definition lengthBigInt (self : ptr) : M Z :=
  if is_null self then ret 0
  else b <- load_bi self ;; ret (bi_length b).

Definition append (self chunk : ptr) : M Z :=
  if is_null self || is_null chunk then ret 1
  else
    b <- load_bi self ;;
    set_bi_length self (bi_length b + 1) ;;;
    b <- load_bi self ;;
    set_prev chunk (bi_last b) ;;;
    b <- load_bi self ;;
    set_next (bi_last b) chunk ;;;
    set_last self chunk ;;;
    ret 0.

(** [MIN(a,b)], a macro: [a < b ? a : b]. *)
Definition MIN (a b : Z) : Z := if a <? b then a else b.

(** The first half of [setValue]: the chain is cut or extended to
    [numChunks] chunks. *)
Definition setValue_resize (fuel : nat) (self : ptr) (numChunks : Z)
    : M unit :=
  b <- load_bi self ;;
  if numChunks <? bi_length b then
    let i := 0 in
    p <- while fuel
           (fun p => ret ((i <? numChunks) && negb (is_null p)))
           (fun p => c <- load p ;; ret (ch_next c))
           (bi_first b) ;;
    set_last self p ;;;
    trimChunk p ;;;
    set_bi_length self numChunks
  else
    while fuel
      (fun _ => b <- load_bi self ;; ret (bi_length b <? numChunks))
      (fun _ => c <- newChunk ;; append self c ;;; ret tt)
      tt.

(** The second half of [setValue]: the words are copied chunk by chunk.
    [value] is the caller's array; reading past its end is a fault. *)
Definition setValue_copy (fuel : nat) (self : ptr) (length : Z)
    (value : list Z) : M unit :=
  b <- load_bi self ;;
  while fuel
    (fun '(chunk, arrayIndex) => ret (negb (is_null chunk)))
    (fun '(chunk, arrayIndex) =>
       set_length chunk (MIN CHUNKSIZE length) ;;;
       '(_, arrayIndex') <-
         while fuel
           (fun '(chunkIndex, arrayIndex) =>
              c <- load chunk ;; ret (chunkIndex <? ch_length c))
           (fun '(chunkIndex, arrayIndex) =>
              match value !! Z.to_nat arrayIndex with
              | Some w =>
                  set_value chunk chunkIndex w ;;;
                  ret (chunkIndex + 1, arrayIndex + 1)
              | None => raise OutOfBounds
              end)
           (0, arrayIndex) ;;
       c <- load chunk ;;
       ret (ch_next c, arrayIndex'))
    (bi_first b, 0) ;;;
  ret tt.

(** [setValue(self, length, value)]; [value] is NULL or the caller's
    array.  Division truncates as in C. *)
Definition setValue (fuel : nat) (self : ptr) (length : Z)
    (value : option (list Z)) : M Z :=
  match self, value with
  | Some _, Some words =>
      let numChunks := Z.quot length CHUNKSIZE in
      let numChunks :=
        if Z.rem length CHUNKSIZE =? 0 then numChunks else numChunks + 1 in
      setValue_resize fuel self numChunks ;;;
      setValue_copy fuel self length words ;;;
      ret 0
  | _, _ => ret 1
  end.

(** ** BigInt.c: the serializer *)

(** [numChars] as [toString] computes it. *)
Definition toString_numChars (b : BigInt) : Z := 1 + bi_length b * CHUNKSIZE.

(** [toString(self)]: NULL for an absent container, else the buffer. *)
Definition toString (fuel : nat) (self : ptr) : M (option buffer) :=
  if is_null self then ret None
  else
    b <- load_bi self ;;
    let numChars := toString_numChars b in
    let string : buffer := replicate (Z.to_nat numChars) None in
    let width := 1 * charsPerUint in
    '(_, _, string) <-
      while fuel
        (fun '(chunk, p, string) => ret (negb (is_null chunk)))
        (fun '(chunk, p, string) =>
           '(_, p, string) <-
             while fuel
               (fun '(index, p, string) =>
                  c <- load chunk ;; ret (index <? ch_length c))
               (fun '(index, p, string) =>
                  w <- get_value chunk index ;;
                  string <- lift (uintToHex string p w) ;;
                  ret (index + 1, p + width, string))
               (0, p, string) ;;
           c <- load chunk ;;
           ret (ch_next c, p, string))
        (bi_first b, 0, string) ;;
    ret (Some string).

(** ** BigInt.c: the iterator *)

(** [IT_next(self)]: the iterator after the call, and whether the call
    returned [self] (true) or NULL (false). *)
Definition IT_next (fuel : nat) (self : Iterator) : M (bool * Iterator) :=
  if is_null (it_chunk self) then ret (false, self)
  else
    let index := it_index self + 1 in
    c <- load (it_chunk self) ;;
    self <-
      (if ch_length c <=? index then
         (* do { chunk = chunk->next; } while (chunk && !chunk->length); *)
         c <- load (it_chunk self) ;;
         chunk <-
           while fuel
             (fun chunk =>
                if is_null chunk then ret false
                else c <- load chunk ;; ret (ch_length c =? 0))
             (fun chunk => c <- load chunk ;; ret (ch_next c))
             (ch_next c) ;;
         ret (mkIterator (it_obj self) chunk 0)
       else ret (mkIterator (it_obj self) (it_chunk self) index)) ;;
    if is_null (it_chunk self) then ret (false, self)
    else ret (true, self).

(** [iterate(obj)]; NULL for an absent container. *)
Definition iterate (fuel : nat) (obj : ptr) : M (option Iterator) :=
  if is_null obj then ret None
  else
    b <- load_bi obj ;;
    self <-
      while fuel
        (fun self =>
           if is_null (it_chunk self) then ret false
           else c <- load (it_chunk self) ;; ret (ch_length c =? 0))
        (fun self => '(_, self) <- IT_next fuel self ;; ret self)
        (mkIterator obj (bi_first b) 0) ;;
    ret (Some self).

Definition IT_next_with_extend (fuel : nat) (self : Iterator) : M Iterator :=
  '(r, self) <- IT_next fuel self ;;
  if r : bool then ret self
  else
    b <- load_bi (it_obj self) ;;
    let self := mkIterator (it_obj self) (bi_last b) (it_index self) in
    (* !self->chunk && self->chunk->length < CHUNKSIZE *)
    t <- (if is_null (it_chunk self)
          then c <- load (it_chunk self) ;; ret (ch_length c <? CHUNKSIZE)
          else ret false) ;;
    if t : bool then
      c <- load (it_chunk self) ;;
      let self := mkIterator (it_obj self) (it_chunk self) (ch_length c) in
      c <- load (it_chunk self) ;;
      set_length (it_chunk self) (ch_length c + 1) ;;;
      ret self
    else
      chunk <- newChunk ;;
      let self := mkIterator (it_obj self) chunk (it_index self) in
      set_value (it_chunk self) 0 0 ;;;
      c <- load (it_chunk self) ;;
      set_length (it_chunk self) (ch_length c + 1) ;;;
      let self := mkIterator (it_obj self) (it_chunk self) 0 in
      append (it_obj self) (it_chunk self) ;;;
      ret self.

Definition IT_set (self : Iterator) (value : Z) : M bool :=
  if is_null (it_chunk self) then ret false
  else set_value (it_chunk self) (it_index self) value ;;; ret true.

Definition IT_get (self : Iterator) : M Z :=
  if is_null (it_chunk self) then ret 0
  else get_value (it_chunk self) (it_index self).

(** ** BigInt.c: reset *)

(** [reset(self)]: the value returned and the addresses freed. *)
Definition reset (self : ptr) : M (Z * list freed) :=
  if is_null self then ret (1, [])
  else
    b <- load_bi self ;;
    p <- trimChunk (bi_first b) ;;
    log <- (if is_null p then ret [] else free_chunk [] p) ;;
    set_bi_length self 0 ;;;
    ret (0, log).

(** ** BigInt.c: addition *)

(** One word of the main loop: the sum and the carry the code derives
    from it. *)
Definition add_word (carry lv rv : Z) : Z * Z :=
  let sum := uadd (uadd carry lv) rv in
  (sum, if (sum <? lv) || (sum <? rv) then 1 else 0).

Definition add_main_body (fuel : nat)
    (s : Z * Iterator * Iterator) : M (Z * Iterator * Iterator) :=
  let '(carry, li, ri) := s in
  lv <- IT_get li ;;
  rv <- IT_get ri ;;
  let '(sum, carry) := add_word carry lv rv in
  IT_set li sum ;;;
  li <- IT_next_with_extend fuel li ;;
  '(_, ri) <- IT_next fuel ri ;;
  ret (carry, li, ri).

Definition add_carry_body (fuel : nat)
    (s : Z * Iterator) : M (Z * Iterator) :=
  let '(carry, li) := s in
  lv <- IT_get li ;;
  let sum := uadd carry lv in
  IT_set li sum ;;;
  if 0 <? sum then ret (0, li)
  else li <- IT_next_with_extend fuel li ;; ret (carry, li).

(** [add(self, arg)]: NULL for an absent argument, else [self]. *)
Definition add (fuel : nat) (self arg : ptr) : M ptr :=
  if is_null self || is_null arg then ret NULL
  else
    let carry := 0 in
    li <- iterate fuel self ;;
    ri <- iterate fuel arg ;;
    match li, ri with
    | Some li, Some ri =>
        li <-
          (if is_null (it_chunk li) then
             chunk <- newChunk ;;
             let li := mkIterator (it_obj li) chunk (it_index li) in
             set_value (it_chunk li) 0 0 ;;;
             c <- load (it_chunk li) ;;
             set_length (it_chunk li) (ch_length c + 1) ;;;
             append self (it_chunk li) ;;;
             ret li
           else ret li) ;;
        '(carry, li, ri) <-
          while fuel
            (fun '(carry, li, ri) => ret (negb (is_null (it_chunk ri))))
            (add_main_body fuel)
            (carry, li, ri) ;;
        while fuel
          (fun '(carry, li) => ret (negb (carry =? 0)))
          (add_carry_body fuel)
          (carry, li) ;;;
        ret self
    | _, _ => raise NullDeref
    end.

End BigInt.

(** * Specification vocabulary *)

(** ** Chains and the words they hold *)

(** [lseg cs p l q]: following [next] from [p] visits exactly the chunks
    [l], in order, and then arrives at [q]. *)
Fixpoint lseg (cs : list Chunk) (p : ptr) (l : list nat) (q : ptr) : Prop :=
  match l with
  | [] => p = q
  | x :: l' =>
      p = Some x /\ exists c, cs !! x = Some c /\ lseg cs (ch_next c) l' q
  end.

(** The valid words of a chunk, and of a chain, head to tail. *)
Definition chunk_words (c : Chunk) : list Z :=
  take (Z.to_nat (ch_length c)) (ch_value c).

Definition words_at (cs : list Chunk) (x : nat) : list Z :=
  match cs !! x with
  | Some c => chunk_words c
  | None => []
  end.

Definition words (cs : list Chunk) (l : list nat) : list Z :=
  flat_map (words_at cs) l.

(** The number a word sequence stands for, least significant word first. *)
Fixpoint number (ws : list Z) : Z :=
  match ws with
  | [] => 0
  | w :: ws' => w + uint_modulus * number ws'
  end.

(** Every word is an [unsigned int]. *)
Definition in_range (ws : list Z) : Prop :=
  Forall (fun w => 0 <= w < uint_modulus) ws.

(** A chunk is sound when its valid length is within its capacity. *)
Definition chunk_ok (C : Z) (c : Chunk) : Prop :=
  0 <= ch_length c <= C /\ Z.of_nat (length (ch_value c)) = C.

Definition chunks_ok (C : Z) (cs : list Chunk) (l : list nat) : Prop :=
  forall x, x ∈ l -> exists c, cs !! x = Some c /\ chunk_ok C c.

(** The container invariant of the spec: the chain from [first] is [l] and
    ends in NULL, it has at least one chunk, [last] is its last chunk, and
    [length] counts its chunks. *)
Definition container (C : Z) (h : heap) (a : nat) (l : list nat) : Prop :=
  exists b,
    bigints h !! a = Some b /\
    lseg (chunks h) (bi_first b) l NULL /\
    l <> [] /\
    bi_last b = last l /\
    bi_length b = Z.of_nat (length l) /\
    chunks_ok C (chunks h) l.

(** Only the last chunk may be less than full. *)
Definition interior_full (C : Z) (cs : list Chunk) (l : list nat) : Prop :=
  forall i x c,
    (S i < length l)%nat -> l !! i = Some x -> cs !! x = Some c ->
    ch_length c = C.

(** An iterator stands at word [k] of the chain [l]. *)
Definition cursor (cs : list Chunk) (l : list nat) (it : Iterator) (k : nat)
    : Prop :=
  exists l1 x l2 c,
    l = l1 ++ x :: l2 /\
    it_chunk it = Some x /\
    cs !! x = Some c /\
    0 <= it_index it < ch_length c /\
    k = (length (words cs l1) + Z.to_nat (it_index it))%nat.

(** Two chunk stores agree on the shape of every chunk: its [next] link,
    its valid length and its capacity; only words may differ. *)
Definition same_shape (cs cs' : list Chunk) : Prop :=
  length cs' = length cs /\
  forall x c, cs !! x = Some c ->
    exists c', cs' !! x = Some c' /\ ch_next c' = ch_next c /\
               ch_length c' = ch_length c /\
               length (ch_value c') = length (ch_value c).

(** The heap after a chunk of one zero word has been appended to the
    container [a] (its object [b], its last chunk [t] holding [ct]). *)
Definition grown (C : Z) (h : heap) (a : nat) (b : BigInt) (t : nat)
    (ct : Chunk) : heap :=
  let n := length (chunks h) in
  mkHeap
    (<[t := mkChunk (ch_prev ct) (Some n) (ch_length ct) (ch_value ct)]>
       (chunks h)
     ++ [mkChunk (Some t) NULL 1 (replicate (Z.to_nat C) 0)])
    (<[a := mkBigInt (bi_first b) (Some n) (bi_parity b) (bi_length b + 1)]>
       (bigints h)).

(** The container [b] with chain [lb] is the same in [h] as in [h0]. *)
Definition untouched (h0 h : heap) (b : nat) (lb : list nat) : Prop :=
  bigints h !! b = bigints h0 !! b /\
  forall y, y ∈ lb -> chunks h !! y = chunks h0 !! y.

(** The chunks [l] have in [cs'] the valid lengths they have in [cs]. *)
Definition lengths_kept (l : list nat) (cs cs' : list Chunk) : Prop :=
  forall y c, y ∈ l -> cs !! y = Some c ->
    exists c', cs' !! y = Some c' /\ ch_length c' = ch_length c.

(** ** What [add] computes, on word sequences *)

(** Advancing with growth from word [k]: a zero word is appended when [k]
    is the last one. *)
Definition grow (ws : list Z) (k : nat) : list Z :=
  if decide (S k < length ws)%nat then ws else ws ++ [0].

(** The accumulator's words from the cursor on, after one more
    advance-with-growth. *)
Definition extend (ws : list Z) : list Z :=
  match ws with
  | [] => [0]
  | _ => ws
  end.

(** The main loop: [wa] are the accumulator's words from the cursor on,
    [wb] the addend's words still to come; the result is the words written
    and left, and the carry. *)
Fixpoint add_main_words (carry : Z) (wa wb : list Z) : list Z * Z :=
  match wb with
  | [] => (wa, carry)
  | rv :: wb' =>
      let '(sum, carry') := add_word carry (hd 0 wa) rv in
      let '(ws, c) := add_main_words carry' (extend (tl wa)) wb' in
      (sum :: ws, c)
  end.

(** The carry loop over the accumulator's words from the cursor on. *)
Fixpoint add_carry_words (wa : list Z) : list Z :=
  match wa with
  | [] => [uadd 1 0]
  | lv :: wa' =>
      let sum := uadd 1 lv in
      if 0 <? sum then sum :: wa' else sum :: add_carry_words wa'
  end.

(** [add] on the words of the accumulator and of the addend. *)
Definition add_words (wa wb : list Z) : list Z :=
  let '(ws, carry) := add_main_words 0 (extend wa) wb in
  if carry =? 0 then ws
  else take (length wb) ws ++ add_carry_words (drop (length wb) ws).

(** ** What [setValue] copies *)

(** The array [v] after the words [src] have been written at the indices
    [j], [j + 1], ... *)
Fixpoint copy_into (v : list Z) (j : nat) (src : list Z) : list Z :=
  match src with
  | [] => v
  | w :: src' => copy_into (<[j := w]> v) (S j) src'
  end.

(** ** Hexadecimal renderings of a word *)

Definition hex_digit (d : Z) : ascii := nth (Z.to_nat d) hex NUL.

(** Least significant nibble first. *)
Definition hex_word_le (w : Z) : list ascii :=
  map (fun i => hex_digit ((w / 16 ^ Z.of_nat i) mod 16))
      (seq 0 (Z.to_nat charsPerUint)).

(** Most significant nibble first, as the spec words it. *)
Definition hex_word_be (w : Z) : list ascii := rev (hex_word_le w).

(** The buffer after [uintToHex] has written the word [w] at offset [P]:
    eight digits and a NUL. *)
Definition render_word (buf : buffer) (P : nat) (w : Z) : buffer :=
  take P buf ++ map Some (hex_word_le w) ++ Some NUL :: drop (P + 9) buf.

(** The buffer after the words [ws] have been written one after the other
    from offset [P] on. *)
Fixpoint render_into (buf : buffer) (P : nat) (ws : list Z) : buffer :=
  match ws with
  | [] => buf
  | w :: ws' => render_into (render_word buf P w) (P + 8) ws'
  end.

(** The digits of a sequence of words, in order. *)
Definition hex_words_le (ws : list Z) : list ascii :=
  flat_map hex_word_le ws.

(** ** Reading the digits back *)

Fixpoint index_of (ch : ascii) (l : list ascii) (i : Z) : option Z :=
  match l with
  | [] => None
  | c :: l' => if Ascii.eqb ch c then Some i else index_of ch l' (i + 1)
  end.

(** The value of a hexadecimal digit. *)
Definition hex_value (ch : ascii) : option Z := index_of ch hex 0.

(** The number a string of digits stands for, least significant digit
    first. *)
Fixpoint number_of_hex_le (s : list ascii) : option Z :=
  match s with
  | [] => Some 0
  | ch :: s' =>
      match hex_value ch, number_of_hex_le s' with
      | Some d, Some n => Some (d + 16 * n)
      | _, _ => None
      end
  end.

(** ** Walking a container *)

(** The cursor a caller holds after [iterate] and [k] calls of [IT_next];
    NULL once a call has returned NULL. *)
Fixpoint nth_cursor (fuel : nat) (obj : ptr) (k : nat) : M (option Iterator) :=
  match k with
  | O => iterate fuel obj
  | S k' =>
      it <- nth_cursor fuel obj k' ;;
      match it with
      | Some it =>
          '(r, it') <- IT_next fuel it ;;
          ret (if r : bool then Some it' else None)
      | None => ret None
      end
  end.

(** ** Checking the invariants of a given heap *)

Definition ptr_eqb (p q : ptr) : bool :=
  match p, q with
  | None, None => true
  | Some x, Some y => Nat.eqb x y
  | _, _ => false
  end.

Fixpoint lsegb (cs : list Chunk) (p : ptr) (l : list nat) (q : ptr) : bool :=
  match l with
  | [] => ptr_eqb p q
  | x :: l' =>
      ptr_eqb p (Some x) &&
      match cs !! x with
      | Some c => lsegb cs (ch_next c) l' q
      | None => false
      end
  end.

Definition chunk_okb (C : Z) (c : Chunk) : bool :=
  (0 <=? ch_length c) && (ch_length c <=? C) &&
  (Z.of_nat (length (ch_value c)) =? C).

Definition containerb (C : Z) (h : heap) (a : nat) (l : list nat) : bool :=
  match bigints h !! a with
  | Some b =>
      lsegb (chunks h) (bi_first b) l NULL &&
      negb (Nat.eqb (length l) 0) &&
      ptr_eqb (bi_last b) (last l) &&
      (bi_length b =? Z.of_nat (length l)) &&
      forallb (fun x => match chunks h !! x with
                        | Some c => chunk_okb C c
                        | None => false
                        end) l
  | None => false
  end.

Definition disjointb (la lb : list nat) : bool :=
  forallb (fun x => negb (existsb (Nat.eqb x) lb)) la.

(** ** Example states *)

Definition heap_of {A} (r : result (A * heap)) : heap :=
  match r with
  | Ok (_, h) => h
  | Fault _ => empty_heap
  end.

(** One container as [newBigInt] leaves it, at address 0 with its chunk at
    address 0. *)
Definition fresh_one (C : Z) : heap := heap_of (newBigInt C empty_heap).

(** Two such containers, at addresses 0 and 1 with their chunks at
    addresses 0 and 1. *)
Definition fresh_two (C : Z) : heap :=
  heap_of ((newBigInt C ;;; newBigInt C) empty_heap).

(** The containers 0 and 1 after [setValue] has given them the words [wa]
    and [wb]. *)
Definition loaded_two (C : Z) (wa wb : list Z) : heap :=
  heap_of ((setValue C 20 (Some 0%nat) (Z.of_nat (length wa)) (Some wa) ;;;
            setValue C 20 (Some 1%nat) (Z.of_nat (length wb)) (Some wb))
             (fresh_two C)).

(** The container 0 after [add] has grown it to two chunks. *)
Definition grown_one (C : Z) : heap :=
  heap_of (add C 20 (Some 0%nat) (Some 1%nat) (fresh_two C)).

(** * Proofs *)

(** ** The monad and its loops *)

Lemma bind_ok {A B} (m : M A) (k : A -> M B) h a h' r :
  m h = Ok (a, h') -> k a h' = r -> bind m k h = r.
Proof. intros Hm Hk. unfold bind. now rewrite Hm. Qed.

Lemma bind_fault {A B} (m : M A) (k : A -> M B) h f :
  m h = Fault f -> bind m k h = Fault f.
Proof. intros Hm. unfold bind. now rewrite Hm. Qed.

Lemma while_O {St} cond body (s : St) h :
  while O cond body s h = Fault OutOfFuel.
Proof. reflexivity. Qed.

Lemma while_false {St} fuel cond body (s : St) h :
  cond s h = Ok (false, h) -> while (S fuel) cond body s h = Ok (s, h).
Proof. intros Hc. simpl. eapply bind_ok; [exact Hc | reflexivity]. Qed.

Lemma while_true {St} fuel cond body (s s' : St) h h' :
  cond s h = Ok (true, h) -> body s h = Ok (s', h') ->
  while (S fuel) cond body s h = while fuel cond body s' h'.
Proof.
  intros Hc Hb. simpl. eapply bind_ok; [exact Hc |].
  eapply bind_ok; [exact Hb | reflexivity].
Qed.

Lemma while_body_fault {St} fuel cond body (s : St) h f :
  cond s h = Ok (true, h) -> body s h = Fault f ->
  while (S fuel) cond body s h = Fault f.
Proof.
  intros Hc Hb. simpl. eapply bind_ok; [exact Hc|].
  now apply bind_fault.
Qed.

(** Total correctness of a loop: an invariant indexed by a measure that
    every iteration lowers; more fuel than the measure is enough. *)
Lemma while_total {St} (Inv : nat -> St -> heap -> Prop)
    (cond : St -> M bool) (body : St -> M St) :
  (forall n s h, Inv n s h ->
     exists b, cond s h = Ok (b, h) /\
       (b = true -> exists n' s' h',
          body s h = Ok (s', h') /\ Inv n' s' h' /\ (n' < n)%nat)) ->
  forall fuel n s h, Inv n s h -> (n < fuel)%nat ->
    exists n' s' h', while fuel cond body s h = Ok (s', h') /\
                     Inv n' s' h' /\ cond s' h' = Ok (false, h').
Proof.
  intros Hstep fuel. induction fuel as [|fuel IH]; intros n s h HI Hn; [lia|].
  destruct (Hstep n s h HI) as [b [Hc Hb]]. destruct b.
  - destruct (Hb eq_refl) as (n' & s' & h' & Hbody & HI' & Hlt).
    destruct (IH n' s' h' HI') as (n'' & s'' & h'' & Hw & HI'' & Hc'');
      [lia|].
    exists n'', s'', h''. split; [|auto].
    rewrite (while_true _ _ _ _ _ _ _ Hc Hbody). exact Hw.
  - exists n, s, h. split; [|auto]. now apply while_false.
Qed.

(** A loop whose condition an invariant keeps true uses up any fuel. *)
Lemma while_diverges {St} (Inv : St -> heap -> Prop)
    (cond : St -> M bool) (body : St -> M St) :
  (forall s h, Inv s h ->
     cond s h = Ok (true, h) /\
     exists s' h', body s h = Ok (s', h') /\ Inv s' h') ->
  forall fuel s h, Inv s h -> while fuel cond body s h = Fault OutOfFuel.
Proof.
  intros Hstep fuel. induction fuel as [|fuel IH]; intros s h HI; [reflexivity|].
  destruct (Hstep s h HI) as [Hc (s' & h' & Hb & HI')].
  rewrite (while_true _ _ _ _ _ _ _ Hc Hb). now apply IH.
Qed.

(** ** Loads and stores *)

Lemma load_ok h x c : chunks h !! x = Some c -> load (Some x) h = Ok (c, h).
Proof. intros H. unfold load. now rewrite H. Qed.

Lemma store_ok h x c c' :
  chunks h !! x = Some c ->
  store (Some x) c' h = Ok (tt, mkHeap (<[x := c']> (chunks h)) (bigints h)).
Proof. intros H. unfold store. now rewrite H. Qed.

Lemma load_bi_ok h a b :
  bigints h !! a = Some b -> load_bi (Some a) h = Ok (b, h).
Proof. intros H. unfold load_bi. now rewrite H. Qed.

Lemma store_bi_ok h a b b' :
  bigints h !! a = Some b ->
  store_bi (Some a) b' h
  = Ok (tt, mkHeap (chunks h) (<[a := b']> (bigints h))).
Proof. intros H. unfold store_bi. now rewrite H. Qed.

Lemma set_prev_ok h x c q :
  chunks h !! x = Some c ->
  set_prev (Some x) q h
  = Ok (tt, mkHeap (<[x := mkChunk q (ch_next c) (ch_length c) (ch_value c)]>
                      (chunks h)) (bigints h)).
Proof.
  intros H. unfold set_prev. eapply bind_ok; [apply load_ok; exact H|].
  eapply store_ok; exact H.
Qed.

Lemma set_next_ok h x c q :
  chunks h !! x = Some c ->
  set_next (Some x) q h
  = Ok (tt, mkHeap (<[x := mkChunk (ch_prev c) q (ch_length c) (ch_value c)]>
                      (chunks h)) (bigints h)).
Proof.
  intros H. unfold set_next. eapply bind_ok; [apply load_ok; exact H|].
  eapply store_ok; exact H.
Qed.

Lemma set_length_ok h x c n :
  chunks h !! x = Some c ->
  set_length (Some x) n h
  = Ok (tt, mkHeap (<[x := mkChunk (ch_prev c) (ch_next c) n (ch_value c)]>
                      (chunks h)) (bigints h)).
Proof.
  intros H. unfold set_length. eapply bind_ok; [apply load_ok; exact H|].
  eapply store_ok; exact H.
Qed.

Lemma get_value_ok h x c i v :
  chunks h !! x = Some c -> 0 <= i -> ch_value c !! Z.to_nat i = Some v ->
  get_value (Some x) i h = Ok (v, h).
Proof.
  intros H Hi Hv. unfold get_value. eapply bind_ok; [apply load_ok; exact H|].
  destruct (Z.ltb_spec i 0) as [?|_]; [lia|]. now rewrite Hv.
Qed.

Lemma set_value_ok h x c i v :
  chunks h !! x = Some c -> 0 <= i < Z.of_nat (length (ch_value c)) ->
  set_value (Some x) i v h
  = Ok (tt, mkHeap (<[x := mkChunk (ch_prev c) (ch_next c) (ch_length c)
                                   (<[Z.to_nat i := v]> (ch_value c))]>
                      (chunks h)) (bigints h)).
Proof.
  intros H Hi. unfold set_value. eapply bind_ok; [apply load_ok; exact H|].
  destruct (Z.ltb_spec i 0) as [?|_]; [lia|].
  destruct (Z.leb_spec (Z.of_nat (length (ch_value c))) i) as [?|_]; [lia|].
  simpl. eapply store_ok; exact H.
Qed.

Lemma set_value_oob h x c i v :
  chunks h !! x = Some c -> Z.of_nat (length (ch_value c)) <= i ->
  set_value (Some x) i v h = Fault OutOfBounds.
Proof.
  intros H Hi. unfold set_value. eapply bind_ok; [apply load_ok; exact H|].
  destruct (Z.leb_spec (Z.of_nat (length (ch_value c))) i) as [_|?]; [|lia].
  now rewrite orb_true_r.
Qed.

Lemma set_last_ok h a b q :
  bigints h !! a = Some b ->
  set_last (Some a) q h
  = Ok (tt, mkHeap (chunks h)
                   (<[a := mkBigInt (bi_first b) q (bi_parity b) (bi_length b)]>
                      (bigints h))).
Proof.
  intros H. unfold set_last. eapply bind_ok; [apply load_bi_ok; exact H|].
  eapply store_bi_ok; exact H.
Qed.

Lemma set_bi_length_ok h a b n :
  bigints h !! a = Some b ->
  set_bi_length (Some a) n h
  = Ok (tt, mkHeap (chunks h)
                   (<[a := mkBigInt (bi_first b) (bi_last b) (bi_parity b) n]>
                      (bigints h))).
Proof.
  intros H. unfold set_bi_length.
  eapply bind_ok; [apply load_bi_ok; exact H|]. eapply store_bi_ok; exact H.
Qed.

(** ** Chains *)

Lemma lseg_app cs l1 l2 p q :
  lseg cs p (l1 ++ l2) q <-> exists m, lseg cs p l1 m /\ lseg cs m l2 q.
Proof.
  revert p. induction l1 as [|x l1 IH]; intros p; simpl.
  - split; [intros H; exists p; auto | intros (m & -> & H); exact H].
  - split.
    + intros (-> & c & Hc & Hl). apply IH in Hl as (m & H1 & H2).
      exists m. split; [|exact H2]. split; [reflexivity|]. exists c. auto.
    + intros (m & (-> & c & Hc & H1) & H2). split; [reflexivity|].
      exists c. split; [exact Hc|]. apply IH. exists m. auto.
Qed.

Lemma lseg_functional cs l1 l2 p :
  lseg cs p l1 NULL -> lseg cs p l2 NULL -> l1 = l2.
Proof.
  revert l2 p. induction l1 as [|x l1 IH]; intros [|y l2] p; simpl.
  - reflexivity.
  - intros -> (H & _). discriminate.
  - intros (-> & _) H. discriminate.
  - intros (-> & c & Hc & H1) (Heq & c' & Hc' & H2).
    injection Heq as <-. rewrite Hc in Hc'. injection Hc' as <-.
    f_equal. eapply IH; eassumption.
Qed.

(** A chain that ends in NULL visits no chunk twice. *)
Lemma lseg_NoDup cs l p : lseg cs p l NULL -> NoDup l.
Proof.
  revert p. induction l as [|x l IH]; intros p; simpl.
  - intros _. constructor.
  - intros (-> & c & Hc & Hl). constructor; [|eapply IH; exact Hl].
    intros Hin. apply list_elem_of_split in Hin as (l1 & l2 & ->).
    pose proof Hl as Hl'. apply lseg_app in Hl' as (m & _ & H2).
    simpl in H2. destruct H2 as (-> & c' & Hc' & H2).
    rewrite Hc in Hc'. injection Hc' as <-.
    pose proof (lseg_functional _ _ _ _ Hl H2) as Heq.
    apply (f_equal length) in Heq. rewrite length_app in Heq. simpl in Heq. lia.
Qed.

(** A chain only depends on the [next] fields of its own chunks. *)
Lemma lseg_ext cs cs' l p q :
  (forall x, x ∈ l -> ch_next <$> cs' !! x = ch_next <$> cs !! x) ->
  lseg cs p l q -> lseg cs' p l q.
Proof.
  revert p. induction l as [|x l IH]; intros p Hext; simpl; [auto|].
  intros (-> & c & Hc & Hl). split; [reflexivity|].
  pose proof (Hext x ltac:(left)) as Hx. rewrite Hc in Hx. simpl in Hx.
  destruct (cs' !! x) as [c'|] eqn:Hc'; simpl in Hx; [|discriminate].
  injection Hx as Hx. exists c'. split; [reflexivity|]. rewrite Hx.
  apply IH; [|exact Hl]. intros y Hy. apply Hext. now right.
Qed.

Lemma lseg_lookup cs l p q x :
  lseg cs p l q -> x ∈ l -> is_Some (cs !! x).
Proof.
  revert p. induction l as [|y l IH]; intros p; simpl.
  - intros _ Hin. inversion Hin.
  - intros (-> & c & Hc & Hl) Hin. apply elem_of_cons in Hin as [->|Hin].
    + now exists c.
    + eapply IH; eassumption.
Qed.

Lemma lseg_lt cs l p q x : lseg cs p l q -> x ∈ l -> (x < length cs)%nat.
Proof.
  intros Hl Hin. destruct (lseg_lookup _ _ _ _ _ Hl Hin) as [c Hc].
  eapply lookup_lt_Some. exact Hc.
Qed.

(** ** Words of a chain *)

Lemma words_app cs l1 l2 : words cs (l1 ++ l2) = words cs l1 ++ words cs l2.
Proof. unfold words. apply flat_map_app. Qed.

Lemma words_cons cs x l : words cs (x :: l) = words_at cs x ++ words cs l.
Proof. reflexivity. Qed.

Lemma words_singleton cs x : words cs [x] = words_at cs x.
Proof. unfold words. simpl. apply app_nil_r. Qed.

Lemma words_at_lookup cs x c : cs !! x = Some c -> words_at cs x = chunk_words c.
Proof. intros H. unfold words_at. now rewrite H. Qed.

Lemma words_ext cs cs' l :
  (forall x, x ∈ l -> cs' !! x = cs !! x) -> words cs' l = words cs l.
Proof.
  induction l as [|x l IH]; intros Hext; [reflexivity|].
  rewrite !words_cons. f_equal.
  - unfold words_at. rewrite Hext; [reflexivity | left].
  - apply IH. intros y Hy. apply Hext. now right.
Qed.

(** The words only depend on the valid length and the array of each chunk. *)
Lemma words_keep cs cs' l :
  (forall y c, y ∈ l -> cs !! y = Some c ->
     exists c', cs' !! y = Some c' /\
                ch_length c' = ch_length c /\ ch_value c' = ch_value c) ->
  (forall y, y ∈ l -> is_Some (cs !! y)) ->
  words cs' l = words cs l.
Proof.
  induction l as [|y l IH]; intros Hkeep Hsome; [reflexivity|].
  rewrite !words_cons. f_equal.
  - destruct (Hsome y ltac:(left)) as [c Hc].
    destruct (Hkeep y c ltac:(left) Hc) as (c' & Hc' & Hl' & Hv').
    rewrite (words_at_lookup _ _ _ Hc), (words_at_lookup _ _ _ Hc').
    unfold chunk_words. now rewrite Hl', Hv'.
  - apply IH.
    + intros z c Hz. apply Hkeep. now right.
    + intros z Hz. apply Hsome. now right.
Qed.

Lemma chunk_words_length C c :
  chunk_ok C c -> length (chunk_words c) = Z.to_nat (ch_length c).
Proof.
  intros [Hl Hv]. unfold chunk_words. rewrite length_take. lia.
Qed.

Lemma chunks_ok_app C cs l1 l2 :
  chunks_ok C cs (l1 ++ l2) <-> chunks_ok C cs l1 /\ chunks_ok C cs l2.
Proof.
  unfold chunks_ok. split.
  - intros H. split; intros x Hx; apply H; apply elem_of_app; auto.
  - intros [H1 H2] x Hx. apply elem_of_app in Hx as [Hx|Hx]; auto.
Qed.

Lemma chunks_ok_cons C cs x l :
  chunks_ok C cs (x :: l) <->
  (exists c, cs !! x = Some c /\ chunk_ok C c) /\ chunks_ok C cs l.
Proof.
  unfold chunks_ok. split.
  - intros H. split; [apply H; left | intros y Hy; apply H; now right].
  - intros [H1 H2] y Hy. apply elem_of_cons in Hy as [->|Hy]; auto.
Qed.

Lemma chunks_ok_ext C cs cs' l :
  (forall x, x ∈ l -> cs' !! x = cs !! x) ->
  chunks_ok C cs l -> chunks_ok C cs' l.
Proof. intros Hext H x Hx. rewrite Hext by exact Hx. now apply H. Qed.

(** What a cursor at word [k] says about the words of the chain. *)
Lemma cursor_words C cs l it k :
  chunks_ok C cs l -> cursor cs l it k ->
  exists l1 x l2 c,
    l = l1 ++ x :: l2 /\ it_chunk it = Some x /\ cs !! x = Some c /\
    chunk_ok C c /\ 0 <= it_index it < ch_length c /\
    k = (length (words cs l1) + Z.to_nat (it_index it))%nat /\
    words cs l = words cs l1 ++ chunk_words c ++ words cs l2.
Proof.
  intros Hok (l1 & x & l2 & c & -> & Hit & Hc & Hi & Hk).
  assert (chunk_ok C c) as Hcok.
  { apply chunks_ok_app in Hok as [_ Hok].
    apply chunks_ok_cons in Hok as [(c' & Hc' & Hok) _]. congruence. }
  exists l1, x, l2, c.
  split; [reflexivity|]. split; [assumption|]. split; [assumption|].
  split; [assumption|]. split; [assumption|]. split; [assumption|].
  rewrite words_app, words_cons. now rewrite (words_at_lookup _ _ _ Hc).
Qed.

Lemma cursor_lt C cs l it k :
  chunks_ok C cs l -> cursor cs l it k -> (k < length (words cs l))%nat.
Proof.
  intros Hok Hcur.
  destruct (cursor_words _ _ _ _ _ Hok Hcur)
    as (l1 & x & l2 & c & -> & Hit & Hc & Hcok & Hi & -> & ->).
  rewrite !length_app, (chunk_words_length _ _ Hcok). lia.
Qed.

Lemma cursor_lookup C cs l it k :
  chunks_ok C cs l -> cursor cs l it k ->
  exists x c,
    it_chunk it = Some x /\ cs !! x = Some c /\ chunk_ok C c /\
    0 <= it_index it < ch_length c /\
    words cs l !! k = ch_value c !! Z.to_nat (it_index it) /\
    is_Some (ch_value c !! Z.to_nat (it_index it)).
Proof.
  intros Hok Hcur.
  destruct (cursor_words _ _ _ _ _ Hok Hcur)
    as (l1 & x & l2 & c & -> & Hit & Hc & Hcok & Hi & -> & ->).
  pose proof (chunk_words_length _ _ Hcok) as Hlen.
  exists x, c.
  split; [assumption|]. split; [assumption|]. split; [assumption|].
  split; [assumption|]. split.
  - rewrite lookup_app_r by lia.
    replace (_ + _ - _)%nat with (Z.to_nat (it_index it)) by lia.
    rewrite lookup_app_l by lia.
    unfold chunk_words. apply lookup_take_lt. lia.
  - apply lookup_lt_is_Some. destruct Hcok as [? ?]. lia.
Qed.

(** ** Stores of the same shape *)

Lemma same_shape_lseg cs cs' l p q :
  same_shape cs cs' -> lseg cs p l q -> lseg cs' p l q.
Proof.
  intros [_ Hs]. revert p. induction l as [|x l IH]; intros p; simpl; [auto|].
  intros (-> & c & Hc & Hl). split; [reflexivity|].
  destruct (Hs x c Hc) as (c' & Hc' & Hn & _). exists c'.
  split; [exact Hc'|]. rewrite Hn. now apply IH.
Qed.

Lemma same_shape_chunks_ok C cs cs' l :
  same_shape cs cs' -> chunks_ok C cs l -> chunks_ok C cs' l.
Proof.
  intros [_ Hs] Hok x Hx. destruct (Hok x Hx) as (c & Hc & [Hl Hv]).
  destruct (Hs x c Hc) as (c' & Hc' & _ & Hlen & Hval). exists c'.
  split; [exact Hc'|]. split; [rewrite Hlen | rewrite Hval]; assumption.
Qed.

Lemma same_shape_words_length C cs cs' l :
  same_shape cs cs' -> chunks_ok C cs l ->
  length (words cs' l) = length (words cs l).
Proof.
  intros Hs. induction l as [|x l IH]; intros Hok; [reflexivity|].
  apply chunks_ok_cons in Hok as [(c & Hc & Hcok) Hok].
  rewrite !words_cons, !length_app, (IH Hok). f_equal.
  destruct Hs as [_ Hs]. destruct (Hs x c Hc) as (c' & Hc' & _ & Hlen & Hval).
  rewrite (words_at_lookup _ _ _ Hc), (words_at_lookup _ _ _ Hc').
  unfold chunk_words. rewrite !length_take. lia.
Qed.

Lemma same_shape_cursor C cs cs' l it k :
  same_shape cs cs' -> chunks_ok C cs l ->
  cursor cs l it k -> cursor cs' l it k.
Proof.
  intros Hs Hok (l1 & x & l2 & c & -> & Hit & Hc & Hi & ->).
  destruct (proj2 Hs x c Hc) as (c' & Hc' & _ & Hlen & _).
  exists l1, x, l2, c'. split; [reflexivity|]. split; [exact Hit|].
  split; [exact Hc'|]. split; [lia|].
  apply chunks_ok_app in Hok as [Hok _].
  now rewrite (same_shape_words_length _ _ _ _ Hs Hok).
Qed.

(** Writing a word keeps the shape. *)
Lemma same_shape_insert cs x c c' :
  cs !! x = Some c ->
  ch_next c' = ch_next c -> ch_length c' = ch_length c ->
  length (ch_value c') = length (ch_value c) ->
  same_shape cs (<[x := c']> cs).
Proof.
  intros Hc Hn Hl Hv. split; [apply length_insert|].
  intros y d Hd. destruct (decide (x = y)) as [<-|Hne].
  - exists c'. rewrite list_lookup_insert_eq by (eapply lookup_lt_Some; eauto).
    assert (d = c) as -> by congruence. auto.
  - exists d. rewrite list_lookup_insert_ne by exact Hne. auto.
Qed.

(** ** Reading and writing through an iterator *)

Lemma IT_get_spec C h l it k :
  chunks_ok C (chunks h) l -> cursor (chunks h) l it k ->
  exists v, IT_get it h = Ok (v, h) /\ words (chunks h) l !! k = Some v.
Proof.
  intros Hok Hcur.
  destruct (cursor_lookup _ _ _ _ _ Hok Hcur)
    as (x & c & Hit & Hc & Hcok & Hi & Hw & [v Hv]).
  exists v. split; [|congruence].
  unfold IT_get. rewrite Hit. simpl.
  eapply get_value_ok; [exact Hc | lia | exact Hv].
Qed.

(** [IT_set] writes word [k]; nothing else of the chain changes, and no
    chunk outside the iterator's own is touched. *)
Lemma IT_set_spec C h l it k v :
  chunks_ok C (chunks h) l -> NoDup l -> cursor (chunks h) l it k ->
  exists x h',
    it_chunk it = Some x /\ x ∈ l /\
    IT_set it v h = Ok (true, h') /\
    bigints h' = bigints h /\
    same_shape (chunks h) (chunks h') /\
    (forall y, y <> x -> chunks h' !! y = chunks h !! y) /\
    words (chunks h') l = <[k := v]> (words (chunks h) l).
Proof.
  intros Hok Hnd Hcur.
  destruct (cursor_words _ _ _ _ _ Hok Hcur)
    as (l1 & x & l2 & c & -> & Hit & Hc & Hcok & Hi & -> & Hw).
  pose proof (chunk_words_length _ _ Hcok) as Hlen.
  set (c' := mkChunk (ch_prev c) (ch_next c) (ch_length c)
                     (<[Z.to_nat (it_index it) := v]> (ch_value c))).
  exists x, (mkHeap (<[x := c']> (chunks h)) (bigints h)).
  split; [exact Hit|]. split; [apply elem_of_app; right; left|]. split.
  { unfold IT_set. rewrite Hit. simpl. destruct Hcok as [? ?].
    eapply bind_ok; [eapply set_value_ok; [exact Hc | lia] | reflexivity]. }
  split; [reflexivity|]. simpl. split.
  { eapply same_shape_insert; [exact Hc | reflexivity | reflexivity |].
    simpl. apply length_insert. }
  split; [intros y Hy; now apply list_lookup_insert_ne|].
  apply NoDup_app in Hnd as (_ & Hd1 & Hnd).
  apply NoDup_cons in Hnd as [Hd2 _].
  rewrite Hw, words_app, words_cons.
  rewrite (words_ext (chunks h) _ l1), (words_ext (chunks h) _ l2).
  - unfold words_at.
    rewrite list_lookup_insert_eq by (eapply lookup_lt_Some; eauto).
    rewrite insert_app_r, insert_app_l by lia. do 2 f_equal.
    unfold chunk_words. simpl. apply take_insert_lt. lia.
  - intros y Hy. apply list_lookup_insert_ne. intros <-. contradiction.
  - intros y Hy. apply list_lookup_insert_ne. intros <-.
    apply (Hd1 x Hy). left.
Qed.

(** ** Advancing an iterator *)

(** The loop of [IT_next] passes the empty chunks and stops at the first
    chunk that holds a word, or at the end of the chain. *)
Lemma IT_next_skip_spec C h l p fuel :
  lseg (chunks h) p l NULL -> chunks_ok C (chunks h) l ->
  (length l < fuel)%nat ->
  exists q,
    while fuel
      (fun chunk =>
         if is_null chunk then ret false
         else c <- load chunk ;; ret (ch_length c =? 0))
      (fun chunk => c <- load chunk ;; ret (ch_next c))
      p h = Ok (q, h) /\
    ((q = NULL /\ words (chunks h) l = []) \/
     (exists e y r c,
        l = e ++ y :: r /\ q = Some y /\ words (chunks h) e = [] /\
        chunks h !! y = Some c /\ 0 < ch_length c)).
Proof.
  revert p fuel. induction l as [|x l IH]; intros p fuel Hl Hok Hfuel;
    (destruct fuel as [|fuel]; [simpl in Hfuel; lia|]).
  - simpl in Hl. subst p. exists NULL. split; [|left; auto].
    now apply while_false.
  - destruct Hl as (-> & c & Hc & Hl).
    apply chunks_ok_cons in Hok as [(c' & Hc' & Hcok) Hok].
    assert (c' = c) as -> by congruence.
    destruct (Z.eqb_spec (ch_length c) 0) as [Hz|Hnz].
    + destruct (IH (ch_next c) fuel Hl Hok) as (q & Hw & Hq);
        [simpl in Hfuel; lia|].
      exists q. split.
      * erewrite while_true; [exact Hw | |].
        -- simpl. eapply bind_ok; [apply load_ok; exact Hc|].
           unfold ret. f_equal. f_equal. now apply Z.eqb_eq.
        -- eapply bind_ok; [apply load_ok; exact Hc | reflexivity].
      * assert (words_at (chunks h) x = []) as Hx.
        { rewrite (words_at_lookup _ _ _ Hc). unfold chunk_words.
          now rewrite Hz. }
        destruct Hq as [[-> Hws]|(e & y & r & d & -> & -> & He & Hd & Hpos)].
        -- left. split; [reflexivity|]. now rewrite words_cons, Hx, Hws.
        -- right. exists (x :: e), y, r, d. split; [reflexivity|].
           split; [reflexivity|]. split; [|auto].
           now rewrite words_cons, Hx, He.
    + exists (Some x). split.
      * apply while_false. simpl.
        eapply bind_ok; [apply load_ok; exact Hc|].
        unfold ret. f_equal. f_equal. now apply Z.eqb_neq.
      * right. exists [], x, l, c. split; [reflexivity|].
        split; [reflexivity|]. split; [reflexivity|]. split; [exact Hc|].
        destruct Hcok as [? _]. lia.
Qed.

(** [IT_next] moves a cursor from word [k] to word [k + 1], or finds the
    chain exhausted when [k] was its last word.  The heap is not touched. *)
Lemma IT_next_spec C h l p it k fuel :
  lseg (chunks h) p l NULL -> chunks_ok C (chunks h) l ->
  cursor (chunks h) l it k -> (length l < fuel)%nat ->
  exists r it',
    IT_next fuel it h = Ok ((r, it'), h) /\
    it_obj it' = it_obj it /\
    ((S k < length (words (chunks h) l))%nat /\ r = true /\
       cursor (chunks h) l it' (S k)
     \/
     S k = length (words (chunks h) l) /\ r = false /\
       it_chunk it' = NULL /\ it_index it' = 0).
Proof.
  intros Hl Hok Hcur Hfuel.
  destruct (cursor_words _ _ _ _ _ Hok Hcur)
    as (l1 & x & l2 & c & -> & Hit & Hc & Hcok & Hi & -> & Hw).
  pose proof (chunk_words_length _ _ Hcok) as Hlen.
  apply lseg_app in Hl as (m & Hl1 & Hl2). simpl in Hl2.
  destruct Hl2 as (-> & c' & Hc' & Hl2). assert (c' = c) as -> by congruence.
  apply chunks_ok_app in Hok as [Hok1 Hok2].
  apply chunks_ok_cons in Hok2 as [_ Hok2].
  unfold IT_next. rewrite Hit. simpl.
  destruct (Z.leb_spec (ch_length c) (it_index it + 1)) as [Hend|Hin].
  - destruct (IT_next_skip_spec C h l2 (ch_next c) fuel Hl2 Hok2)
      as (q & Hskip & Hq).
    { rewrite length_app in Hfuel. simpl in Hfuel. lia. }
    destruct Hq as [[-> Hws]|(e & y & r & d & -> & -> & He & Hd & Hpos)].
    + exists false, (mkIterator (it_obj it) NULL 0).
      split; [|split; [reflexivity|right]].
      * eapply bind_ok; [apply load_ok; exact Hc|].
        destruct (Z.leb_spec (ch_length c) (it_index it + 1)); [|lia].
        eapply bind_ok;
          [eapply bind_ok; [apply load_ok; exact Hc|];
           eapply bind_ok; [exact Hskip | reflexivity]
          | reflexivity].
      * rewrite Hw, Hws, !length_app, Hlen. simpl. split; [lia|auto].
    + exists true, (mkIterator (it_obj it) (Some y) 0).
      split; [|split; [reflexivity|left]].
      * eapply bind_ok; [apply load_ok; exact Hc|].
        destruct (Z.leb_spec (ch_length c) (it_index it + 1)); [|lia].
        eapply bind_ok;
          [eapply bind_ok; [apply load_ok; exact Hc|];
           eapply bind_ok; [exact Hskip | reflexivity]
          | reflexivity].
      * apply chunks_ok_app in Hok2 as [_ Hok2].
        apply chunks_ok_cons in Hok2 as [(d' & Hd' & Hdok) _].
        assert (d' = d) as -> by congruence.
        pose proof (chunk_words_length _ _ Hdok) as Hdlen.
        split; [|split; [reflexivity|]].
        -- rewrite Hw, words_app, He, words_cons,
             (words_at_lookup _ _ _ Hd), !length_app, Hlen, Hdlen.
           simpl. lia.
        -- exists (l1 ++ x :: e), y, r, d. simpl.
           split; [now rewrite <- app_assoc|]. split; [reflexivity|].
           split; [exact Hd|]. split; [lia|].
           rewrite words_app, words_cons, (words_at_lookup _ _ _ Hc), He.
           rewrite !length_app, Hlen. simpl. lia.
  - exists true, (mkIterator (it_obj it) (Some x) (it_index it + 1)).
    split; [|split; [reflexivity|left]].
    + eapply bind_ok; [apply load_ok; exact Hc|].
      destruct (Z.leb_spec (ch_length c) (it_index it + 1)); [lia|].
      eapply bind_ok; reflexivity.
    + split; [|split; [reflexivity|]].
      * rewrite Hw, !length_app, Hlen. lia.
      * exists l1, x, l2, c. simpl. split; [reflexivity|].
        split; [reflexivity|]. split; [exact Hc|]. split; [lia|]. lia.
Qed.

Lemma lengths_kept_refl l cs : lengths_kept l cs cs.
Proof. intros y c _ Hc. exists c. auto. Qed.

Lemma lengths_kept_trans l cs1 cs2 cs3 :
  lengths_kept l cs1 cs2 -> lengths_kept l cs2 cs3 -> lengths_kept l cs1 cs3.
Proof.
  intros H12 H23 y c Hy Hc. destruct (H12 y c Hy Hc) as (c2 & Hc2 & Hl2).
  destruct (H23 y c2 Hy Hc2) as (c3 & Hc3 & Hl3). exists c3.
  split; [exact Hc3 | congruence].
Qed.

Lemma lengths_kept_app_l l1 l2 cs cs' :
  lengths_kept (l1 ++ l2) cs cs' -> lengths_kept l1 cs cs'.
Proof. intros H y c Hy. apply H. apply elem_of_app. now left. Qed.

Lemma same_shape_lengths_kept l cs cs' :
  same_shape cs cs' -> lengths_kept l cs cs'.
Proof.
  intros [_ Hs] y c _ Hc. destruct (Hs y c Hc) as (c' & Hc' & _ & Hl & _).
  exists c'. auto.
Qed.

(** ** Growing a container *)

(** [append] links a chunk behind the last one. *)
Lemma append_ok h a b t ct x cx :
  bigints h !! a = Some b -> bi_last b = Some t ->
  chunks h !! t = Some ct -> chunks h !! x = Some cx -> x <> t ->
  append (Some a) (Some x) h
  = Ok (0, mkHeap
             (<[t := mkChunk (ch_prev ct) (Some x) (ch_length ct) (ch_value ct)]>
                (<[x := mkChunk (Some t) (ch_next cx) (ch_length cx)
                                (ch_value cx)]> (chunks h)))
             (<[a := mkBigInt (bi_first b) (Some x) (bi_parity b)
                              (bi_length b + 1)]> (bigints h))).
Proof.
  intros Hb Hlast Ht Hx Hne. unfold append. simpl.
  pose proof (lookup_lt_Some _ _ _ Hb) as Ha.
  pose proof (lookup_lt_Some _ _ _ Hx) as Hxlt.
  eapply bind_ok; [apply load_bi_ok; exact Hb|].
  eapply bind_ok; [eapply set_bi_length_ok; exact Hb|].
  eapply bind_ok; [apply load_bi_ok; simpl; now apply list_lookup_insert_eq|].
  simpl. rewrite ?Hlast.
  eapply bind_ok; [eapply set_prev_ok; exact Hx|].
  eapply bind_ok; [apply load_bi_ok; simpl; now apply list_lookup_insert_eq|].
  simpl. rewrite ?Hlast.
  eapply bind_ok.
  { eapply set_next_ok. simpl.
    rewrite list_lookup_insert_ne by exact Hne. exact Ht. }
  eapply bind_ok.
  { eapply set_last_ok. simpl. now apply list_lookup_insert_eq. }
  simpl. unfold ret. now rewrite list_insert_insert_eq.
Qed.

(** The growth step shared by [IT_next_with_extend] and [add]: a new chunk
    is made, given one zero word, and appended. *)
Lemma grow_steps {A} C h a b t ct (k : ptr -> M A) :
  0 < C ->
  bigints h !! a = Some b -> bi_last b = Some t -> chunks h !! t = Some ct ->
  (chunk <- newChunk C ;;
   set_value chunk 0 0 ;;;
   c <- load chunk ;;
   set_length chunk (ch_length c + 1) ;;;
   append (Some a) chunk ;;;
   k chunk) h
  = k (Some (length (chunks h))) (grown C h a b t ct).
Proof.
  intros HC Hb Hlast Ht.
  pose proof (lookup_lt_Some _ _ _ Ht) as Htlt.
  assert (forall (c c0 : Chunk) (l : list Chunk),
            (<[length l := c]> (l ++ [c0])) !! length l = Some c) as Hn.
  { intros c c0 l. apply list_lookup_insert_eq. rewrite length_app. simpl. lia. }
  assert (forall (c c0 : Chunk) (l : list Chunk),
            <[length l := c]> (l ++ [c0]) = l ++ [c]) as Hins.
  { intros c c0 l. rewrite insert_app_r_alt by lia.
    now rewrite Nat.sub_diag. }
  eapply bind_ok; [reflexivity|].
  eapply bind_ok.
  { eapply set_value_ok; [apply list_lookup_middle; reflexivity|].
    simpl. rewrite length_replicate. lia. }
  simpl. rewrite insert_replicate, Hins.
  eapply bind_ok; [apply load_ok; apply list_lookup_middle; reflexivity|].
  eapply bind_ok;
    [eapply set_length_ok; apply list_lookup_middle; reflexivity|].
  simpl. rewrite Hins.
  eapply bind_ok.
  { eapply (append_ok _ a b t ct (length (chunks h))); simpl.
    - exact Hb.
    - exact Hlast.
    - rewrite lookup_app_l by exact Htlt. exact Ht.
    - apply list_lookup_middle. reflexivity.
    - lia. }
  simpl. unfold grown. do 2 f_equal.
  rewrite Hins. now rewrite insert_app_l by exact Htlt.
Qed.

Lemma grown_lookup_other C h a b t ct y :
  y <> t -> (y < length (chunks h))%nat ->
  chunks (grown C h a b t ct) !! y = chunks h !! y.
Proof.
  intros Hne Hlt. unfold grown. simpl.
  rewrite lookup_app_l by (rewrite length_insert; exact Hlt).
  now apply list_lookup_insert_ne.
Qed.

Lemma grown_lookup_last C h a b t ct :
  chunks h !! t = Some ct ->
  chunks (grown C h a b t ct) !! t
  = Some (mkChunk (ch_prev ct) (Some (length (chunks h))) (ch_length ct)
                  (ch_value ct)).
Proof.
  intros Ht. pose proof (lookup_lt_Some _ _ _ Ht) as Hlt. unfold grown. simpl.
  rewrite lookup_app_l by (rewrite length_insert; exact Hlt).
  now apply list_lookup_insert_eq.
Qed.

Lemma grown_lookup_new C h a b t ct :
  chunks (grown C h a b t ct) !! length (chunks h)
  = Some (mkChunk (Some t) NULL 1 (replicate (Z.to_nat C) 0)).
Proof.
  unfold grown. simpl. apply list_lookup_middle. now rewrite length_insert.
Qed.

Lemma grown_bigints_other C h a b t ct a' :
  a' <> a -> bigints (grown C h a b t ct) !! a' = bigints h !! a'.
Proof. intros Hne. unfold grown. simpl. now apply list_lookup_insert_ne. Qed.

Lemma grown_length C h a b t ct :
  length (chunks (grown C h a b t ct)) = S (length (chunks h)).
Proof. unfold grown. simpl. rewrite length_app, length_insert. simpl. lia. Qed.

(** Growing keeps the container invariant: the chain gets the new chunk
    as its last, the words get one zero word more, and the words that were
    there stay. *)
Lemma grown_container C h a b l t ct :
  0 < C ->
  container C h a l -> bigints h !! a = Some b -> last l = Some t ->
  chunks h !! t = Some ct ->
  container C (grown C h a b t ct) a (l ++ [length (chunks h)]) /\
  words (chunks (grown C h a b t ct)) (l ++ [length (chunks h)])
  = words (chunks h) l ++ [0] /\
  (forall y c, y ∈ l -> chunks h !! y = Some c ->
     exists c', chunks (grown C h a b t ct) !! y = Some c' /\
                ch_length c' = ch_length c /\ ch_value c' = ch_value c).
Proof.
  intros HC (b' & Hb' & Hl & Hne & Hlast & Hlen & Hok) Hb Hlt Ht.
  assert (b' = b) as -> by congruence.
  apply last_Some in Hlt as [l0 ->].
  pose proof (lseg_NoDup _ _ _ Hl) as Hnd.
  apply NoDup_app in Hnd as (_ & Hd & _).
  assert (forall y, y ∈ l0 -> y <> t) as Hd'.
  { intros y Hy ->. apply (Hd t Hy). left. }
  pose proof Hl as Hl'. apply lseg_app in Hl' as (m & Hl0 & Hlt).
  simpl in Hlt. destruct Hlt as (-> & ct' & Hct' & Hnext).
  assert (ct' = ct) as -> by congruence.
  set (h' := grown C h a b t ct). set (n := length (chunks h)).
  assert (forall y, y ∈ l0 -> chunks h' !! y = chunks h !! y) as Hsame.
  { intros y Hy. apply grown_lookup_other; [now apply Hd'|].
    eapply lseg_lt; [exact Hl0 | exact Hy]. }
  pose proof (grown_lookup_last C h a b t ct Ht) as Ht'. fold h' n in Ht'.
  pose proof (grown_lookup_new C h a b t ct) as Hn'. fold h' n in Hn'.
  apply chunks_ok_app in Hok as [Hok0 Hokt].
  apply chunks_ok_cons in Hokt as [(ct' & Hct'' & Hctok) _].
  assert (ct' = ct) as -> by congruence.
  split; [|split].
  - exists (mkBigInt (bi_first b) (Some n) (bi_parity b) (bi_length b + 1)).
    split.
    { unfold h', grown. simpl. apply list_lookup_insert_eq.
      eapply lookup_lt_Some; exact Hb. }
    simpl. split.
    { rewrite <- app_assoc. apply lseg_app. exists (Some t). split.
      - eapply lseg_ext; [|exact Hl0]. intros y Hy. now rewrite Hsame.
      - simpl. split; [reflexivity|]. eexists. split; [exact Ht'|]. simpl.
        split; [reflexivity|]. eexists. split; [exact Hn'|]. reflexivity. }
    split; [intros Heq; apply app_eq_nil in Heq as [_ ?]; discriminate|].
    split; [now rewrite last_snoc|]. split.
    { rewrite Hlen, !length_app. simpl. lia. }
    apply chunks_ok_app. split; [apply chunks_ok_app; split|].
    + eapply chunks_ok_ext; [|exact Hok0]. exact Hsame.
    + apply chunks_ok_cons. split; [|intros y Hy; inversion Hy].
      eexists. split; [exact Ht'|]. exact Hctok.
    + apply chunks_ok_cons. split; [|intros y Hy; inversion Hy].
      eexists. split; [exact Hn'|]. split; simpl; [lia|].
      rewrite length_replicate. lia.
  - rewrite !words_app, !words_singleton.
    rewrite (words_ext (chunks h) _ l0) by exact Hsame.
    rewrite (words_at_lookup _ _ _ Ht'), (words_at_lookup _ _ _ Hn'),
      (words_at_lookup _ _ _ Ht).
    unfold chunk_words. simpl. f_equal.
    rewrite take_replicate.
    replace (Z.to_nat 1 `min` Z.to_nat C)%nat with 1%nat by lia. reflexivity.
  - intros y c Hy Hc. apply elem_of_app in Hy as [Hy|Hy].
    + exists c. rewrite Hsame by exact Hy. auto.
    + apply list_elem_of_singleton in Hy as ->.
      assert (c = ct) as -> by congruence.
      eexists. split; [exact Ht'|]. auto.
Qed.

(** [IT_next_with_extend] always arrives at word [k + 1].  When word [k]
    was the last one, the container is grown by a new chunk behind its last
    chunk, whatever room that last chunk still had. *)
Lemma IT_next_with_extend_spec C h a l it k fuel :
  0 < C -> container C h a l -> it_obj it = Some a ->
  cursor (chunks h) l it k -> (length l < fuel)%nat ->
  exists it' h' l',
    IT_next_with_extend C fuel it h = Ok (it', h') /\
    it_obj it' = Some a /\
    container C h' a l' /\
    cursor (chunks h') l' it' (S k) /\
    words (chunks h') l' = grow (words (chunks h) l) k /\
    lengths_kept l (chunks h) (chunks h') /\
    ((S k < length (words (chunks h) l))%nat /\ h' = h /\ l' = l
     \/
     S k = length (words (chunks h) l) /\
     l' = l ++ [length (chunks h)] /\
     it' = mkIterator (Some a) (Some (length (chunks h))) 0 /\
     exists b t ct,
       bigints h !! a = Some b /\ last l = Some t /\
       chunks h !! t = Some ct /\ h' = grown C h a b t ct).
Proof.
  intros HC Hcont Hobj Hcur Hfuel.
  pose proof Hcont as (b & Hb & Hl & Hne & Hlast & Hlen & Hok).
  destruct (IT_next_spec C h l _ it k fuel Hl Hok Hcur Hfuel)
    as (r & it1 & Hnext & Hobj1 & [(Hlt & -> & Hcur1)|(Heq & -> & Hnull & Hidx)]).
  - exists it1, h, l. split.
    { unfold IT_next_with_extend. eapply bind_ok; [exact Hnext|]. reflexivity. }
    split; [congruence|]. split; [exact Hcont|]. split; [exact Hcur1|].
    split; [unfold grow; now rewrite decide_True by exact Hlt|].
    split; [apply lengths_kept_refl | left; auto].
  - destruct (last l) as [t|] eqn:Ht.
    2:{ apply last_None in Ht. contradiction. }
    assert (is_Some (chunks h !! t)) as [ct Hct].
    { eapply lseg_lookup; [exact Hl|]. eapply last_Some_elem_of. exact Ht. }
    destruct (grown_container C h a b l t ct HC Hcont Hb Ht Hct)
      as (Hcont' & Hwords' & Hkeep).
    exists (mkIterator (Some a) (Some (length (chunks h))) 0),
      (grown C h a b t ct), (l ++ [length (chunks h)]).
    split.
    { unfold IT_next_with_extend. eapply bind_ok; [exact Hnext|]. simpl.
      rewrite Hobj1, Hobj.
      eapply bind_ok; [apply load_bi_ok; exact Hb|]. simpl. rewrite Hlast.
      simpl. eapply bind_ok; [reflexivity|]. simpl.
      exact (grow_steps C h a b t ct
               (fun chunk => ret (mkIterator (Some a) chunk 0))
               HC Hb Hlast Hct). }
    split; [reflexivity|]. split; [exact Hcont'|].
    split.
    { exists l, (length (chunks h)), [],
        (mkChunk (Some t) NULL 1 (replicate (Z.to_nat C) 0)).
      split; [reflexivity|]. split; [reflexivity|].
      split; [apply grown_lookup_new|]. split; [simpl; lia|].
      cbn [it_index].
      rewrite (words_keep (chunks h) _ l Hkeep);
        [lia | intros y Hy; eapply lseg_lookup; eassumption]. }
    split.
    { rewrite Hwords'. unfold grow. rewrite decide_False by lia. reflexivity. }
    split.
    { intros y c Hy Hc. destruct (Hkeep y c Hy Hc) as (c' & Hc' & Hl' & _).
      exists c'. auto. }
    right. split; [exact Heq|]. split; [reflexivity|]. split; [reflexivity|].
    exists b, t, ct. auto.
Qed.

(** ** Opening an iterator *)

(** [iterate] stands at the first word, or finds the container without
    words. *)
Lemma iterate_spec C h a l fuel :
  container C h a l -> (length l < fuel)%nat ->
  exists it,
    iterate fuel (Some a) h = Ok (Some it, h) /\
    it_obj it = Some a /\ it_index it = 0 /\
    (cursor (chunks h) l it 0 \/
     it_chunk it = NULL /\ words (chunks h) l = []).
Proof.
  intros (b & Hb & Hl & Hne & Hlast & Hlen & Hok) Hfuel.
  destruct l as [|x l]; [contradiction|]. clear Hne.
  destruct Hl as (Hfirst & c & Hc & Hl).
  apply chunks_ok_cons in Hok as [(c' & Hc' & Hcok) Hok].
  assert (c' = c) as -> by congruence.
  destruct fuel as [|[|fuel]]; [simpl in Hfuel; lia..|].
  unfold iterate. simpl is_null. cbv iota.
  destruct (Z.eqb_spec (ch_length c) 0) as [Hz|Hnz].
  - destruct (IT_next_skip_spec C h l (ch_next c) (S (S fuel)) Hl Hok)
      as (q & Hskip & Hq); [simpl in Hfuel; lia|].
    exists (mkIterator (Some a) q 0).
    assert (words_at (chunks h) x = []) as Hx.
    { rewrite (words_at_lookup _ _ _ Hc). unfold chunk_words. now rewrite Hz. }
    split.
    { eapply bind_ok; [apply load_bi_ok; exact Hb|]. rewrite Hfirst.
      eapply bind_ok; [|reflexivity].
      erewrite while_true.
      - apply while_false. simpl.
        destruct Hq as [[-> _]|(e & y & r & d & _ & -> & _ & Hd & Hpos)];
          [reflexivity|]. simpl.
        eapply bind_ok; [apply load_ok; exact Hd|].
        unfold ret. do 2 f_equal. apply Z.eqb_neq. lia.
      - simpl. eapply bind_ok; [apply load_ok; exact Hc|].
        unfold ret. do 2 f_equal. now apply Z.eqb_eq.
      - assert (IT_next (S (S fuel)) (mkIterator (Some a) (Some x) 0) h
                = Ok ((negb (is_null q), mkIterator (Some a) q 0), h)) as Hn.
        { unfold IT_next. simpl.
          eapply bind_ok; [apply load_ok; exact Hc|].
          destruct (Z.leb_spec (ch_length c) (0 + 1)) as [_|?]; [|lia].
          eapply bind_ok;
            [eapply bind_ok; [apply load_ok; exact Hc|];
             eapply bind_ok; [exact Hskip | reflexivity]
            |].
          simpl. destruct q; reflexivity. }
        eapply bind_ok; [exact Hn | reflexivity]. }
    split; [reflexivity|]. split; [reflexivity|].
    destruct Hq as [[-> Hws]|(e & y & r & d & -> & -> & He & Hd & Hpos)].
    + right. split; [reflexivity|]. now rewrite words_cons, Hx, Hws.
    + left. exists (x :: e), y, r, d. split; [reflexivity|].
      split; [reflexivity|]. split; [exact Hd|]. split; [simpl; lia|].
      now rewrite words_cons, Hx, He.
  - exists (mkIterator (Some a) (Some x) 0). split.
    { eapply bind_ok; [apply load_bi_ok; exact Hb|]. rewrite Hfirst.
      eapply bind_ok; [|reflexivity].
      apply while_false. simpl.
      eapply bind_ok; [apply load_ok; exact Hc|].
      unfold ret. do 2 f_equal. now apply Z.eqb_neq. }
    split; [reflexivity|]. split; [reflexivity|]. left.
    exists [], x, l, c. split; [reflexivity|]. split; [reflexivity|].
    split; [exact Hc|]. simpl. destruct Hcok as [? _]. split; [lia|reflexivity].
Qed.

(** ** Frames *)

Lemma cursor_ext cs cs' l it k :
  (forall x, x ∈ l -> cs' !! x = cs !! x) ->
  cursor cs l it k -> cursor cs' l it k.
Proof.
  intros Hext (l1 & x & l2 & c & -> & Hit & Hc & Hi & ->).
  exists l1, x, l2, c. split; [reflexivity|]. split; [exact Hit|].
  split.
  { rewrite Hext; [exact Hc|]. apply elem_of_app. right. left. }
  split; [exact Hi|].
  rewrite (words_ext cs cs' l1); [reflexivity|].
  intros y Hy. apply Hext. apply elem_of_app. now left.
Qed.

Lemma untouched_refl h b lb : untouched h h b lb.
Proof. split; [reflexivity | intros; reflexivity]. Qed.

Lemma untouched_container C h0 h b lb :
  untouched h0 h b lb -> container C h0 b lb -> container C h b lb.
Proof.
  intros [Hbi Hch] (bb & Hb & Hl & Hne & Hlast & Hlen & Hok).
  exists bb. split; [now rewrite Hbi|]. split.
  { eapply lseg_ext; [|exact Hl]. intros x Hx. now rewrite Hch. }
  split; [exact Hne|]. split; [exact Hlast|]. split; [exact Hlen|].
  eapply chunks_ok_ext; [|exact Hok]. exact Hch.
Qed.

Lemma untouched_words h0 h b lb :
  untouched h0 h b lb -> words (chunks h) lb = words (chunks h0) lb.
Proof. intros [_ Hch]. now apply words_ext. Qed.

Lemma container_lt C h a l x :
  container C h a l -> x ∈ l -> (x < length (chunks h))%nat.
Proof.
  intros (b & _ & Hl & _) Hx. eapply lseg_lt; [exact Hl | exact Hx].
Qed.

(** Writing a word keeps the container. *)
Lemma container_same_shape C h h' a l :
  bigints h' = bigints h -> same_shape (chunks h) (chunks h') ->
  container C h a l -> container C h' a l.
Proof.
  intros Hbi Hs (b & Hb & Hl & Hne & Hlast & Hlen & Hok).
  exists b. rewrite Hbi. split; [exact Hb|].
  split; [eapply same_shape_lseg; eassumption|].
  split; [exact Hne|]. split; [exact Hlast|]. split; [exact Hlen|].
  eapply same_shape_chunks_ok; eassumption.
Qed.

(** ** The main loop of [add], on words *)

Lemma take_grow (W : list Z) j sum :
  (j < length W)%nat ->
  take (S j) (grow (<[j := sum]> W) j) = take j W ++ [sum].
Proof.
  intros Hj. unfold grow. rewrite length_insert.
  assert (take (S j) (<[j := sum]> W) = take j W ++ [sum]) as Ht.
  { rewrite (take_S_r _ _ sum) by now apply list_lookup_insert_eq.
    now rewrite take_insert_ge by lia. }
  destruct (decide (S j < length W)%nat) as [Hlt|Hge]; [exact Ht|].
  rewrite take_app_le by (rewrite length_insert; lia). exact Ht.
Qed.

Lemma drop_grow (W : list Z) j sum :
  (j < length W)%nat ->
  drop (S j) (grow (<[j := sum]> W) j) = extend (drop (S j) W).
Proof.
  intros Hj. unfold grow. rewrite length_insert.
  destruct (decide (S j < length W)%nat) as [Hlt|Hge].
  - rewrite drop_insert_lt by lia.
    destruct (drop (S j) W) eqn:Hd; [|reflexivity].
    apply (f_equal length) in Hd. rewrite length_drop in Hd. simpl in Hd. lia.
  - rewrite drop_app_length' by (rewrite length_insert; lia).
    now rewrite drop_ge by lia.
Qed.

Lemma grow_length (W : list Z) j :
  (length W <= length (grow W j) <= S (length W))%nat.
Proof.
  unfold grow. destruct (decide _); [lia|]. rewrite length_app. simpl. lia.
Qed.

(** One iteration of the main loop, seen from the words still to come. *)
Lemma add_main_words_step (W wb : list Z) j carry lv rv :
  W !! j = Some lv -> wb !! j = Some rv ->
  let W' := grow (<[j := (add_word carry lv rv).1]> W) j in
  let r := add_main_words carry (drop j W) (drop j wb) in
  let r' := add_main_words (add_word carry lv rv).2 (drop (S j) W')
                           (drop (S j) wb) in
  (take j W ++ r.1, r.2) = (take (S j) W' ++ r'.1, r'.2).
Proof.
  intros HW Hwb. pose proof (lookup_lt_Some _ _ _ HW) as Hj. cbv zeta.
  rewrite take_grow, drop_grow by exact Hj.
  rewrite (drop_S _ _ _ HW), (drop_S _ _ _ Hwb).
  cbn [add_main_words hd tl].
  destruct (add_word carry lv rv) as [sum carry']. cbn [fst snd].
  destruct (add_main_words carry' (extend (drop (S j) W)) (drop (S j) wb))
    as [ws c]. cbn [fst snd]. now rewrite <- app_assoc.
Qed.

(** ** The main loop of [add], on the heap *)

(** What one step on the accumulator [a] leaves of another container. *)
Lemma untouched_step C h0 h h' a b (la lb : list nat) t ct bb :
  a <> b -> container C h b lb -> untouched h0 h b lb ->
  t ∈ la -> (forall x, x ∈ la -> x ∉ lb) ->
  h' = grown C h a bb t ct ->
  untouched h0 h' b lb /\ length (chunks h) ∉ lb.
Proof.
  intros Hab Hcont [Hbi Hch] Ht Hdisj ->. split; [split|].
  - rewrite grown_bigints_other by congruence. exact Hbi.
  - intros y Hy. rewrite grown_lookup_other; [now apply Hch | |].
    + intros ->. now apply (Hdisj t Ht).
    + eapply container_lt; eassumption.
  - intros Hin. pose proof (container_lt _ _ _ _ _ Hcont Hin). lia.
Qed.

Lemma add_main_loop C h0 h1 a b la1 lb li ri fuel :
  0 < C -> a <> b ->
  container C h1 a la1 -> container C h0 b lb -> untouched h0 h1 b lb ->
  (forall x, x ∈ la1 -> x ∉ lb) ->
  it_obj li = Some a -> cursor (chunks h1) la1 li 0 ->
  (cursor (chunks h0) lb ri 0 \/
   it_chunk ri = NULL /\ words (chunks h0) lb = []) ->
  (length la1 + length (words (chunks h0) lb) + length lb < fuel)%nat ->
  exists carry li' ri' h2 la2,
    while fuel
      (fun '(carry, li, ri) => ret (negb (is_null (it_chunk ri))))
      (add_main_body C fuel) (0, li, ri) h1
    = Ok ((carry, li', ri'), h2) /\
    container C h2 a la2 /\ untouched h0 h2 b lb /\
    (forall x, x ∈ la2 -> x ∉ lb) /\
    it_obj li' = Some a /\
    cursor (chunks h2) la2 li' (length (words (chunks h0) lb)) /\
    (length la2 <= length la1 + length (words (chunks h0) lb))%nat /\
    (exists extra, la2 = la1 ++ extra) /\
    lengths_kept la1 (chunks h1) (chunks h2) /\
    (carry = 0 \/ carry = 1) /\
    (words (chunks h2) la2, carry)
    = add_main_words 0 (words (chunks h1) la1) (words (chunks h0) lb).
Proof.
  intros HC Hab Hcont1 Hcontb Hunt1 Hdisj1 Hobj1 Hcur1 Hri1 Hfuel.
  set (wb := words (chunks h0) lb) in *.
  set (final := add_main_words 0 (words (chunks h1) la1) wb).
  pose (Inv := fun (n : nat) (s : Z * Iterator * Iterator) (h : heap) =>
    let '(carry, li, ri) := s in
    exists la' j,
      n = (length wb - j)%nat /\ (j <= length wb)%nat /\
      container C h a la' /\ untouched h0 h b lb /\
      (forall x, x ∈ la' -> x ∉ lb) /\
      it_obj li = Some a /\ cursor (chunks h) la' li j /\
      (length la' + n <= length la1 + length wb)%nat /\
      ((j < length wb)%nat /\ cursor (chunks h0) lb ri j \/
       j = length wb /\ it_chunk ri = NULL) /\
      (exists extra, la' = la1 ++ extra) /\
      lengths_kept la1 (chunks h1) (chunks h) /\
      (carry = 0 \/ carry = 1) /\
      let W := words (chunks h) la' in
      let r := add_main_words carry (drop j W) (drop j wb) in
      (take j W ++ r.1, r.2) = final).
  assert (Inv (length wb) (0, li, ri) h1) as HI1.
  { exists la1, 0%nat. split; [lia|]. split; [lia|]. split; [exact Hcont1|].
    split; [exact Hunt1|]. split; [exact Hdisj1|]. split; [exact Hobj1|].
    split; [exact Hcur1|]. split; [lia|]. split.
    - destruct Hri1 as [Hc|[Hn Hw]].
      + left. split; [|exact Hc].
        destruct Hcontb as (_ & _ & _ & _ & _ & _ & Hokb).
        pose proof (cursor_lt _ _ _ _ _ Hokb Hc). exact H.
      + right. split; [|exact Hn]. now rewrite Hw.
    - split; [exists []; now rewrite app_nil_r|].
      split; [apply lengths_kept_refl|]. split; [now left|].
      cbv zeta. rewrite !drop_0. simpl take. simpl app.
      unfold final. now destruct (add_main_words _ _ _). }
  destruct (while_total Inv
              (fun '(carry, li, ri) => ret (negb (is_null (it_chunk ri))))
              (add_main_body C fuel)) with (fuel := fuel) (n := length wb)
              (s := (0, li, ri)) (h := h1)
    as (n' & [[carry li'] ri'] & h2 & Hwhile & HI2 & Hcond2);
    [|exact HI1|lia|].
  - (* one iteration *)
    clear HI1. intros n [[carry li0] ri0] h (la' & j & -> & Hj & Hcont & Hunt &
      Hdisj & Hobj & Hcur & Hlen & Hri & [extra ->] & Hkept & Hc01 & Hfun).
    exists (negb (is_null (it_chunk ri0))). split; [reflexivity|].
    intros Hb. destruct Hri as [[Hjlt Hcri]|[_ Hnull]];
      [|rewrite Hnull in Hb; discriminate].
    pose proof Hcont as (ba & Hba & Hla & _ & _ & _ & Hok).
    set (la' := la1 ++ extra) in *.
    pose proof (lseg_NoDup _ _ _ Hla) as Hnd.
    pose proof (untouched_container _ _ _ _ _ Hunt Hcontb) as Hcb.
    pose proof Hcb as (bb & Hbb & Hlb & _ & _ & _ & Hokb).
    assert (cursor (chunks h) lb ri0 j) as Hcri'.
    { eapply cursor_ext; [|exact Hcri]. apply Hunt. }
    destruct (IT_get_spec _ _ _ _ _ Hok Hcur) as (lv & Hgl & HWj).
    destruct (IT_get_spec _ _ _ _ _ Hokb Hcri') as (rv & Hgr & Hwbj).
    rewrite (untouched_words _ _ _ _ Hunt) in Hwbj. fold wb in Hwbj.
    destruct (add_word carry lv rv) as [sum carry'] eqn:Haw.
    destruct (IT_set_spec _ _ _ _ _ sum Hok Hnd Hcur)
      as (x & h' & Hx & Hxin & Hset & Hbi' & Hshape & Hother & Hw').
    pose proof (container_same_shape _ _ _ _ _ Hbi' Hshape Hcont) as Hcont'.
    pose proof (same_shape_cursor _ _ _ _ _ _ Hshape Hok Hcur) as Hcur'.
    assert (untouched h0 h' b lb) as Hunt'.
    { destruct Hunt as [Hu1 Hu2]. split; [now rewrite Hbi'|].
      intros y Hy. rewrite Hother; [now apply Hu2|].
      intros ->. now apply (Hdisj x Hxin). }
    destruct (IT_next_with_extend_spec C h' a la' li0 j fuel HC Hcont' Hobj Hcur')
      as (li1 & h'' & la'' & Hext & Hobj1' & Hcont'' & Hcur'' & Hw'' &
          Hkept'' & Hcase);
      [lia|].
    pose proof (untouched_container _ _ _ _ _ Hunt' Hcontb) as Hcb'.
    assert (untouched h0 h'' b lb /\ (forall y, y ∈ la'' -> y ∉ lb) /\
            (length la'' <= S (length la'))%nat /\
            exists extra', la'' = la1 ++ extra')
      as (Hunt'' & Hdisj'' & Hlen'' & Hpre'').
    { destruct Hcase as [(_ & -> & ->)|(_ & -> & _ & b0 & t & ct & Hb0 & Ht & Hct & Hh'')].
      - split; [exact Hunt'|]. split; [exact Hdisj|]. split; [lia|].
        now exists extra.
      - destruct (untouched_step C h0 h' h'' a b la' lb t ct b0 Hab Hcb' Hunt')
          as [Hu Hn]; [eapply last_Some_elem_of; exact Ht | exact Hdisj
                      | exact Hh'' |].
        split; [exact Hu|]. split.
        + intros y Hy. apply elem_of_app in Hy as [Hy|Hy]; [now apply Hdisj|].
          apply list_elem_of_singleton in Hy as ->. exact Hn.
        + split; [rewrite length_app; simpl; lia|].
          exists (extra ++ [length (chunks h')]). unfold la'.
          now rewrite app_assoc. }
    pose proof (untouched_container _ _ _ _ _ Hunt'' Hcontb) as Hcb''.
    pose proof Hcb'' as (bb'' & Hbb'' & Hlb'' & _ & _ & _ & Hokb'').
    assert (cursor (chunks h'') lb ri0 j) as Hcri''.
    { eapply cursor_ext; [|exact Hcri]. apply Hunt''. }
    destruct (IT_next_spec C h'' lb _ ri0 j fuel Hlb'' Hokb'' Hcri'')
      as (r & ri1 & Hnext & _ & Hcase'); [lia|].
    rewrite (untouched_words _ _ _ _ Hunt'') in Hcase'. fold wb in Hcase'.
    exists (length wb - S j)%nat, (carry', li1, ri1), h''. split.
    { unfold add_main_body.
      eapply bind_ok; [exact Hgl|]. eapply bind_ok; [exact Hgr|].
      rewrite Haw.
      eapply bind_ok; [exact Hset|]. eapply bind_ok; [exact Hext|].
      eapply bind_ok; [exact Hnext|]. reflexivity. }
    split; [|lia].
    exists la'', (S j). split; [reflexivity|]. split; [lia|].
    split; [exact Hcont''|]. split; [exact Hunt''|]. split; [exact Hdisj''|].
    split; [exact Hobj1'|]. split; [exact Hcur''|]. split; [lia|]. split.
    { destruct Hcase' as [(Hlt & _ & Hc)|(Heq & _ & Hn & _)].
      - left. split; [exact Hlt|]. eapply cursor_ext; [|exact Hc].
        intros y Hy. symmetry. now apply Hunt''.
      - right. split; [exact Heq | exact Hn]. }
    split; [exact Hpre''|]. split.
    { eapply lengths_kept_trans; [exact Hkept|].
      eapply lengths_kept_trans;
        [apply same_shape_lengths_kept; exact Hshape|].
      eapply lengths_kept_app_l. exact Hkept''. }
    split.
    { unfold add_word in Haw. injection Haw as _ <-.
      destruct (_ || _); auto. }
    cbv zeta in Hfun |- *. rewrite <- Hfun, Hw'', Hw'.
    pose proof (add_main_words_step (words (chunks h) la') wb j carry lv rv
                  HWj Hwbj) as Hstep.
    cbv zeta in Hstep. rewrite Haw in Hstep. cbn [fst snd] in Hstep.
    symmetry. exact Hstep.
  - (* after the loop *)
    destruct HI2 as (la2 & j & -> & Hj & Hcont & Hunt & Hdisj & Hobj & Hcur &
      Hlen & Hri & Hpre & Hkept & Hc01 & Hfun).
    assert (j = length wb) as ->.
    { destruct Hri as [[Hlt Hc]|[? _]]; [|assumption].
      destruct Hc as (_ & y & _ & _ & _ & Hy & _). simpl in Hcond2.
      rewrite Hy in Hcond2. discriminate. }
    exists carry, li', ri', h2, la2. split; [exact Hwhile|].
    split; [exact Hcont|]. split; [exact Hunt|]. split; [exact Hdisj|].
    split; [exact Hobj|]. split; [exact Hcur|]. split; [lia|].
    split; [exact Hpre|]. split; [exact Hkept|]. split; [exact Hc01|].
    cbv zeta in Hfun. rewrite drop_all in Hfun. simpl in Hfun.
    now rewrite take_drop in Hfun.
Qed.

(** ** The carry loop of [add] *)

Lemma add_carry_words_extend r :
  add_carry_words (extend r) = add_carry_words r.
Proof. destruct r; reflexivity. Qed.

Lemma grow_lookup_S (W : list Z) k w :
  (k < length W)%nat -> grow W k !! S k = Some w ->
  (S k < length W)%nat /\ length (grow W k) = length W \/
  S k = length W /\ w = 0 /\ length (grow W k) = S (length W).
Proof.
  intros Hk. unfold grow. destruct (decide (S k < length W)%nat) as [Hlt|Hge].
  - intros _. left. auto.
  - intros Hw. right. assert (S k = length W) as Heq by lia.
    split; [exact Heq|]. rewrite length_app. simpl. split; [|lia].
    rewrite Heq in Hw. rewrite list_lookup_middle in Hw by reflexivity.
    congruence.
Qed.

Lemma add_carry_loop C h0 h2 a b la2 lb li carry k fuel :
  0 < C -> a <> b -> carry = 0 \/ carry = 1 ->
  container C h2 a la2 -> container C h0 b lb -> untouched h0 h2 b lb ->
  (forall x, x ∈ la2 -> x ∉ lb) ->
  it_obj li = Some a -> cursor (chunks h2) la2 li k ->
  (length la2 + 2 * length (words (chunks h2) la2) + 1 < fuel)%nat ->
  exists carry' li' h3 la3,
    while fuel
      (fun '(carry, li) => ret (negb (carry =? 0)))
      (add_carry_body C fuel) (carry, li) h2
    = Ok ((carry', li'), h3) /\
    container C h3 a la3 /\ untouched h0 h3 b lb /\
    (exists extra, la3 = la2 ++ extra) /\
    lengths_kept la2 (chunks h2) (chunks h3) /\
    words (chunks h3) la3
    = if carry =? 0 then words (chunks h2) la2
      else take k (words (chunks h2) la2)
           ++ add_carry_words (drop k (words (chunks h2) la2)).
Proof.
  intros HC Hab Hcarry Hcont2 Hcontb Hunt2 Hdisj2 Hobj2 Hcur2 Hfuel.
  set (W2 := words (chunks h2) la2) in *.
  set (final := if carry =? 0 then W2
                else take k W2 ++ add_carry_words (drop k W2)).
  pose (Inv := fun (n : nat) (s : Z * Iterator) (h : heap) =>
    let '(carry, li) := s in
    exists la' k',
      container C h a la' /\ untouched h0 h b lb /\
      (forall x, x ∈ la' -> x ∉ lb) /\
      it_obj li = Some a /\ cursor (chunks h) la' li k' /\
      (length la' + n <= length la2 + 2 * length W2 + 1)%nat /\
      (exists extra, la' = la2 ++ extra) /\
      lengths_kept la2 (chunks h2) (chunks h) /\
      let W := words (chunks h) la' in
      (carry = 0 /\ n = 0%nat /\ W = final \/
       carry = 1 /\ exists w,
         W !! k' = Some w /\
         n = (if 0 <? uadd 1 w then 1%nat
              else (2 * (length W - k') + 1)%nat) /\
         take k' W ++ add_carry_words (drop k' W) = final)).
  pose proof Hcont2 as (_ & _ & _ & _ & _ & _ & Hok2).
  pose proof (cursor_lt _ _ _ _ _ Hok2 Hcur2) as Hk2. fold W2 in Hk2.
  destruct (lookup_lt_is_Some_2 W2 k Hk2) as [w2 Hw2].
  set (n0 := if carry =? 0 then 0%nat
             else if 0 <? uadd 1 w2 then 1%nat
                  else (2 * (length W2 - k) + 1)%nat).
  assert (n0 <= 2 * length W2 + 1)%nat as Hn0.
  { unfold n0. destruct (carry =? 0); [lia|].
    destruct (0 <? uadd 1 w2); lia. }
  assert (Inv n0 (carry, li) h2) as HI.
  { exists la2, k. split; [exact Hcont2|]. split; [exact Hunt2|].
    split; [exact Hdisj2|]. split; [exact Hobj2|]. split; [exact Hcur2|].
    split; [lia|]. split; [exists []; now rewrite app_nil_r|].
    split; [apply lengths_kept_refl|]. cbv zeta. fold W2. unfold n0, final.
    destruct Hcarry as [->| ->]; [left; auto|]. right. split; [reflexivity|].
    exists w2. auto. }
  destruct (while_total Inv
              (fun '(carry, li) => ret (negb (carry =? 0)))
              (add_carry_body C fuel)) with (fuel := fuel) (n := n0)
              (s := (carry, li)) (h := h2)
    as (n' & [carry' li'] & h3 & Hwhile & HI3 & Hcond3); [|exact HI|lia|].
  - clear HI. intros n [c li0] h (la' & k' & Hcont & Hunt & Hdisj & Hobj &
      Hcur & Hlen & [extra ->] & Hkept & Hfun). cbv zeta in Hfun.
    exists (negb (c =? 0)). split; [reflexivity|]. intros Hb.
    destruct Hfun as [(-> & _)|(-> & w & HWk & -> & Hfin)];
      [discriminate|].
    pose proof Hcont as (ba & Hba & Hla & _ & _ & _ & Hok).
    set (la' := la2 ++ extra) in *.
    pose proof (lseg_NoDup _ _ _ Hla) as Hnd.
    pose proof (untouched_container _ _ _ _ _ Hunt Hcontb) as Hcb.
    pose proof (lookup_lt_Some _ _ _ HWk) as Hklt.
    destruct (IT_get_spec _ _ _ _ _ Hok Hcur) as (lv & Hgl & HWk').
    assert (lv = w) as -> by congruence.
    set (sum := uadd 1 w) in *.
    destruct (IT_set_spec _ _ _ _ _ sum Hok Hnd Hcur)
      as (x & h' & Hx & Hxin & Hset & Hbi' & Hshape & Hother & Hw').
    pose proof (container_same_shape _ _ _ _ _ Hbi' Hshape Hcont) as Hcont'.
    pose proof (same_shape_cursor _ _ _ _ _ _ Hshape Hok Hcur) as Hcur'.
    assert (untouched h0 h' b lb) as Hunt'.
    { destruct Hunt as [Hu1 Hu2]. split; [now rewrite Hbi'|].
      intros y Hy. rewrite Hother; [now apply Hu2|].
      intros ->. now apply (Hdisj x Hxin). }
    rewrite (drop_S _ _ _ HWk) in Hfin. cbn [add_carry_words] in Hfin.
    fold sum in Hfin.
    destruct (0 <? sum) eqn:Hpos.
    + exists 0%nat, (0, li0), h'. split.
      { unfold add_carry_body. eapply bind_ok; [exact Hgl|]. fold sum.
        eapply bind_ok; [exact Hset|]. now rewrite Hpos. }
      split; [|lia].
      exists la', k'. split; [exact Hcont'|]. split; [exact Hunt'|].
      split; [exact Hdisj|]. split; [exact Hobj|]. split; [exact Hcur'|].
      split; [lia|]. split; [now exists extra|]. split.
      { eapply lengths_kept_trans; [exact Hkept|].
        apply same_shape_lengths_kept; exact Hshape. }
      cbv zeta. left. split; [reflexivity|].
      split; [reflexivity|]. rewrite Hw', <- Hfin.
      now apply insert_take_drop.
    + destruct (IT_next_with_extend_spec C h' a la' li0 k' fuel HC Hcont' Hobj
                  Hcur')
        as (li1 & h'' & la'' & Hext & Hobj1 & Hcont'' & Hcur'' & Hw'' &
            Hkept'' & Hcase);
        [lia|].
      pose proof (untouched_container _ _ _ _ _ Hunt' Hcontb) as Hcb'.
      assert (untouched h0 h'' b lb /\ (forall y, y ∈ la'' -> y ∉ lb) /\
              (length la'' <= S (length la'))%nat /\
              exists extra', la'' = la2 ++ extra')
        as (Hunt'' & Hdisj'' & Hlen'' & Hpre'').
      { destruct Hcase as [(_ & -> & ->)
                          |(_ & -> & _ & b0 & t & ct & Hb0 & Ht & Hct & Hh'')].
        - split; [exact Hunt'|]. split; [exact Hdisj|]. split; [lia|].
          now exists extra.
        - destruct (untouched_step C h0 h' h'' a b la' lb t ct b0 Hab Hcb'
                      Hunt')
            as [Hu Hn]; [eapply last_Some_elem_of; exact Ht | exact Hdisj
                        | exact Hh'' |].
          split; [exact Hu|]. split.
          + intros y Hy. apply elem_of_app in Hy as [Hy|Hy];
              [now apply Hdisj|].
            apply list_elem_of_singleton in Hy as ->. exact Hn.
          + split; [rewrite length_app; simpl; lia|].
            exists (extra ++ [length (chunks h')]). unfold la'.
            now rewrite app_assoc. }
      pose proof Hcont'' as (_ & _ & _ & _ & _ & _ & Hok'').
      pose proof (cursor_lt _ _ _ _ _ Hok'' Hcur'') as Hk''.
      destruct (lookup_lt_is_Some_2 _ _ Hk'') as [w' Hw'k].
      set (W := words (chunks h) la') in *.
      set (W'' := words (chunks h'') la'') in *.
      assert (length (<[k' := sum]> W) = length W) as Hlen' by apply length_insert.
      pose proof Hw'k as Hg. rewrite Hw'', Hw' in Hg.
      apply grow_lookup_S in Hg; [|lia].
      rewrite <- Hw', <- Hw'' in Hg. rewrite Hw' in Hg. rewrite Hlen' in Hg.
      set (n' := if 0 <? uadd 1 w' then 1%nat
                 else (2 * (length W'' - S k') + 1)%nat).
      assert (n' < 2 * (length W - k') + 1)%nat as Hn'.
      { unfold n'. destruct Hg as [[Hlt Hl]|(Heq & -> & Hl)].
        - destruct (0 <? uadd 1 w'); lia.
        - change (0 <? uadd 1 0) with true. cbv iota. lia. }
      exists n', (1, li1), h''. split.
      { unfold add_carry_body. eapply bind_ok; [exact Hgl|]. fold sum.
        eapply bind_ok; [exact Hset|]. rewrite Hpos.
        eapply bind_ok; [exact Hext | reflexivity]. }
      split; [|exact Hn'].
      exists la'', (S k'). split; [exact Hcont''|]. split; [exact Hunt''|].
      split; [exact Hdisj''|]. split; [exact Hobj1|]. split; [exact Hcur''|].
      split; [lia|]. split; [exact Hpre''|]. split.
      { eapply lengths_kept_trans; [exact Hkept|].
        eapply lengths_kept_trans;
          [apply same_shape_lengths_kept; exact Hshape|].
        eapply lengths_kept_app_l. exact Hkept''. }
      cbv zeta. right. split; [reflexivity|].
      exists w'. split; [exact Hw'k|]. split; [reflexivity|].
      fold W''. rewrite Hw'', Hw'.
      rewrite take_grow, drop_grow by lia.
      rewrite add_carry_words_extend, <- Hfin, <- app_assoc. reflexivity.
  - destruct HI3 as (la3 & k3 & Hcont & Hunt & _ & _ & _ & _ & Hpre & Hkept &
      Hfun).
    cbv zeta in Hfun. simpl in Hcond3.
    destruct Hfun as [(-> & _ & Hfin)|(-> & _)]; [|discriminate].
    exists 0, li', h3, la3. split; [exact Hwhile|]. split; [exact Hcont|].
    split; [exact Hunt|]. split; [exact Hpre|]. split; [exact Hkept|].
    exact Hfin.
Qed.

(** ** [add] on two containers that share nothing *)

Lemma add_main_words_length carry wa wb :
  (length (add_main_words carry wa wb).1 <= length wa + 2 * length wb)%nat.
Proof.
  revert carry wa. induction wb as [|rv wb IH]; intros carry wa;
    cbn [add_main_words]; [simpl; lia|].
  destruct (add_word carry (hd 0 wa) rv) as [sum carry'].
  specialize (IH carry' (extend (tl wa))).
  destruct (add_main_words carry' (extend (tl wa)) wb) as [ws c].
  cbn [fst length] in *. destruct wa as [|w [|w' wa]]; simpl in *; lia.
Qed.

(** The fuel that is enough for [add] on words [wa] and [wb] held in
    chains [la] and [lb]. *)
Lemma add_spec C h a b la lb :
  0 < C -> a <> b ->
  container C h a la -> container C h b lb ->
  (forall x, x ∈ la -> x ∉ lb) ->
  forall fuel,
    (length la + length lb + 2 * length (words (chunks h) la)
     + 5 * length (words (chunks h) lb) + 5 <= fuel)%nat ->
    exists h' extra,
      add C fuel (Some a) (Some b) h = Ok (Some a, h') /\
      container C h' a (la ++ extra) /\
      container C h' b lb /\
      words (chunks h') lb = words (chunks h) lb /\
      lengths_kept la (chunks h) (chunks h') /\
      words (chunks h') (la ++ extra)
      = add_words (words (chunks h) la) (words (chunks h) lb).
Proof.
  intros HC Hab Hca Hcb Hdisj fuel Hfuel.
  set (wa := words (chunks h) la) in *. set (wb := words (chunks h) lb) in *.
  destruct (iterate_spec C h a la fuel Hca) as (li & Hita & Hobj & Hidx & Hli);
    [lia|].
  destruct (iterate_spec C h b lb fuel Hcb) as (ri & Hitb & _ & _ & Hri);
    [lia|].
  (* the accumulator gets a word to stand on *)
  assert (exists h1 la1 li1,
    (if is_null (it_chunk li) then
       chunk <- newChunk C ;;
       let li := mkIterator (it_obj li) chunk (it_index li) in
       set_value (it_chunk li) 0 0 ;;;
       c <- load (it_chunk li) ;;
       set_length (it_chunk li) (ch_length c + 1) ;;;
       append (Some a) (it_chunk li) ;;;
       ret li
     else ret li) h = Ok (li1, h1) /\
    container C h1 a la1 /\ untouched h h1 b lb /\
    (forall x, x ∈ la1 -> x ∉ lb) /\
    it_obj li1 = Some a /\ cursor (chunks h1) la1 li1 0 /\
    (exists e, la1 = la ++ e) /\ (length la1 <= S (length la))%nat /\
    lengths_kept la (chunks h) (chunks h1) /\
    words (chunks h1) la1 = extend wa) as
    (h1 & la1 & li1 & Hphase & Hca1 & Hunt1 & Hdisj1 & Hobj1 & Hcur1 &
     [e1 He1] & Hlen1 & Hkept1 & Hw1).
  { destruct Hli as [Hcur|[Hnull Hempty]].
    - exists h, la, li.
      pose proof Hcur as (_ & x & _ & _ & _ & Hx & _). rewrite Hx. simpl.
      split; [reflexivity|]. split; [exact Hca|].
      split; [apply untouched_refl|]. split; [exact Hdisj|].
      split; [exact Hobj|]. split; [exact Hcur|].
      split; [exists []; now rewrite app_nil_r|]. split; [lia|].
      split; [apply lengths_kept_refl|].
      pose proof Hca as (_ & _ & _ & _ & _ & _ & Hok).
      pose proof (cursor_lt _ _ _ _ _ Hok Hcur) as Hlt. fold wa in Hlt.
      change (wa = extend wa). clearbody wa.
      destruct wa; [simpl in Hlt; lia | reflexivity].
    - pose proof Hca as (ba & Hba & Hla & Hne & Hlast & _ & Hok).
      destruct (last la) as [t|] eqn:Ht.
      2:{ apply last_None in Ht. contradiction. }
      assert (is_Some (chunks h !! t)) as [ct Hct].
      { eapply lseg_lookup; [exact Hla|]. eapply last_Some_elem_of. exact Ht. }
      destruct (grown_container C h a ba la t ct HC Hca Hba Ht Hct)
        as (Hcont' & Hwords' & Hkeep).
      destruct (untouched_step C h h (grown C h a ba t ct) a b la lb t ct ba
                  Hab Hcb (untouched_refl _ _ _))
        as [Hu Hn]; [eapply last_Some_elem_of; exact Ht | exact Hdisj
                    | reflexivity |].
      exists (grown C h a ba t ct), (la ++ [length (chunks h)]),
        (mkIterator (Some a) (Some (length (chunks h))) 0).
      rewrite Hnull. cbn [is_null]. split.
      { rewrite Hobj, Hidx.
        exact (grow_steps C h a ba t ct
                 (fun chunk => ret (mkIterator (Some a) chunk 0))
                 HC Hba Hlast Hct). }
      split; [exact Hcont'|]. split; [exact Hu|]. split.
      { intros y Hy. apply elem_of_app in Hy as [Hy|Hy]; [now apply Hdisj|].
        apply list_elem_of_singleton in Hy as ->. exact Hn. }
      split; [reflexivity|]. split.
      { exists la, (length (chunks h)), [],
          (mkChunk (Some t) NULL 1 (replicate (Z.to_nat C) 0)).
        split; [reflexivity|]. split; [reflexivity|].
        split; [apply grown_lookup_new|]. split; [simpl; lia|].
        cbn [it_index].
        rewrite (words_keep (chunks h) _ la Hkeep);
          [rewrite Hempty; reflexivity
          | intros y Hy; eapply lseg_lookup; eassumption]. }
      split; [now eexists|]. split; [rewrite length_app; simpl; lia|].
      split.
      { intros y c Hy Hc. destruct (Hkeep y c Hy Hc) as (c' & Hc' & Hl' & _).
        exists c'. auto. }
      rewrite Hwords'. unfold wa. now rewrite Hempty. }
  assert (length (words (chunks h1) la1) <= S (length wa))%nat as Hlw1.
  { rewrite Hw1. destruct wa; simpl; lia. }
  destruct (add_main_loop C h h1 a b la1 lb li1 ri fuel HC Hab Hca1 Hcb Hunt1
              Hdisj1 Hobj1 Hcur1 Hri)
    as (carry & li2 & ri2 & h2 & la2 & Hmain & Hca2 & Hunt2 & Hdisj2 & Hobj2 &
        Hcur2 & Hlen2 & [e2 He2] & Hkept2 & Hc01 & Hfun2);
    [fold wb; lia|].
  fold wb in Hcur2, Hlen2, Hfun2.
  assert (length (words (chunks h2) la2) <= S (length wa) + 2 * length wb)%nat
    as Hlw2.
  { pose proof (add_main_words_length 0 (words (chunks h1) la1) wb) as Hl.
    rewrite <- Hfun2 in Hl. simpl in Hl. lia. }
  destruct (add_carry_loop C h h2 a b la2 lb li2 carry (length wb) fuel HC Hab
              Hc01 Hca2 Hcb Hunt2 Hdisj2 Hobj2 Hcur2)
    as (carry3 & li3 & h3 & la3 & Hcarry & Hca3 & Hunt3 & [e3 He3] & Hkept3 &
        Hw3); [lia|].
  exists h3, (e1 ++ e2 ++ e3).
  assert (la3 = la ++ e1 ++ e2 ++ e3) as Hla3.
  { rewrite He3, He2, He1. now rewrite <- !app_assoc. }
  rewrite <- Hla3. split.
  { unfold add. simpl.
    eapply bind_ok; [exact Hita|]. eapply bind_ok; [exact Hitb|].
    eapply bind_ok; [exact Hphase|]. eapply bind_ok; [exact Hmain|].
    eapply bind_ok; [exact Hcarry | reflexivity]. }
  split; [exact Hca3|].
  split; [eapply untouched_container; eassumption|].
  split; [exact (untouched_words _ _ _ _ Hunt3)|]. split.
  { eapply lengths_kept_trans; [exact Hkept1|].
    eapply lengths_kept_trans.
    - eapply lengths_kept_app_l. rewrite <- He1. exact Hkept2.
    - eapply lengths_kept_app_l. rewrite app_assoc, <- He1, <- He2.
      exact Hkept3. }
  rewrite Hw3. unfold add_words. fold wa wb. rewrite <- Hw1, <- Hfun2.
  reflexivity.
Qed.

(** ** Advancing where no chunk is empty *)

Lemma IT_next_skip_stop fuel h p :
  (p = NULL \/
   exists x c, p = Some x /\ chunks h !! x = Some c /\ ch_length c <> 0) ->
  while (S fuel)
    (fun chunk =>
       if is_null chunk then ret false
       else c <- load chunk ;; ret (ch_length c =? 0))
    (fun chunk => c <- load chunk ;; ret (ch_next c))
    p h = Ok (p, h).
Proof.
  intros [->|(x & c & -> & Hc & Hne)]; apply while_false; simpl;
    [reflexivity|].
  eapply bind_ok; [apply load_ok; exact Hc|].
  unfold ret. do 2 f_equal. now apply Z.eqb_neq.
Qed.

(** From the last word of a chunk, [IT_next] steps to the next chunk when
    that one holds a word, and to NULL when there is none. *)
Lemma IT_next_dense fuel h a x c i :
  chunks h !! x = Some c -> ch_length c <= i + 1 ->
  (ch_next c = NULL \/
   exists y d, ch_next c = Some y /\ chunks h !! y = Some d /\
               ch_length d <> 0) ->
  IT_next (S fuel) (mkIterator a (Some x) i) h
  = Ok ((negb (is_null (ch_next c)), mkIterator a (ch_next c) 0), h).
Proof.
  intros Hc Hi Hn. unfold IT_next. cbn [it_chunk it_index it_obj is_null].
  eapply bind_ok; [apply load_ok; exact Hc|].
  destruct (Z.leb_spec (ch_length c) (i + 1)) as [_|?]; [|lia].
  eapply bind_ok.
  { eapply bind_ok; [apply load_ok; exact Hc|].
    eapply bind_ok; [apply IT_next_skip_stop; exact Hn | reflexivity]. }
  cbn [it_chunk]. destruct (ch_next c); reflexivity.
Qed.

(** ** [add] of a container to itself *)

(** With both iterators on the last chunk of the same chain, an iteration
    of the main loop grows the chain and leaves both on the new last
    chunk. *)
Lemma add_main_body_alias C fuel h a b t ct carry :
  0 < C ->
  bigints h !! a = Some b -> bi_last b = Some t ->
  chunks h !! t = Some ct -> ch_length ct = 1 -> ch_next ct = NULL ->
  (0 < length (ch_value ct))%nat ->
  let it := mkIterator (Some a) (Some t) 0 in
  exists carry' h' b' ct',
    let it' := mkIterator (Some a) (Some (length (chunks h))) 0 in
    add_main_body C (S fuel) (carry, it, it) h = Ok ((carry', it', it'), h') /\
    bigints h' !! a = Some b' /\ bi_last b' = Some (length (chunks h)) /\
    chunks h' !! length (chunks h) = Some ct' /\
    ch_length ct' = 1 /\ ch_next ct' = NULL /\
    (0 < length (ch_value ct'))%nat /\
    length (chunks h') = S (length (chunks h)).
Proof.
  intros HC Hb Hlast Ht Hlen Hnext Hval it.
  destruct (lookup_lt_is_Some_2 (ch_value ct) 0 Hval) as [v Hv].
  pose proof (lookup_lt_Some _ _ _ Ht) as Htlt.
  destruct (add_word carry v v) as [sum carry'] eqn:Haw.
  set (ct1 := mkChunk (ch_prev ct) (ch_next ct) (ch_length ct)
                      (<[Z.to_nat 0 := sum]> (ch_value ct))).
  set (h1 := mkHeap (<[t := ct1]> (chunks h)) (bigints h)).
  assert (chunks h1 !! t = Some ct1) as Ht1
    by (apply list_lookup_insert_eq; exact Htlt).
  assert (length (chunks h1) = length (chunks h)) as Hlen1
    by apply length_insert.
  set (h2 := grown C h1 a b t ct1).
  exists carry', h2,
    (mkBigInt (bi_first b) (Some (length (chunks h))) (bi_parity b)
              (bi_length b + 1)),
    (mkChunk (Some t) NULL 1 (replicate (Z.to_nat C) 0)).
  cbv zeta. split.
  { unfold add_main_body.
    assert (IT_get it h = Ok (v, h)) as Hget.
    { unfold IT_get, it. simpl. eapply get_value_ok; [exact Ht | lia | exact Hv]. }
    eapply bind_ok; [exact Hget|]. eapply bind_ok; [exact Hget|].
    rewrite Haw.
    eapply bind_ok.
    { unfold IT_set, it. simpl.
      eapply bind_ok; [eapply set_value_ok; [exact Ht | lia] | reflexivity]. }
    fold ct1 h1.
    eapply bind_ok.
    { unfold IT_next_with_extend.
      eapply bind_ok.
      { apply (IT_next_dense fuel h1 (Some a) t ct1 0 Ht1); [simpl; lia|].
        left. exact Hnext. }
      cbn [ch_next ct1]. rewrite Hnext. cbn [negb is_null it_obj].
      eapply bind_ok; [apply load_bi_ok; exact Hb|].
      cbn [it_obj it_index it_chunk]. rewrite Hlast. cbn [is_null].
      eapply bind_ok; [reflexivity|]. cbv iota.
      exact (grow_steps C h1 a b t ct1
               (fun chunk => ret (mkIterator (Some a) chunk 0))
               HC Hb Hlast Ht1). }
    fold h2.
    assert (IT_next (S fuel) it h2
            = Ok ((true, mkIterator (Some a) (Some (length (chunks h1))) 0),
                  h2)) as Hnext2.
    { apply (IT_next_dense fuel h2 (Some a) t _ 0
               (grown_lookup_last C h1 a b t ct1 Ht1)); [simpl; lia|].
      right. eexists _, _. split; [reflexivity|].
      split; [apply grown_lookup_new|]. simpl. lia. }
    eapply bind_ok; [exact Hnext2|]. rewrite Hlen1. reflexivity. }
  split.
  { unfold h2, grown. simpl. rewrite length_insert.
    apply list_lookup_insert_eq. eapply lookup_lt_Some; exact Hb. }
  split; [reflexivity|]. split.
  { rewrite <- Hlen1. apply grown_lookup_new. }
  split; [reflexivity|]. split; [reflexivity|]. split.
  { simpl. rewrite length_replicate. lia. }
  unfold h2. rewrite grown_length. now rewrite Hlen1.
Qed.

(** On a container of one chunk that holds one word, [add(a, a)] never
    leaves its main loop: no fuel is enough. *)
Lemma add_self_diverges C h a b t ct :
  0 < C ->
  bigints h !! a = Some b -> bi_first b = Some t -> bi_last b = Some t ->
  chunks h !! t = Some ct -> ch_length ct = 1 -> ch_next ct = NULL ->
  (0 < length (ch_value ct))%nat ->
  forall fuel, add C fuel (Some a) (Some a) h = Fault OutOfFuel.
Proof.
  intros HC Hb Hfirst Hlast Ht Hlen Hnext Hval [|fuel].
  { unfold add. simpl is_null. cbv iota. simpl orb. cbv iota.
    apply bind_fault. unfold iterate. simpl is_null. cbv iota.
    eapply bind_ok; [apply load_bi_ok; exact Hb | reflexivity]. }
  set (it := mkIterator (Some a) (Some t) 0).
  assert (iterate (S fuel) (Some a) h = Ok (Some it, h)) as Hit.
  { unfold iterate. simpl is_null. cbv iota.
    eapply bind_ok; [apply load_bi_ok; exact Hb|]. rewrite Hfirst.
    eapply bind_ok; [|reflexivity].
    apply while_false. simpl.
    eapply bind_ok; [apply load_ok; exact Ht|]. now rewrite Hlen. }
  unfold add. simpl is_null. cbv iota. simpl orb. cbv iota.
  eapply bind_ok; [exact Hit|]. eapply bind_ok; [exact Hit|].
  eapply bind_ok; [reflexivity|].
  apply bind_fault.
  apply (while_diverges
    (fun (s : Z * Iterator * Iterator) (h : heap) =>
       let '(carry, li, ri) := s in
       exists b t ct,
         li = mkIterator (Some a) (Some t) 0 /\ ri = li /\
         bigints h !! a = Some b /\ bi_last b = Some t /\
         chunks h !! t = Some ct /\ ch_length ct = 1 /\
         ch_next ct = NULL /\ (0 < length (ch_value ct))%nat)).
  - intros [[carry li] ri] h' (b' & t' & ct' & -> & -> & Hb' & Hlast' & Ht' &
      Hlen' & Hnext' & Hval').
    split; [reflexivity|].
    destruct (add_main_body_alias C fuel h' a b' t' ct' carry HC Hb' Hlast' Ht'
                Hlen' Hnext' Hval')
      as (carry' & h'' & b'' & ct'' & Hbody & Hb'' & Hlast'' & Ht'' & Hlen'' &
          Hnext'' & Hval'' & _).
    eexists (carry', _, _), h''. split; [exact Hbody|].
    exists b'', (length (chunks h')), ct''. auto 10.
  - exists b, t, ct. auto 10.
Qed.

(** ** [setValue]: the copy loops *)

Lemma copy_into_length v j src : length (copy_into v j src) = length v.
Proof.
  revert v j. induction src as [|w src IH]; intros v j; [reflexivity|].
  simpl. now rewrite IH, length_insert.
Qed.

Lemma copy_into_take v j src :
  (j + length src <= length v)%nat ->
  take (j + length src) (copy_into v j src) = take j v ++ src.
Proof.
  revert v j. induction src as [|w src IH]; intros v j Hlen; simpl in *.
  - now rewrite Nat.add_0_r, app_nil_r.
  - replace (j + S (length src))%nat with (S j + length src)%nat by lia.
    rewrite IH by (rewrite length_insert; lia).
    rewrite (take_S_r _ _ w) by (apply list_lookup_insert_eq; lia).
    rewrite take_insert_ge by lia. now rewrite <- app_assoc.
Qed.

(** The inner loop of [setValue]: [n] words are still to copy into the
    chunk [x], from index [i] of the array [ws], and the array has them. *)
Lemma setValue_inner_ok (ws : list Z) x fuel n :
  forall j i h c,
    chunks h !! x = Some c ->
    ch_length c = Z.of_nat (j + n) ->
    (j + n <= length (ch_value c))%nat ->
    (i + n <= length ws)%nat -> (n < fuel)%nat ->
    while fuel
      (fun '(chunkIndex, arrayIndex) =>
         c <- load (Some x) ;; ret (chunkIndex <? ch_length c))
      (fun '(chunkIndex, arrayIndex) =>
         match ws !! Z.to_nat arrayIndex with
         | Some w =>
             set_value (Some x) chunkIndex w ;;;
             ret (chunkIndex + 1, arrayIndex + 1)
         | None => raise OutOfBounds
         end)
      (Z.of_nat j, Z.of_nat i) h
    = Ok ((Z.of_nat (j + n), Z.of_nat (i + n)),
          mkHeap (<[x := mkChunk (ch_prev c) (ch_next c) (ch_length c)
                        (copy_into (ch_value c) j (take n (drop i ws)))]>
                    (chunks h))
                 (bigints h)).
Proof.
  revert fuel. induction n as [|n IH]; intros fuel j i h c Hc Hlen Hcap Hws Hfuel;
    (destruct fuel as [|fuel]; [lia|]).
  - rewrite !Nat.add_0_r. rewrite Nat.add_0_r in Hlen.
    erewrite while_false.
    + simpl. destruct c, h. simpl in *. now rewrite (list_insert_id _ _ _ Hc).
    + simpl. eapply bind_ok; [apply load_ok; exact Hc|].
      unfold ret. do 2 f_equal. apply Z.ltb_ge. lia.
  - destruct (lookup_lt_is_Some_2 ws i ltac:(lia)) as [w Hw].
    set (c1 := mkChunk (ch_prev c) (ch_next c) (ch_length c)
                       (<[j := w]> (ch_value c))).
    set (h1 := mkHeap (<[x := c1]> (chunks h)) (bigints h)).
    pose proof (lookup_lt_Some _ _ _ Hc) as Hx.
    erewrite (while_true _ _ _ _ (Z.of_nat (S j), Z.of_nat (S i)) h h1).
    + rewrite (IH fuel (S j) (S i) h1 c1).
      * replace (S j + n)%nat with (j + S n)%nat by lia.
        replace (S i + n)%nat with (i + S n)%nat by lia.
        unfold h1. simpl. rewrite list_insert_insert_eq.
        now rewrite (drop_S _ _ _ Hw).
      * apply list_lookup_insert_eq. exact Hx.
      * simpl. rewrite Hlen. f_equal. lia.
      * simpl. rewrite length_insert. lia.
      * lia.
      * lia.
    + simpl. eapply bind_ok; [apply load_ok; exact Hc|].
      unfold ret. do 2 f_equal. apply Z.ltb_lt. lia.
    + simpl. rewrite Nat2Z.id, Hw.
      eapply bind_ok.
      { eapply set_value_ok; [exact Hc | lia]. }
      rewrite Nat2Z.id. unfold ret, h1, c1. do 3 f_equal; lia.
Qed.

(** The same loop when the array ends before the chunk is full: the read
    past its end is a fault. *)
Lemma setValue_inner_oob (ws : list Z) x fuel n :
  forall j i h c,
    chunks h !! x = Some c ->
    ch_length c = Z.of_nat (j + n) ->
    (j + n <= length (ch_value c))%nat ->
    (i <= length ws < i + n)%nat -> (n < fuel)%nat ->
    while fuel
      (fun '(chunkIndex, arrayIndex) =>
         c <- load (Some x) ;; ret (chunkIndex <? ch_length c))
      (fun '(chunkIndex, arrayIndex) =>
         match ws !! Z.to_nat arrayIndex with
         | Some w =>
             set_value (Some x) chunkIndex w ;;;
             ret (chunkIndex + 1, arrayIndex + 1)
         | None => raise OutOfBounds
         end)
      (Z.of_nat j, Z.of_nat i) h
    = Fault OutOfBounds.
Proof.
  revert fuel. induction n as [|n IH]; intros fuel j i h c Hc Hlen Hcap Hws Hfuel;
    [lia|]. destruct fuel as [|fuel]; [lia|].
  assert (bind (load (Some x)) (fun c => ret (Z.of_nat j <? ch_length c)) h
          = Ok (true, h)) as Hcond.
  { eapply bind_ok; [apply load_ok; exact Hc|].
    unfold ret. do 2 f_equal. apply Z.ltb_lt. lia. }
  destruct (ws !! i) as [w|] eqn:Hw.
  - set (c1 := mkChunk (ch_prev c) (ch_next c) (ch_length c)
                       (<[j := w]> (ch_value c))).
    set (h1 := mkHeap (<[x := c1]> (chunks h)) (bigints h)).
    pose proof (lookup_lt_Some _ _ _ Hc) as Hx.
    erewrite (while_true _ _ _ _ (Z.of_nat (S j), Z.of_nat (S i)) h h1).
    + pose proof (lookup_lt_Some _ _ _ Hw).
      apply (IH fuel (S j) (S i) h1 c1).
      * apply list_lookup_insert_eq. exact Hx.
      * simpl. rewrite Hlen. f_equal. lia.
      * simpl. rewrite length_insert. lia.
      * lia.
      * lia.
    + exact Hcond.
    + simpl. rewrite Nat2Z.id, Hw.
      eapply bind_ok.
      { eapply set_value_ok; [exact Hc | lia]. }
      rewrite Nat2Z.id. unfold ret, h1, c1. do 3 f_equal; lia.
  - simpl. eapply bind_ok; [exact Hcond|]. simpl.
    apply bind_fault. now rewrite Nat2Z.id, Hw.
Qed.

(** ** [setValue] on a container of one chunk *)

Lemma numChunks_one C n :
  1 <= n <= C ->
  (if Z.rem n C =? 0 then Z.quot n C else Z.quot n C + 1) = 1.
Proof.
  intros Hn. destruct (Z.eq_dec n C) as [->|Hne].
  - rewrite Z.rem_same, Z.quot_same by lia. reflexivity.
  - rewrite Z.rem_small, Z.quot_small by lia.
    destruct (Z.eqb_spec n 0); [lia | reflexivity].
Qed.

Lemma MIN_le C n : n <= C -> MIN C n = n.
Proof.
  intros H. unfold MIN. destruct (Z.ltb_spec C n); [lia | reflexivity].
Qed.

Lemma MIN_le_r C n : C <= n -> MIN C n = C.
Proof.
  intros H. unfold MIN. destruct (Z.ltb_spec C n); [reflexivity | lia].
Qed.

(** A container of the right number of chunks is left as it is by the
    first half of [setValue]. *)
Lemma setValue_resize_same C fuel h a b :
  bigints h !! a = Some b ->
  setValue_resize C (S fuel) (Some a) (bi_length b) h = Ok (tt, h).
Proof.
  intros Hb. unfold setValue_resize.
  eapply bind_ok; [apply load_bi_ok; exact Hb|].
  rewrite Z.ltb_irrefl. apply while_false.
  eapply bind_ok; [apply load_bi_ok; exact Hb|].
  now rewrite Z.ltb_irrefl.
Qed.

(** The copy into a container of one chunk, when the words fit. *)
Lemma setValue_copy_single C h a b x c (ws : list Z) n fuel :
  bigints h !! a = Some b -> bi_first b = Some x ->
  chunks h !! x = Some c -> ch_next c = NULL ->
  Z.of_nat (length (ch_value c)) = C ->
  Z.of_nat n <= C -> (n <= length ws)%nat -> (n + 1 < fuel)%nat ->
  setValue_copy C fuel (Some a) (Z.of_nat n) ws h
  = Ok (tt, mkHeap (<[x := mkChunk (ch_prev c) NULL (Z.of_nat n)
                            (copy_into (ch_value c) 0 (take n ws))]>
                      (chunks h))
                   (bigints h)).
Proof.
  intros Hb Hfirst Hc Hnext Hcap Hn Hws Hfuel.
  destruct fuel as [|[|fuel]]; [lia..|].
  pose proof (lookup_lt_Some _ _ _ Hc) as Hx.
  set (c1 := mkChunk (ch_prev c) (ch_next c) (Z.of_nat n) (ch_value c)).
  set (h1 := mkHeap (<[x := c1]> (chunks h)) (bigints h)).
  set (c2 := mkChunk (ch_prev c) (ch_next c) (Z.of_nat n)
                     (copy_into (ch_value c) 0 (take n ws))).
  set (h2 := mkHeap (<[x := c2]> (chunks h)) (bigints h)).
  unfold setValue_copy.
  eapply bind_ok; [apply load_bi_ok; exact Hb|]. rewrite Hfirst.
  eapply bind_ok; [|reflexivity].
  erewrite (while_true _ _ _ _ (NULL, Z.of_nat n) h h2).
  - rewrite while_false by reflexivity. unfold h2, c2. now rewrite Hnext.
  - reflexivity.
  - cbv beta iota.
    eapply bind_ok.
    { rewrite MIN_le by exact Hn. eapply set_length_ok. exact Hc. }
    fold c1 h1.
    eapply bind_ok.
    { apply (setValue_inner_ok ws x (S (S fuel)) n 0 0 h1 c1).
      - apply list_lookup_insert_eq. exact Hx.
      - reflexivity.
      - simpl. lia.
      - simpl. lia.
      - lia. }
    cbv beta iota. simpl drop. unfold h1 at 1. simpl chunks.
    rewrite list_insert_insert_eq. simpl bigints. fold c2 h2.
    eapply bind_ok.
    { apply load_ok. apply list_lookup_insert_eq. exact Hx. }
    unfold ret, h2, c2, c1. simpl. now rewrite Hnext.
Qed.

Lemma setValue_single C h a x (ws : list Z) n fuel :
  container C h a [x] ->
  (1 <= n)%nat -> Z.of_nat n <= C -> (n <= length ws)%nat ->
  (n + 1 < fuel)%nat ->
  exists h',
    setValue C fuel (Some a) (Z.of_nat n) (Some ws) h = Ok (0, h') /\
    container C h' a [x] /\
    words (chunks h') [x] = take n ws /\
    bigints h' = bigints h /\
    (forall y, y <> x -> chunks h' !! y = chunks h !! y).
Proof.
  intros (b & Hb & Hl & _ & Hlast & Hlen & Hok) Hn1 HnC Hws Hfuel.
  simpl in Hl. destruct Hl as (Hfirst & c & Hc & Hnext).
  apply chunks_ok_cons in Hok as [(c' & Hc' & [Hclen Hcap]) _].
  assert (c' = c) as -> by congruence.
  pose proof (lookup_lt_Some _ _ _ Hc) as Hx.
  simpl in Hlen, Hlast.
  destruct fuel as [|fuel]; [lia|].
  eexists. split.
  { unfold setValue. rewrite numChunks_one by lia.
    change 1 with (Z.of_nat 1). rewrite <- Hlen.
    eapply bind_ok; [apply setValue_resize_same; exact Hb|].
    eapply bind_ok; [|reflexivity].
    eapply setValue_copy_single; eauto. }
  split.
  { exists b. simpl. split; [exact Hb|]. split.
    { split; [exact Hfirst|]. eexists. split;
        [apply list_lookup_insert_eq; exact Hx | reflexivity]. }
    split; [discriminate|]. split; [exact Hlast|]. split; [exact Hlen|].
    apply chunks_ok_cons. split; [|intros y Hy; inversion Hy].
    eexists. split; [apply list_lookup_insert_eq; exact Hx|].
    split; simpl; [lia|]. now rewrite copy_into_length. }
  split.
  { rewrite words_singleton. unfold words_at. simpl.
    rewrite list_lookup_insert_eq by exact Hx. unfold chunk_words. simpl.
    rewrite Nat2Z.id.
    pose proof (copy_into_take (ch_value c) 0 (take n ws)) as Ht.
    rewrite length_take_le in Ht by exact Hws. simpl in Ht.
    apply Ht. lia. }
  split; [reflexivity|].
  intros y Hy. simpl. now apply list_lookup_insert_ne.
Qed.

(** ** [uintToHex] *)

Lemma poke_ok (buf : buffer) (i : nat) c :
  (i < length buf)%nat -> poke buf (Z.of_nat i) c = Ok (<[i := Some c]> buf).
Proof.
  intros Hi. unfold poke.
  destruct (Z.ltb_spec (Z.of_nat i) 0); [lia|].
  destruct (Z.leb_spec (Z.of_nat (length buf)) (Z.of_nat i)); [lia|].
  simpl. now rewrite Nat2Z.id.
Qed.

Lemma poke_oob (buf : buffer) (i : nat) c :
  (length buf <= i)%nat -> poke buf (Z.of_nat i) c = Fault OutOfBounds.
Proof.
  intros Hi. unfold poke.
  destruct (Z.leb_spec (Z.of_nat (length buf)) (Z.of_nat i)); [|lia].
  now rewrite orb_true_r.
Qed.

(** The nibble the loop takes and the word it leaves. *)
Lemma low_nibble u : Z.land u 15 = u mod 16.
Proof. exact (Z.land_ones u 4 ltac:(lia)). Qed.

Lemma drop_nibble u : Z.shiftr u 4 = u / 16.
Proof. exact (Z.shiftr_div_pow2 u 4 ltac:(lia)). Qed.

Lemma nibble_succ u d :
  (u / 16) / 16 ^ Z.of_nat d = u / 16 ^ Z.of_nat (S d).
Proof.
  rewrite Nat2Z.inj_succ, Z.pow_succ_r by lia.
  apply Z.div_div; [lia|]. apply Z.pow_pos_nonneg; lia.
Qed.

Lemma uintToHex_loop_ok n :
  forall (buf : buffer) P I u,
    (P + I + n <= length buf)%nat ->
    uintToHex_loop n buf (Z.of_nat P) (Z.of_nat I) u
    = Ok (take (P + I) buf
          ++ map (fun d => Some (hex_digit ((u / 16 ^ Z.of_nat d) mod 16)))
                 (seq 0 n)
          ++ drop (P + I + n) buf).
Proof.
  induction n as [|n IH]; intros buf P I u Hlen.
  - simpl. rewrite Nat.add_0_r. now rewrite take_drop.
  - cbn [uintToHex_loop].
    rewrite <- Nat2Z.inj_add, poke_ok by lia.
    change (Z.of_nat I + 1) with (Z.of_nat I + Z.of_nat 1).
    rewrite <- Nat2Z.inj_add, IH by (rewrite length_insert; lia).
    f_equal.
    replace (P + (I + 1))%nat with (S (P + I)) by lia.
    rewrite (take_S_r _ _ (Some (hex_digit (u mod 16))))
      by (rewrite low_nibble; apply list_lookup_insert_eq; lia).
    rewrite take_insert_ge by lia.
    rewrite drop_insert_lt by lia.
    rewrite <- app_assoc. f_equal. cbn [seq map app]. f_equal.
    { now rewrite Z.pow_0_r, Z.div_1_r. }
    f_equal; [|f_equal; lia].
    rewrite <- seq_shift, map_map. apply map_ext. intros d.
    now rewrite drop_nibble, nibble_succ.
Qed.

Lemma uintToHex_loop_oob n :
  forall (buf : buffer) P I u,
    (0 < n)%nat -> (length buf < P + I + n)%nat ->
    uintToHex_loop n buf (Z.of_nat P) (Z.of_nat I) u = Fault OutOfBounds.
Proof.
  induction n as [|n IH]; intros buf P I u Hn Hlen; [lia|].
  cbn [uintToHex_loop]. rewrite <- Nat2Z.inj_add.
  destruct (Nat.lt_ge_cases (P + I) (length buf)) as [Hlt|Hge].
  - rewrite poke_ok by exact Hlt.
    change (Z.of_nat I + 1) with (Z.of_nat I + Z.of_nat 1).
    rewrite <- Nat2Z.inj_add. apply IH; [|rewrite length_insert]; lia.
  - now rewrite poke_oob by exact Hge.
Qed.

Lemma hex_word_le_length w : length (hex_word_le w) = 8%nat.
Proof. reflexivity. Qed.

Lemma render_word_length buf P w :
  (P + 8 < length buf)%nat -> length (render_word buf P w) = length buf.
Proof.
  intros H. unfold render_word.
  rewrite length_app, length_take, length_app, length_map, hex_word_le_length.
  simpl. rewrite length_drop. lia.
Qed.

(** [uintToHex] writes the eight digits of the word, low nibble first, and
    a NUL after them, when the buffer has room for the nine characters. *)
Lemma uintToHex_ok (buf : buffer) P w :
  (P + 8 < length buf)%nat ->
  uintToHex buf (Z.of_nat P) w = Ok (render_word buf P w).
Proof.
  intros Hlen. unfold uintToHex.
  change (Z.to_nat charsPerUint) with 8%nat.
  change 0 with (Z.of_nat 0).
  rewrite uintToHex_loop_ok by lia.
  change charsPerUint with (Z.of_nat 8). rewrite <- Nat2Z.inj_add.
  rewrite Nat.add_0_r.
  set (digits := map _ (seq 0 8)).
  assert (length digits = 8%nat) as Hd by reflexivity.
  rewrite poke_ok
    by (rewrite length_app, length_take, length_app, length_drop; lia).
  f_equal. unfold render_word.
  replace (P + 8)%nat with (length (take P buf) + (8 + 0))%nat at 1
    by (rewrite length_take; lia).
  rewrite insert_app_r.
  replace (8 + 0)%nat with (length digits + 0)%nat by (rewrite Hd; lia).
  rewrite insert_app_r. f_equal. f_equal.
  destruct (drop (P + 8) buf) as [|o rest] eqn:Hdrop.
  { apply (f_equal length) in Hdrop. rewrite length_drop in Hdrop.
    simpl in Hdrop. lia. }
  simpl. f_equal.
  replace (P + 9)%nat with ((P + 8) + 1)%nat by lia.
  now rewrite <- drop_drop, Hdrop.
Qed.

(** Without that room, a write lands outside the buffer. *)
Lemma uintToHex_oob (buf : buffer) P w :
  (length buf <= P + 8)%nat ->
  uintToHex buf (Z.of_nat P) w = Fault OutOfBounds.
Proof.
  intros Hlen. unfold uintToHex.
  change (Z.to_nat charsPerUint) with 8%nat.
  change 0 with (Z.of_nat 0).
  destruct (Nat.lt_ge_cases (length buf) (P + 8)) as [Hlt|Hge].
  - now rewrite uintToHex_loop_oob by lia.
  - rewrite uintToHex_loop_ok by lia.
    change charsPerUint with (Z.of_nat 8). rewrite <- Nat2Z.inj_add.
    apply poke_oob.
    rewrite length_app, length_take, length_app, length_map, length_seq,
      length_drop. lia.
Qed.

(** ** The string a buffer holds *)

Lemma hex_digit_not_NUL d : 0 <= d < 16 -> hex_digit d <> NUL.
Proof.
  intros Hd. unfold hex_digit.
  assert (Z.to_nat d < 16)%nat as Hn by lia.
  destruct (Z.to_nat d) as [|n]; [discriminate|].
  do 15 (destruct n as [|n]; [discriminate|]). lia.
Qed.

Lemma hex_word_le_not_NUL w : Forall (fun ch => ch <> NUL) (hex_word_le w).
Proof.
  unfold hex_word_le. apply Forall_forall. intros ch Hin.
  apply list_elem_of_In, in_map_iff in Hin as (i & <- & _).
  apply hex_digit_not_NUL. apply Z.mod_pos_bound. lia.
Qed.

Lemma hex_words_le_not_NUL ws : Forall (fun ch => ch <> NUL) (hex_words_le ws).
Proof.
  unfold hex_words_le. induction ws as [|w ws IH]; cbn [flat_map];
    [constructor|].
  rewrite Forall_app. split; [apply hex_word_le_not_NUL | exact IH].
Qed.

Lemma hex_words_le_length ws : length (hex_words_le ws) = (8 * length ws)%nat.
Proof.
  unfold hex_words_le. induction ws as [|w ws IH]; [reflexivity|].
  cbn [flat_map]. rewrite length_app, IH, hex_word_le_length. simpl. lia.
Qed.

(** A buffer that starts with the characters [s], none of them NUL, and
    has a NUL after them holds the string [s]. *)
Lemma c_string_spec s :
  forall buf : buffer,
    take (length s) buf = map Some s ->
    buf !! length s = Some (Some NUL) ->
    Forall (fun ch => ch <> NUL) s ->
    c_string buf = Some s.
Proof.
  induction s as [|ch s IH]; intros buf Htake Hnul Hs.
  - destruct buf as [|[c|] buf]; simpl in Hnul; try discriminate.
    injection Hnul as ->. reflexivity.
  - destruct buf as [|o buf]; simpl in Htake; [discriminate|].
    injection Htake as -> Htake. simpl in Hnul.
    apply Forall_cons in Hs as [Hch Hs].
    simpl. rewrite (proj2 (Ascii.eqb_neq ch NUL) Hch).
    now rewrite (IH buf Htake Hnul Hs).
Qed.

Lemma render_into_length ws :
  forall (buf : buffer) P,
    (ws = [] \/ P + 8 * length ws < length buf)%nat ->
    length (render_into buf P ws) = length buf.
Proof.
  induction ws as [|w ws IH]; intros buf P Hlen; [reflexivity|].
  destruct Hlen as [?|Hlen]; [discriminate|]. simpl in Hlen. simpl.
  rewrite IH; [apply render_word_length; lia|].
  rewrite render_word_length by lia.
  destruct ws; [now left | right; simpl in *; lia].
Qed.

(** After the words [ws] have been written from offset [P] on, the buffer
    holds their digits there and a NUL behind the last one. *)
Lemma render_into_spec ws :
  forall (buf : buffer) P,
    ws <> [] -> (P + 8 * length ws < length buf)%nat ->
    take (P + 8 * length ws) (render_into buf P ws)
    = take P buf ++ map Some (hex_words_le ws) /\
    render_into buf P ws !! (P + 8 * length ws)%nat = Some (Some NUL).
Proof.
  induction ws as [|w ws IH]; intros buf P Hne Hlen; [contradiction|].
  simpl in Hlen. cbn [render_into].
  assert (length (take P buf) = P) as HP by (rewrite length_take; lia).
  assert (take (P + 8) (render_word buf P w)
          = take P buf ++ map Some (hex_word_le w)) as Htw.
  { unfold render_word. rewrite app_assoc.
    apply take_app_length'.
    rewrite length_app, HP, length_map, hex_word_le_length. reflexivity. }
  assert (render_word buf P w !! (P + 8)%nat = Some (Some NUL)) as Hnw.
  { unfold render_word. rewrite app_assoc.
    apply list_lookup_middle.
    rewrite length_app, HP, length_map, hex_word_le_length. reflexivity. }
  destruct ws as [|w' ws].
  - cbn [render_into].
    replace (P + 8 * length [w])%nat with (P + 8)%nat by (simpl; lia).
    rewrite Htw. split; [|exact Hnw].
    unfold hex_words_le. cbn [flat_map]. now rewrite app_nil_r.
  - destruct (IH (render_word buf P w) (P + 8)%nat) as [Ht Hn];
      [discriminate | rewrite render_word_length; simpl in *; lia |].
    replace (P + 8 * length (w :: w' :: ws))%nat
      with (P + 8 + 8 * length (w' :: ws))%nat by (simpl; lia).
    split; [|exact Hn].
    rewrite Ht, Htw. unfold hex_words_le. cbn [flat_map].
    now rewrite map_app, <- app_assoc.
Qed.

(** What [toString] leaves in a fresh buffer that is large enough. *)
Lemma c_string_render N ws :
  ws <> [] -> (8 * length ws < N)%nat ->
  c_string (render_into (replicate N None) 0 ws) = Some (hex_words_le ws).
Proof.
  intros Hne Hlen.
  destruct (render_into_spec ws (replicate N None) 0 Hne) as [Ht Hn];
    [rewrite length_replicate; lia|].
  cbn [Nat.add] in Ht, Hn.
  apply c_string_spec.
  - rewrite hex_words_le_length. rewrite Ht. now rewrite take_0.
  - now rewrite hex_words_le_length.
  - apply hex_words_le_not_NUL.
Qed.

(** ** [toString]: the loop over the words of a chunk *)

Lemma toString_inner_ok x fuel n :
  forall j P (buf : buffer) h c,
    chunks h !! x = Some c ->
    ch_length c = Z.of_nat (j + n) ->
    (j + n <= length (ch_value c))%nat ->
    (n = 0 \/ P + 8 * n < length buf)%nat -> (n < fuel)%nat ->
    while fuel
      (fun '(index, p, string) =>
         c <- load (Some x) ;; ret (index <? ch_length c))
      (fun '(index, p, string) =>
         w <- get_value (Some x) index ;;
         string <- lift (uintToHex string p w) ;;
         ret (index + 1, p + 1 * charsPerUint, string))
      (Z.of_nat j, Z.of_nat P, buf) h
    = Ok ((Z.of_nat (j + n), Z.of_nat (P + 8 * n),
           render_into buf P (take n (drop j (ch_value c)))), h).
Proof.
  revert fuel. induction n as [|n IH]; intros fuel j P buf h c Hc Hlen Hcap Hbuf Hfuel;
    (destruct fuel as [|fuel]; [lia|]).
  - rewrite !Nat.add_0_r. rewrite Nat.add_0_r in Hlen.
    apply while_false. simpl.
    eapply bind_ok; [apply load_ok; exact Hc|].
    unfold ret. do 2 f_equal. apply Z.ltb_ge. lia.
  - destruct Hbuf as [?|Hbuf]; [discriminate|].
    destruct (lookup_lt_is_Some_2 (ch_value c) j ltac:(lia)) as [w Hw].
    erewrite (while_true _ _ _ _
                (Z.of_nat (S j), Z.of_nat (P + 8), render_word buf P w) h h).
    + rewrite (IH fuel (S j) (P + 8)%nat (render_word buf P w) h c Hc).
      * rewrite (drop_S _ _ _ Hw). cbn [take render_into].
        replace (S j + n)%nat with (j + S n)%nat by lia.
        replace (P + 8 + 8 * n)%nat with (P + 8 * S n)%nat by lia.
        reflexivity.
      * rewrite Hlen. f_equal. lia.
      * lia.
      * rewrite render_word_length by lia.
        destruct n; [now left | right; lia].
      * lia.
    + simpl. eapply bind_ok; [apply load_ok; exact Hc|].
      unfold ret. do 2 f_equal. apply Z.ltb_lt. lia.
    + cbv beta iota.
      eapply bind_ok.
      { eapply get_value_ok; [exact Hc | lia |]. rewrite Nat2Z.id. exact Hw. }
      eapply bind_ok.
      { unfold lift. rewrite uintToHex_ok by lia. reflexivity. }
      unfold ret. change (1 * charsPerUint) with (Z.of_nat 8).
      rewrite <- Nat2Z.inj_add. do 4 f_equal. lia.
Qed.

Lemma toString_inner_oob x fuel n :
  forall j P (buf : buffer) h c,
    chunks h !! x = Some c ->
    ch_length c = Z.of_nat (j + n) ->
    (j + n <= length (ch_value c))%nat ->
    (0 < n)%nat -> (length buf <= P + 8 * n)%nat -> (n < fuel)%nat ->
    while fuel
      (fun '(index, p, string) =>
         c <- load (Some x) ;; ret (index <? ch_length c))
      (fun '(index, p, string) =>
         w <- get_value (Some x) index ;;
         string <- lift (uintToHex string p w) ;;
         ret (index + 1, p + 1 * charsPerUint, string))
      (Z.of_nat j, Z.of_nat P, buf) h
    = Fault OutOfBounds.
Proof.
  revert fuel. induction n as [|n IH]; intros fuel j P buf h c Hc Hlen Hcap Hn Hbuf Hfuel;
    [lia|]. destruct fuel as [|fuel]; [lia|].
  destruct (lookup_lt_is_Some_2 (ch_value c) j ltac:(lia)) as [w Hw].
  assert (bind (load (Some x)) (fun c => ret (Z.of_nat j <? ch_length c)) h
          = Ok (true, h)) as Hcond.
  { eapply bind_ok; [apply load_ok; exact Hc|].
    unfold ret. do 2 f_equal. apply Z.ltb_lt. lia. }
  assert (get_value (Some x) (Z.of_nat j) h = Ok (w, h)) as Hget.
  { eapply get_value_ok; [exact Hc | lia |]. rewrite Nat2Z.id. exact Hw. }
  destruct (Nat.lt_ge_cases (P + 8) (length buf)) as [Hlt|Hge].
  - erewrite (while_true _ _ _ _
                (Z.of_nat (S j), Z.of_nat (P + 8), render_word buf P w) h h).
    + apply (IH fuel (S j) (P + 8)%nat (render_word buf P w) h c Hc).
      * rewrite Hlen. f_equal. lia.
      * lia.
      * lia.
      * rewrite render_word_length by lia. lia.
      * lia.
    + exact Hcond.
    + cbv beta iota. eapply bind_ok; [exact Hget|].
      eapply bind_ok.
      { unfold lift. rewrite uintToHex_ok by lia. reflexivity. }
      unfold ret. change (1 * charsPerUint) with (Z.of_nat 8).
      rewrite <- Nat2Z.inj_add. do 4 f_equal. lia.
  - simpl. eapply bind_ok; [exact Hcond|]. cbv iota.
    apply bind_fault. eapply bind_ok; [exact Hget|].
    apply bind_fault. unfold lift. now rewrite uintToHex_oob by lia.
Qed.

(** ** [toString] on a container of one chunk *)

Lemma toString_single C h a x c fuel :
  container C h a [x] -> chunks h !! x = Some c ->
  (Z.to_nat (ch_length c) + 1 < fuel)%nat ->
  let n := Z.to_nat (ch_length c) in
  let string := replicate (Z.to_nat (1 + 1 * C)) None in
  toString C fuel (Some a) h
  = if decide (n = 0 \/ 8 * n < length string)%nat
    then Ok (Some (render_into string 0 (chunk_words c)), h)
    else Fault OutOfBounds.
Proof.
  intros (b & Hb & Hl & _ & Hlast & Hlen & Hok) Hc Hfuel n string.
  simpl in Hl. destruct Hl as (Hfirst & c' & Hc' & Hnext).
  assert (c' = c) as -> by congruence.
  apply chunks_ok_cons in Hok as [(c' & Hc'' & [Hclen Hcap]) _].
  assert (c' = c) as -> by congruence.
  simpl in Hlen.
  destruct fuel as [|[|fuel]]; [lia..|].
  unfold toString. simpl is_null. cbv iota.
  eapply bind_ok; [apply load_bi_ok; exact Hb|]. cbv zeta.
  unfold toString_numChars. rewrite Hlen, Hfirst. fold string.
  destruct (decide (n = 0 \/ 8 * n < length string)%nat) as [Hfit|Hnofit].
  - eapply bind_ok.
    { erewrite (while_true _ _ _ _
        (NULL, Z.of_nat (0 + 8 * n), render_into string 0 (chunk_words c))
        h h).
      + now apply while_false.
      + reflexivity.
      + cbv beta iota.
        eapply bind_ok.
        { apply (toString_inner_ok x (S (S fuel)) n 0 0 string h c Hc);
            [unfold n; simpl; lia | unfold n; simpl; lia | exact Hfit
            | unfold n; lia]. }
        cbv beta iota.
        eapply bind_ok; [apply load_ok; exact Hc|].
        rewrite Hnext. reflexivity. }
    reflexivity.
  - apply bind_fault.
    apply Decidable.not_or in Hnofit as [Hn0 Hbig].
    cbn [while]. eapply bind_ok; [reflexivity|]. cbv beta iota.
    cbn [negb is_null]. apply bind_fault. apply bind_fault.
    apply (toString_inner_oob x (S (S fuel)) n 0 0 string h c Hc);
      unfold n in *; simpl; lia.
Qed.

(** ** [setValue] on a container with too many chunks *)

(** The loop that looks for the cut chunk never counts: with a cut point
    past the first chunk it walks to the end of the chain. *)
Lemma setValue_walk cs l :
  forall p fuel h numChunks,
    chunks h = cs -> lseg cs p l NULL -> 0 < numChunks ->
    (length l < fuel)%nat ->
    while fuel
      (fun p => ret ((0 <? numChunks) && negb (is_null p)))
      (fun p => c <- load p ;; ret (ch_next c))
      p h
    = Ok (NULL, h).
Proof.
  induction l as [|x l IH]; intros p fuel h numChunks Hcs Hl Hnum Hfuel;
    (destruct fuel as [|fuel]; [simpl in Hfuel; lia|]).
  - simpl in Hl. subst p. apply while_false. simpl.
    now rewrite andb_false_r.
  - destruct Hl as (-> & c & Hc & Hl). subst cs.
    erewrite (while_true _ _ _ _ (ch_next c) h h).
    + apply IH; [reflexivity | exact Hl | exact Hnum | simpl in Hfuel; lia].
    + simpl. unfold ret. do 2 f_equal.
      rewrite andb_true_r. apply Z.ltb_lt. exact Hnum.
    + eapply bind_ok; [apply load_ok; exact Hc | reflexivity].
Qed.

(** So the first half of [setValue] leaves the chain as long as it was,
    sets the count to [numChunks] and the tail reference to NULL. *)
Lemma setValue_resize_long C h a l b numChunks fuel :
  container C h a l -> bigints h !! a = Some b ->
  0 < numChunks < Z.of_nat (length l) -> (length l < fuel)%nat ->
  setValue_resize C fuel (Some a) numChunks h
  = Ok (tt, mkHeap (chunks h)
                   (<[a := mkBigInt (bi_first b) NULL (bi_parity b) numChunks]>
                      (bigints h))).
Proof.
  intros (b' & Hb' & Hl & _ & _ & Hlen & _) Hb Hnum Hfuel.
  assert (b' = b) as -> by congruence.
  pose proof (lookup_lt_Some _ _ _ Hb) as Ha.
  unfold setValue_resize.
  eapply bind_ok; [apply load_bi_ok; exact Hb|].
  destruct (Z.ltb_spec numChunks (bi_length b)) as [_|?]; [|lia].
  cbv zeta.
  eapply bind_ok.
  { apply (setValue_walk (chunks h) l); [reflexivity | exact Hl | lia | lia]. }
  eapply bind_ok; [eapply set_last_ok; exact Hb|].
  eapply bind_ok; [reflexivity|].
  erewrite set_bi_length_ok by (simpl; apply list_lookup_insert_eq; exact Ha).
  simpl. now rewrite list_insert_insert_eq.
Qed.

(** ** [setValue] with no words *)

Lemma setValue_zero C h a l (ws : list Z) fuel :
  0 < C -> container C h a l -> (2 <= fuel)%nat ->
  exists h' b' x c',
    setValue C fuel (Some a) 0 (Some ws) h = Ok (0, h') /\
    bigints h' !! a = Some b' /\ bi_length b' = 0 /\
    bi_first b' = Some x /\ chunks h' !! x = Some c' /\ ch_next c' = NULL.
Proof.
  intros HC (b & Hb & Hl & Hne & _ & Hlen & _) Hfuel.
  destruct l as [|x l]; [contradiction|]. clear Hne.
  destruct Hl as (Hfirst & c & Hc & Hl).
  pose proof (lookup_lt_Some _ _ _ Hb) as Ha.
  pose proof (lookup_lt_Some _ _ _ Hc) as Hx.
  destruct fuel as [|[|fuel]]; [lia..|].
  set (b1 := mkBigInt (Some x) (Some x) (bi_parity b) (bi_length b)).
  set (b2 := mkBigInt (Some x) (Some x) (bi_parity b) 0).
  set (c1 := mkChunk (ch_prev c) NULL (ch_length c) (ch_value c)).
  set (c2 := mkChunk (ch_prev c) NULL 0 (ch_value c)).
  (* the store after [trimChunk] *)
  assert (exists cs1,
    trimChunk (Some x) (mkHeap (chunks h) (<[a := b1]> (bigints h)))
    = Ok (ch_next c, mkHeap cs1 (<[a := b1]> (bigints h))) /\
    cs1 !! x = Some c1) as (cs1 & Htrim & Hc1).
  { destruct (ch_next c) as [y|] eqn:Hnext.
    - destruct l as [|y' l]; simpl in Hl; [discriminate|].
      destruct Hl as (Hy & cy & Hcy & Hrest). injection Hy as <-.
      assert (y <> x) as Hyx.
      { intros ->.
        assert (lseg (chunks h) (Some x) (x :: x :: l) NULL) as Hch.
        { simpl. split; [reflexivity|]. exists c. split; [exact Hc|].
          rewrite Hnext. split; [reflexivity|]. exists cy.
          split; [exact Hcy | exact Hrest]. }
        apply lseg_NoDup, NoDup_cons in Hch as [Hn _]. apply Hn. left. }
      eexists. split.
      + unfold trimChunk.
        eapply bind_ok; [apply load_ok; exact Hc|].
        eapply bind_ok; [eapply set_next_ok; exact Hc|].
        rewrite Hnext.
        eapply bind_ok;
          [eapply set_prev_ok; simpl;
           rewrite list_lookup_insert_ne by congruence; exact Hcy
          | reflexivity].
      + rewrite list_lookup_insert_ne by exact Hyx.
        apply list_lookup_insert_eq. exact Hx.
    - eexists. split.
      + unfold trimChunk.
        eapply bind_ok; [apply load_ok; exact Hc|].
        eapply bind_ok; [eapply set_next_ok; exact Hc|].
        rewrite Hnext. reflexivity.
      + apply list_lookup_insert_eq. exact Hx. }
  pose proof (lookup_lt_Some _ _ _ Hc1) as Hx1.
  exists (mkHeap (<[x := c2]> cs1) (<[a := b2]> (bigints h))), b2, x, c2.
  split.
  { unfold setValue.
    rewrite Z.quot_0_l, Z.rem_0_l by lia. cbv iota beta zeta. simpl (0 =? 0).
    cbv iota.
    eapply bind_ok.
    { unfold setValue_resize.
      eapply bind_ok; [apply load_bi_ok; exact Hb|].
      destruct (Z.ltb_spec 0 (bi_length b)) as [_|?]; [|simpl in Hlen; lia].
      cbv zeta.
      eapply bind_ok; [apply while_false; reflexivity|].
      eapply bind_ok; [eapply set_last_ok; exact Hb|]. rewrite Hfirst.
      fold b1.
      eapply bind_ok; [exact Htrim|].
      erewrite set_bi_length_ok
        by (simpl; apply list_lookup_insert_eq; exact Ha).
      simpl. rewrite list_insert_insert_eq. fold b2. reflexivity. }
    eapply bind_ok; [|reflexivity].
    unfold setValue_copy.
    eapply bind_ok;
      [apply load_bi_ok; simpl; apply list_lookup_insert_eq; exact Ha|].
    simpl bi_first.
    eapply bind_ok; [|reflexivity].
    erewrite (while_true _ _ _ _ (NULL, 0)
                _ (mkHeap (<[x := c2]> cs1) (<[a := b2]> (bigints h)))).
    - now apply while_false.
    - reflexivity.
    - cbv beta iota.
      eapply bind_ok.
      { eapply set_length_ok. exact Hc1. }
      unfold MIN. destruct (Z.ltb_spec C 0) as [?|_]; [lia|].
      change (mkChunk (ch_prev c1) (ch_next c1) 0 (ch_value c1)) with c2.
      cbn [chunks bigints].
      eapply bind_ok.
      { apply while_false. simpl.
        eapply bind_ok;
          [apply load_ok; simpl; apply list_lookup_insert_eq; exact Hx1
          | reflexivity]. }
      cbv beta iota.
      eapply bind_ok;
        [apply load_ok; simpl; apply list_lookup_insert_eq; exact Hx1
        | reflexivity]. }
  simpl. split; [apply list_lookup_insert_eq; exact Ha|].
  split; [reflexivity|]. split; [reflexivity|].
  split; [apply list_lookup_insert_eq; exact Hx1 | reflexivity].
Qed.

(** ** [setValue] with one word more than a chunk holds *)

(** The body of the copy loop on the chunk [y], from index [i] of the
    array: the chunk gets [m] words when the array still has them. *)
Lemma setValue_copy_body_ok (ws : list Z) y cy fuel m i h :
  chunks h !! y = Some cy -> (m <= length (ch_value cy))%nat ->
  (i + m <= length ws)%nat -> (m < fuel)%nat ->
  (set_length (Some y) (Z.of_nat m) ;;;
   '(_, arrayIndex') <-
     while fuel
       (fun '(chunkIndex, arrayIndex) =>
          c <- load (Some y) ;; ret (chunkIndex <? ch_length c))
       (fun '(chunkIndex, arrayIndex) =>
          match ws !! Z.to_nat arrayIndex with
          | Some w =>
              set_value (Some y) chunkIndex w ;;;
              ret (chunkIndex + 1, arrayIndex + 1)
          | None => raise OutOfBounds
          end)
       (0, Z.of_nat i) ;;
   c <- load (Some y) ;;
   ret (ch_next c, arrayIndex')) h
  = Ok ((ch_next cy, Z.of_nat (i + m)),
        mkHeap (<[y := mkChunk (ch_prev cy) (ch_next cy) (Z.of_nat m)
                          (copy_into (ch_value cy) 0 (take m (drop i ws)))]>
                  (chunks h))
               (bigints h)).
Proof.
  intros Hy Hcap Hws Hfuel.
  pose proof (lookup_lt_Some _ _ _ Hy) as Hlt.
  set (c1 := mkChunk (ch_prev cy) (ch_next cy) (Z.of_nat m) (ch_value cy)).
  set (h1 := mkHeap (<[y := c1]> (chunks h)) (bigints h)).
  eapply bind_ok; [eapply set_length_ok; exact Hy|]. fold c1 h1.
  eapply bind_ok.
  { apply (setValue_inner_ok ws y fuel m 0 i h1 c1).
    - apply list_lookup_insert_eq. exact Hlt.
    - reflexivity.
    - simpl. lia.
    - exact Hws.
    - exact Hfuel. }
  cbv beta iota. unfold h1 at 1. cbn [chunks bigints].
  rewrite list_insert_insert_eq.
  eapply bind_ok.
  { apply load_ok. apply list_lookup_insert_eq. exact Hlt. }
  reflexivity.
Qed.

(** And a read past the end of the array when it has not. *)
Lemma setValue_copy_body_oob (ws : list Z) y cy fuel m i h :
  chunks h !! y = Some cy -> (m <= length (ch_value cy))%nat ->
  (i <= length ws < i + m)%nat -> (m < fuel)%nat ->
  (set_length (Some y) (Z.of_nat m) ;;;
   '(_, arrayIndex') <-
     while fuel
       (fun '(chunkIndex, arrayIndex) =>
          c <- load (Some y) ;; ret (chunkIndex <? ch_length c))
       (fun '(chunkIndex, arrayIndex) =>
          match ws !! Z.to_nat arrayIndex with
          | Some w =>
              set_value (Some y) chunkIndex w ;;;
              ret (chunkIndex + 1, arrayIndex + 1)
          | None => raise OutOfBounds
          end)
       (0, Z.of_nat i) ;;
   c <- load (Some y) ;;
   ret (ch_next c, arrayIndex')) h
  = Fault OutOfBounds.
Proof.
  intros Hy Hcap Hws Hfuel.
  pose proof (lookup_lt_Some _ _ _ Hy) as Hlt.
  set (c1 := mkChunk (ch_prev cy) (ch_next cy) (Z.of_nat m) (ch_value cy)).
  set (h1 := mkHeap (<[y := c1]> (chunks h)) (bigints h)).
  eapply bind_ok; [eapply set_length_ok; exact Hy|]. fold c1 h1.
  apply bind_fault.
  apply (setValue_inner_oob ws y fuel m 0 i h1 c1).
  - apply list_lookup_insert_eq. exact Hlt.
  - reflexivity.
  - simpl. lia.
  - exact Hws.
  - exact Hfuel.
Qed.

Lemma numChunks_two C :
  2 <= C ->
  (if Z.rem (C + 1) C =? 0 then Z.quot (C + 1) C else Z.quot (C + 1) C + 1)
  = 2.
Proof.
  intros HC.
  rewrite Z.rem_mod_nonneg, Z.quot_div_nonneg by lia.
  rewrite <- (Z.div_unique (C + 1) C 1 1) by lia.
  rewrite <- (Z.mod_unique (C + 1) C 1 1) by lia.
  reflexivity.
Qed.


(** ** The checks are sound *)

Lemma ptr_eqb_eq p q : ptr_eqb p q = true -> p = q.
Proof.
  destruct p as [x|], q as [y|]; simpl; try discriminate; [|reflexivity].
  intros H. apply Nat.eqb_eq in H. now subst.
Qed.

Lemma lsegb_sound cs l : forall p q, lsegb cs p l q = true -> lseg cs p l q.
Proof.
  induction l as [|x l IH]; intros p q H; simpl in *.
  - now apply ptr_eqb_eq.
  - apply andb_true_iff in H as [Hp H]. apply ptr_eqb_eq in Hp.
    split; [exact Hp|]. destruct (cs !! x) as [c|]; [|discriminate].
    exists c. split; [reflexivity|]. now apply IH.
Qed.

Lemma chunk_okb_sound C c : chunk_okb C c = true -> chunk_ok C c.
Proof.
  unfold chunk_okb, chunk_ok. intros H.
  apply andb_true_iff in H as [H H3]. apply andb_true_iff in H as [H1 H2].
  apply Z.leb_le in H1, H2. apply Z.eqb_eq in H3. lia.
Qed.

Lemma containerb_sound C h a l : containerb C h a l = true -> container C h a l.
Proof.
  unfold containerb, container. destruct (bigints h !! a) as [b|];
    [|discriminate].
  intros H. repeat (apply andb_true_iff in H as [H ?]).
  exists b. split; [reflexivity|]. split; [now apply lsegb_sound|].
  split.
  { intros ->. discriminate. }
  split; [now apply ptr_eqb_eq|]. split; [now apply Z.eqb_eq|].
  intros x Hx.
  match goal with
  | Hall : forallb _ l = true |- _ =>
      apply forallb_forall with (x := x) in Hall;
        [|now apply list_elem_of_In]
  end.
  destruct (chunks h !! x) as [c|]; [|discriminate].
  exists c. split; [reflexivity|]. now apply chunk_okb_sound.
Qed.

Lemma disjointb_sound la lb :
  disjointb la lb = true -> forall x, x ∈ la -> x ∉ lb.
Proof.
  unfold disjointb. intros H x Hx Hy.
  apply forallb_forall with (x := x) in H; [|now apply list_elem_of_In].
  apply negb_true_iff in H.
  assert (existsb (Nat.eqb x) lb = true) as He.
  { apply existsb_exists. exists x. split; [now apply list_elem_of_In|].
    apply Nat.eqb_refl. }
  congruence.
Qed.

(** * The claims *)

(** ** Carry detection *)

Lemma uadd_uadd carry lv rv :
  uadd (uadd carry lv) rv = (carry + lv + rv) mod uint_modulus.
Proof. unfold uadd. now rewrite Zplus_mod_idemp_l. Qed.

(** The test [sum < lv || sum < rv] finds the carry out of
    [carry + lv + rv] in every case but one: a carry into two all-ones
    words. *)
Lemma add_word_spec carry lv rv :
  carry = 0 \/ carry = 1 ->
  0 <= lv < uint_modulus -> 0 <= rv < uint_modulus ->
  (add_word carry lv rv).1 = (carry + lv + rv) mod uint_modulus /\
  ((add_word carry lv rv).2 = (carry + lv + rv) / uint_modulus <->
   ~ (carry = 1 /\ lv = UINT_MAX /\ rv = UINT_MAX)).
Proof.
  intros Hc Hlv Hrv. unfold add_word. cbn [fst snd].
  rewrite uadd_uadd. split; [reflexivity|].
  unfold UINT_MAX in *.
  assert (uint_modulus = 4294967296) as HM by reflexivity.
  set (s := carry + lv + rv).
  destruct (Z_lt_ge_dec s uint_modulus) as [Hsmall|Hbig].
  - rewrite Z.mod_small, Z.div_small by lia.
    destruct (Z.ltb_spec s lv); [lia|]. destruct (Z.ltb_spec s rv); [lia|].
    simpl. split; [lia | reflexivity].
  - assert (s / uint_modulus = 1) as Hq.
    { symmetry. apply (Z.div_unique s uint_modulus 1 (s - uint_modulus)); lia. }
    assert (s mod uint_modulus = s - uint_modulus) as Hr.
    { symmetry. apply (Z.mod_unique s uint_modulus 1 (s - uint_modulus)); lia. }
    rewrite Hq, Hr.
    destruct (Z.ltb_spec (s - uint_modulus) lv);
      destruct (Z.ltb_spec (s - uint_modulus) rv); simpl; split; intros; lia.
Qed.

(** C2 (the carry test of the main loop): the claim says the test always
    gives the true carry out.  With a carry of 1 into two all-ones words
    the sum wraps to the all-ones word, which is below neither addend: the
    code takes the carry to be 0 where the true carry out is 1. *)
Theorem add_word_loses_carry :
  add_word 1 UINT_MAX UINT_MAX = (UINT_MAX, 0) /\
  (1 + UINT_MAX + UINT_MAX) / uint_modulus = 1.
Proof. split; reflexivity. Qed.

(** ** Addition *)

(** C1 (add computes the sum): on the accumulator [0xFFFFFFFF, 0xFFFFFFFF]
    and the addend [1, 0xFFFFFFFF], in distinct valid containers, [add]
    returns the accumulator holding [0, 0xFFFFFFFF, 0], which is not the
    sum: the carry out of the second word is lost. *)
Theorem add_loses_carry C h a b la lb fuel :
  0 < C -> a <> b ->
  container C h a la -> container C h b lb ->
  (forall x, x ∈ la -> x ∉ lb) ->
  words (chunks h) la = [UINT_MAX; UINT_MAX] ->
  words (chunks h) lb = [1; UINT_MAX] ->
  (length la + length lb + 19 <= fuel)%nat ->
  exists h' la',
    add C fuel (Some a) (Some b) h = Ok (Some a, h') /\
    container C h' a la' /\
    words (chunks h') la' = [0; UINT_MAX; 0] /\
    number (words (chunks h') la')
    <> number (words (chunks h) la) + number (words (chunks h) lb).
Proof.
  intros HC Hab Hca Hcb Hdisj Hwa Hwb Hfuel.
  destruct (add_spec C h a b la lb HC Hab Hca Hcb Hdisj fuel)
    as (h' & extra & Hadd & Hca' & _ & _ & _ & Hw).
  { rewrite Hwa, Hwb. simpl. lia. }
  exists h', (la ++ extra). split; [exact Hadd|]. split; [exact Hca'|].
  rewrite Hw, Hwa, Hwb. split; [reflexivity|]. vm_compute. discriminate.
Qed.

Lemma add_loses_carry_witness :
  exists h' la',
    add 4 30 (Some 0%nat) (Some 1%nat)
        (loaded_two 4 [UINT_MAX; UINT_MAX] [1; UINT_MAX])
    = Ok (Some 0%nat, h') /\
    container 4 h' 0 la' /\
    words (chunks h') la' = [0; UINT_MAX; 0] /\
    number (words (chunks h') la')
    <> number (words (chunks (loaded_two 4 [UINT_MAX; UINT_MAX]
                                          [1; UINT_MAX])) [0%nat])
       + number (words (chunks (loaded_two 4 [UINT_MAX; UINT_MAX]
                                             [1; UINT_MAX])) [1%nat]).
Proof.
  apply (add_loses_carry 4 (loaded_two 4 [UINT_MAX; UINT_MAX] [1; UINT_MAX])
           0 1 [0%nat] [1%nat] 30).
  - lia.
  - discriminate.
  - apply containerb_sound. vm_compute. reflexivity.
  - apply containerb_sound. vm_compute. reflexivity.
  - apply disjointb_sound. vm_compute. reflexivity.
  - vm_compute. reflexivity.
  - vm_compute. reflexivity.
  - simpl. lia.
Defined.

(** C10, as amended (termination of add): for two valid containers that
    are distinct and share no chunk, [add] returns the accumulator, for
    every amount of fuel from a bound on that the sizes of the two
    containers give. *)
Theorem add_terminates C h a b la lb :
  0 < C -> a <> b ->
  container C h a la -> container C h b lb ->
  (forall x, x ∈ la -> x ∉ lb) ->
  exists n0, forall fuel, (n0 <= fuel)%nat ->
    exists h', add C fuel (Some a) (Some b) h = Ok (Some a, h').
Proof.
  intros HC Hab Hca Hcb Hdisj.
  exists (length la + length lb + 2 * length (words (chunks h) la)
          + 5 * length (words (chunks h) lb) + 5)%nat.
  intros fuel Hfuel.
  destruct (add_spec C h a b la lb HC Hab Hca Hcb Hdisj fuel Hfuel)
    as (h' & _ & Hadd & _).
  now exists h'.
Qed.

Lemma add_terminates_witness :
  exists n0, forall fuel, (n0 <= fuel)%nat ->
    exists h', add 4 fuel (Some 0%nat) (Some 1%nat) (fresh_two 4)
               = Ok (Some 0%nat, h').
Proof.
  apply (add_terminates 4 (fresh_two 4) 0 1 [0%nat] [1%nat]).
  - lia.
  - discriminate.
  - apply containerb_sound. vm_compute. reflexivity.
  - apply containerb_sound. vm_compute. reflexivity.
  - apply disjointb_sound. vm_compute. reflexivity.
Defined.

(** C10 as stated fails where the two arguments are the same container:
    on a freshly constructed container, [add(a, a)] returns with no amount
    of fuel. *)
Lemma add_self_never_returns :
  ~ exists fuel r, add 4 fuel (Some 0%nat) (Some 0%nat) (fresh_one 4) = Ok r.
Proof.
  intros (fuel & r & Hadd).
  rewrite (add_self_diverges 4 (fresh_one 4) 0
             (mkBigInt (Some 0%nat) (Some 0%nat) 1 1) 0
             (mkChunk NULL NULL 1 [0; 0; 0; 0])) in Hadd;
    [discriminate | lia | reflexivity.. | simpl; lia].
Qed.

(** ** Growth *)

(** C3 (advance-with-growth on a tail chunk with spare capacity): the
    claim says the tail chunk is extended by one slot.  The code appends a
    new one-word chunk also then: the test [!self->chunk && ...] is false
    for every tail chunk there is, so the branch that extends the tail is
    never taken; the tail chunk keeps its valid length and the cursor
    stands in the new chunk. *)
Theorem IT_next_with_extend_never_extends_tail C h a l it k t ct fuel :
  0 < C -> container C h a l -> it_obj it = Some a ->
  cursor (chunks h) l it k -> S k = length (words (chunks h) l) ->
  last l = Some t -> chunks h !! t = Some ct -> ch_length ct < C ->
  (length l < fuel)%nat ->
  exists h' ct',
    IT_next_with_extend C fuel it h
    = Ok (mkIterator (Some a) (Some (length (chunks h))) 0, h') /\
    container C h' a (l ++ [length (chunks h)]) /\
    chunks h' !! t = Some ct' /\ ch_length ct' = ch_length ct /\
    words (chunks h') (l ++ [length (chunks h)]) = words (chunks h) l ++ [0].
Proof.
  intros HC Hcont Hobj Hcur Hk Hlast Hct Hspare Hfuel.
  destruct (IT_next_with_extend_spec C h a l it k fuel HC Hcont Hobj Hcur Hfuel)
    as (it' & h' & l' & Hrun & _ & Hcont' & _ & Hw & Hkept & Hcase).
  destruct Hcase as [(Hlt & _) | (_ & -> & -> & _)]; [lia|].
  destruct (Hkept t ct) as (ct' & Hct' & Hlen); [|exact Hct|].
  { apply last_Some in Hlast as [l0 ->]. apply elem_of_app. right.
    now apply list_elem_of_singleton. }
  exists h', ct'. split; [exact Hrun|]. split; [exact Hcont'|].
  split; [exact Hct'|]. split; [exact Hlen|].
  rewrite Hw. unfold grow. destruct (decide _); [lia | reflexivity].
Qed.

Lemma IT_next_with_extend_never_extends_tail_witness :
  exists h' ct',
    IT_next_with_extend 4 2 (mkIterator (Some 0%nat) (Some 0%nat) 0)
                        (fresh_one 4)
    = Ok (mkIterator (Some 0%nat) (Some (length (chunks (fresh_one 4)))) 0,
          h') /\
    container 4 h' 0 ([0%nat] ++ [length (chunks (fresh_one 4))]) /\
    chunks h' !! 0%nat = Some ct' /\
    ch_length ct' = ch_length (mkChunk NULL NULL 1 [0; 0; 0; 0]) /\
    words (chunks h') ([0%nat] ++ [length (chunks (fresh_one 4))])
    = words (chunks (fresh_one 4)) [0%nat] ++ [0].
Proof.
  apply (IT_next_with_extend_never_extends_tail 4 (fresh_one 4) 0 [0%nat]
           (mkIterator (Some 0%nat) (Some 0%nat) 0) 0 0
           (mkChunk NULL NULL 1 [0; 0; 0; 0]) 2).
  - lia.
  - apply containerb_sound. vm_compute. reflexivity.
  - reflexivity.
  - exists [], 0%nat, [], (mkChunk NULL NULL 1 [0; 0; 0; 0]).
    vm_compute. repeat split; discriminate.
  - vm_compute. reflexivity.
  - reflexivity.
  - vm_compute. reflexivity.
  - simpl. lia.
  - simpl. lia.
Defined.

Lemma add_main_words_length_ge carry wa wb :
  wa <> [] -> (length wb < length (add_main_words carry wa wb).1)%nat.
Proof.
  revert carry wa. induction wb as [|rv wb IH]; intros carry wa Hne;
    cbn [add_main_words].
  - destruct wa; [contradiction | simpl; lia].
  - destruct (add_word carry (hd 0 wa) rv) as [sum carry'].
    assert (extend (tl wa) <> []) as Hne' by (destruct (tl wa); discriminate).
    specialize (IH carry' (extend (tl wa)) Hne').
    destruct (add_main_words carry' (extend (tl wa)) wb) as [ws c].
    cbn [fst length] in *. lia.
Qed.

Lemma add_carry_words_length wa : (0 < length (add_carry_words wa))%nat.
Proof.
  destruct wa as [|lv wa]; cbn [add_carry_words]; [simpl; lia|].
  destruct (0 <? uadd 1 lv); simpl; lia.
Qed.

(** [add] leaves the accumulator with more words than the addend has. *)
Lemma add_words_length_gt wa wb : (length wb < length (add_words wa wb))%nat.
Proof.
  unfold add_words.
  assert (extend wa <> []) as Hne by (destruct wa; discriminate).
  pose proof (add_main_words_length_ge 0 (extend wa) wb Hne) as Hlen.
  destruct (add_main_words 0 (extend wa) wb) as [ws carry]. cbn [fst] in Hlen.
  destruct (carry =? 0); [exact Hlen|].
  rewrite length_app, length_take.
  pose proof (add_carry_words_length (drop (length wb) ws)). lia.
Qed.

Lemma lengths_kept_words_length C cs cs' l :
  lengths_kept l cs cs' -> chunks_ok C cs l -> chunks_ok C cs' l ->
  length (words cs' l) = length (words cs l).
Proof.
  induction l as [|x l IH]; intros Hkept Hok Hok'; [reflexivity|].
  apply chunks_ok_cons in Hok as [(c & Hc & Hcok) Hok].
  apply chunks_ok_cons in Hok' as [(c' & Hc' & Hcok') Hok'].
  rewrite !words_cons, !length_app. f_equal.
  - rewrite (words_at_lookup _ _ _ Hc), (words_at_lookup _ _ _ Hc').
    rewrite (chunk_words_length C c Hcok), (chunk_words_length C c' Hcok').
    destruct (Hkept x c) as (c'' & Hc'' & Hlen);
      [apply elem_of_cons; now left | exact Hc |].
    congruence.
  - apply IH; [|exact Hok | exact Hok'].
    intros y cy Hy. apply Hkept. apply elem_of_cons. now right.
Qed.

(** C4 (interior chunks stay full): the claim says [add] preserves the
    invariant.  Where the accumulator has no more words than the addend
    and its tail chunk has spare capacity, [add] appends a chunk behind
    that tail chunk and leaves the tail chunk's valid length below C: the
    invariant holds before the call and fails after it. *)
Theorem add_breaks_interior_full C h a b la lb t ct fuel :
  0 < C -> a <> b ->
  container C h a la -> container C h b lb ->
  (forall x, x ∈ la -> x ∉ lb) ->
  interior_full C (chunks h) la ->
  last la = Some t -> chunks h !! t = Some ct -> ch_length ct < C ->
  (length (words (chunks h) la) <= length (words (chunks h) lb))%nat ->
  (length la + length lb + 2 * length (words (chunks h) la)
   + 5 * length (words (chunks h) lb) + 5 <= fuel)%nat ->
  exists h' la',
    add C fuel (Some a) (Some b) h = Ok (Some a, h') /\
    container C h' a la' /\
    ~ interior_full C (chunks h') la'.
Proof.
  intros HC Hab Hca Hcb Hdisj _ Hlast Hct Hspare Hshort Hfuel.
  destruct (add_spec C h a b la lb HC Hab Hca Hcb Hdisj fuel Hfuel)
    as (h' & extra & Hadd & Hca' & _ & _ & Hkept & Hw).
  exists h', (la ++ extra). split; [exact Hadd|]. split; [exact Hca'|].
  intros Hfull.
  assert (extra <> []) as Hextra.
  { intros ->. rewrite app_nil_r in *.
    pose proof (add_words_length_gt (words (chunks h) la)
                  (words (chunks h) lb)) as Hgt.
    rewrite <- Hw in Hgt.
    destruct Hca as (_ & _ & _ & _ & _ & _ & Hok).
    destruct Hca' as (_ & _ & _ & _ & _ & _ & Hok').
    rewrite (lengths_kept_words_length C _ _ _ Hkept Hok Hok') in Hgt. lia. }
  apply last_Some in Hlast as [l0 ->].
  destruct (Hkept t ct) as (ct' & Hct' & Hlen);
    [apply elem_of_app; right; now apply list_elem_of_singleton
    | exact Hct |].
  assert (ch_length ct' = C); [|lia].
  apply (Hfull (length l0) t ct'); [| |exact Hct'].
  - destruct extra; [contradiction|]. rewrite !length_app. simpl. lia.
  - rewrite <- !app_assoc. rewrite lookup_app_r by lia.
    now rewrite Nat.sub_diag.
Qed.

Lemma add_breaks_interior_full_witness :
  exists h' la',
    add 4 20 (Some 0%nat) (Some 1%nat) (fresh_two 4) = Ok (Some 0%nat, h') /\
    container 4 h' 0 la' /\
    ~ interior_full 4 (chunks h') la'.
Proof.
  apply (add_breaks_interior_full 4 (fresh_two 4) 0 1 [0%nat] [1%nat] 0
           (mkChunk NULL NULL 1 [0; 0; 0; 0]) 20).
  - lia.
  - discriminate.
  - apply containerb_sound. vm_compute. reflexivity.
  - apply containerb_sound. vm_compute. reflexivity.
  - apply disjointb_sound. vm_compute. reflexivity.
  - intros i x c Hi. simpl in Hi. lia.
  - reflexivity.
  - vm_compute. reflexivity.
  - simpl. lia.
  - vm_compute. lia.
  - vm_compute. lia.
Defined.

(** ** Bulk load *)

(** C5 (cutting a chain that is too long): the claim says the chain is
    truncated at the cut chunk, which becomes the tail.  The loop that
    looks for the cut chunk never advances its counter and walks off the
    end of the chain: the first half of [setValue] stores NULL as the
    tail, cuts nothing, so that every chunk is still reachable, and stores
    a count below the number of chunks of the chain. *)
Theorem setValue_resize_cuts_nothing C h a l numChunks fuel :
  container C h a l ->
  0 < numChunks < Z.of_nat (length l) -> (length l < fuel)%nat ->
  exists h' b',
    setValue_resize C fuel (Some a) numChunks h = Ok (tt, h') /\
    bigints h' !! a = Some b' /\
    chunks h' = chunks h /\
    lseg (chunks h') (bi_first b') l NULL /\
    bi_last b' = NULL /\
    bi_length b' = numChunks /\
    bi_length b' < Z.of_nat (length l).
Proof.
  intros Hcont Hnum Hfuel.
  pose proof Hcont as (b & Hb & Hl & _).
  rewrite (setValue_resize_long C h a l b numChunks fuel Hcont Hb Hnum Hfuel).
  eexists _, _. split; [reflexivity|]. cbn [bigints chunks].
  split; [apply list_lookup_insert_eq; eapply lookup_lt_Some; exact Hb|].
  cbn [bi_first bi_last bi_length].
  split; [reflexivity|]. split; [exact Hl|]. split; [reflexivity|].
  split; [reflexivity | lia].
Qed.

Lemma setValue_resize_cuts_nothing_witness :
  exists h' b',
    setValue_resize 4 3 (Some 0%nat) 1 (grown_one 4) = Ok (tt, h') /\
    bigints h' !! 0%nat = Some b' /\
    chunks h' = chunks (grown_one 4) /\
    lseg (chunks h') (bi_first b') [0%nat; 2%nat] NULL /\
    bi_last b' = NULL /\
    bi_length b' = 1 /\
    bi_length b' < Z.of_nat (length [0%nat; 2%nat]).
Proof.
  apply (setValue_resize_cuts_nothing 4 (grown_one 4) 0 [0%nat; 2%nat] 1 3).
  - apply containerb_sound. vm_compute. reflexivity.
  - simpl. lia.
  - simpl. lia.
Defined.

(** The whole call on that container: one word is loaded into a chain of
    two chunks, and the copy reads the array past its one word. *)
Lemma setValue_grown_one_reads_past :
  setValue 4 20 (Some 0%nat) 1 (Some [7]) (grown_one 4) = Fault OutOfBounds.
Proof. vm_compute. reflexivity. Qed.

(** C6 (at least one chunk, and the count is the number of chunks): a
    load of no word succeeds and leaves the stored count at 0, with a
    chunk still in the chain: [lengthBigInt] answers 0 and the container
    invariant holds for no chain. *)
Theorem setValue_zero_breaks_invariant C h a l (ws : list Z) fuel :
  0 < C -> container C h a l -> (2 <= fuel)%nat ->
  exists h',
    setValue C fuel (Some a) 0 (Some ws) h = Ok (0, h') /\
    lengthBigInt (Some a) h' = Ok (0, h') /\
    forall l', ~ container C h' a l'.
Proof.
  intros HC Hcont Hfuel.
  destruct (setValue_zero C h a l ws fuel HC Hcont Hfuel)
    as (h' & b' & x & c' & Hrun & Hb' & Hlen & _).
  exists h'. split; [exact Hrun|]. split.
  - unfold lengthBigInt. cbn [is_null].
    eapply bind_ok; [apply load_bi_ok; exact Hb'|].
    unfold ret. now rewrite Hlen.
  - intros l' (b & Hb & _ & Hne & _ & Hcount & _).
    assert (b = b') as -> by congruence.
    destruct l'; [contradiction | simpl in Hcount; lia].
Qed.

Lemma setValue_zero_breaks_invariant_witness :
  exists h',
    setValue 4 2 (Some 0%nat) 0 (Some []) (fresh_one 4) = Ok (0, h') /\
    lengthBigInt (Some 0%nat) h' = Ok (0, h') /\
    forall l', ~ container 4 h' 0 l'.
Proof.
  apply (setValue_zero_breaks_invariant 4 (fresh_one 4) 0 [0%nat] [] 2).
  - lia.
  - apply containerb_sound. vm_compute. reflexivity.
  - lia.
Defined.

(** C8 (the copy takes min(C, words remaining) words per chunk and reads
    nothing past the array): the copy loop never takes the words copied
    off [length], so every chunk is given min(C, length) words.  A load of
    C + 1 words into a fresh container fills the second chunk too and
    reads the array at the index C + 1, past its end. *)
Theorem setValue_reads_past_array C h a x (ws : list Z) fuel :
  2 <= C -> container C h a [x] ->
  Z.of_nat (length ws) = C + 1 -> (Z.to_nat C + 2 < fuel)%nat ->
  setValue C fuel (Some a) (C + 1) (Some ws) h = Fault OutOfBounds.
Proof.
  intros HC (b & Hb & Hl & _ & Hlast & Hlen & Hok) Hws Hfuel.
  simpl in Hl. destruct Hl as (Hfirst & c & Hc & Hnext).
  apply chunks_ok_cons in Hok as [(c' & Hc' & [Hclen Hcap]) _].
  assert (c' = c) as -> by congruence.
  simpl in Hlen, Hlast.
  pose proof (lookup_lt_Some _ _ _ Hc) as Hx.
  pose proof (lookup_lt_Some _ _ _ Hb) as Ha.
  set (m := Z.to_nat C). assert (C = Z.of_nat m) as HCm by (unfold m; lia).
  set (n := length (chunks h)).
  set (c0 := mkChunk NULL NULL 0 (replicate (Z.to_nat C) 0)).
  set (h0 := mkHeap (chunks h ++ [c0]) (bigints h)).
  set (cx := mkChunk (ch_prev c) (Some n) (ch_length c) (ch_value c)).
  set (cn := mkChunk (Some x) NULL 0 (replicate (Z.to_nat C) 0)).
  set (b1 := mkBigInt (Some x) (Some n) (bi_parity b) (bi_length b + 1)).
  set (h1 := mkHeap (<[x := cx]> (<[n := cn]> (chunks h ++ [c0])))
                    (<[a := b1]> (bigints h))).
  assert (chunks h1 !! x = Some cx) as Hx1.
  { apply list_lookup_insert_eq. rewrite length_insert, length_app. lia. }
  assert (forall (cs : list Chunk) d, (<[x := d]> cs) !! n = cs !! n) as Hn_x.
  { intros cs d. apply list_lookup_insert_ne. unfold n. lia. }
  destruct fuel as [|[|fuel]]; [lia..|].
  unfold setValue. rewrite numChunks_two by exact HC.
  (* the chain is extended to two chunks *)
  assert (setValue_resize C (S (S fuel)) (Some a) 2 h = Ok (tt, h1)) as Hres.
  { unfold setValue_resize.
    eapply bind_ok; [apply load_bi_ok; exact Hb|].
    rewrite Hlen. change (2 <? Z.of_nat 1) with false. cbv iota.
    erewrite (while_true _ _ _ _ tt h h1).
    - apply while_false.
      eapply bind_ok;
        [apply load_bi_ok; simpl; apply list_lookup_insert_eq; exact Ha|].
      simpl. now rewrite Hlen.
    - eapply bind_ok; [apply load_bi_ok; exact Hb|]. now rewrite Hlen.
    - eapply bind_ok; [reflexivity|]. fold n c0 h0.
      eapply bind_ok; [|reflexivity].
      rewrite (append_ok h0 a b x c n c0 Hb);
        [ | now rewrite <- Hlast
          | simpl; rewrite lookup_app_l by exact Hx; exact Hc
          | simpl; apply list_lookup_middle; reflexivity
          | unfold n; lia ].
      unfold h1, b1, cx, cn. simpl. now rewrite Hfirst. }
  eapply bind_ok; [exact Hres|]. apply bind_fault.
  (* the copy *)
  unfold setValue_copy.
  eapply bind_ok; [apply load_bi_ok; simpl; apply list_lookup_insert_eq; exact Ha|].
  cbn [bi_first b1]. apply bind_fault.
  set (cx' := mkChunk (ch_prev cx) (ch_next cx) (Z.of_nat m)
                      (copy_into (ch_value cx) 0 (take m (drop 0 ws)))).
  set (h2 := mkHeap (<[x := cx']> (chunks h1)) (bigints h1)).
  erewrite (while_true _ _ _ _ (Some n, Z.of_nat (0 + m)) h1 h2).
  - apply while_body_fault; [reflexivity|]. cbv beta iota.
    rewrite MIN_le_r by lia. rewrite HCm at 1.
    apply (setValue_copy_body_oob ws n cn (S (S fuel)) m (0 + m) h2).
    + unfold h2. cbn [chunks]. rewrite Hn_x. unfold h1. cbn [chunks].
      rewrite Hn_x. apply list_lookup_insert_eq. rewrite length_app.
      unfold n. simpl. lia.
    + simpl. rewrite length_replicate. unfold m. lia.
    + lia.
    + unfold m. lia.
  - reflexivity.
  - cbv beta iota. rewrite MIN_le_r by lia. rewrite HCm at 1.
    apply (setValue_copy_body_ok ws x cx (S (S fuel)) m 0 h1 Hx1).
    + simpl. lia.
    + lia.
    + unfold m. lia.
Qed.

Lemma setValue_reads_past_array_witness :
  setValue 4 7 (Some 0%nat) (4 + 1) (Some [1; 2; 3; 4; 5]) (fresh_one 4)
  = Fault OutOfBounds.
Proof.
  apply (setValue_reads_past_array 4 (fresh_one 4) 0 0%nat [1; 2; 3; 4; 5] 7).
  - lia.
  - apply containerb_sound. vm_compute. reflexivity.
  - reflexivity.
  - simpl. lia.
Defined.

(** ** Rendering *)

(** C9 (the size of the buffer): the claim says the buffer has
    chunk-count * C * 8 + 1 characters.  [toString] allocates
    1 + chunk-count * C characters, one per word of capacity where a word
    takes eight: on a one-chunk container holding more than C / 8 words
    the digits are written past the end of the buffer. *)
Theorem toString_overflows C h a b x c fuel :
  container C h a [x] -> bigints h !! a = Some b ->
  chunks h !! x = Some c ->
  C < charsPerUint * ch_length c ->
  (Z.to_nat (ch_length c) + 1 < fuel)%nat ->
  toString_numChars C b = 1 + C /\
  toString_numChars C b < bi_length b * C * charsPerUint + 1 /\
  toString C fuel (Some a) h = Fault OutOfBounds.
Proof.
  intros Hcont Hb Hc Hover Hfuel.
  assert (charsPerUint = 8) as H8 by reflexivity. rewrite H8 in *.
  pose proof Hcont as (b' & Hb' & _ & _ & _ & Hlen & Hok).
  assert (b' = b) as -> by congruence. simpl in Hlen.
  apply chunks_ok_cons in Hok as [(c' & Hc' & [Hclen Hcap]) _].
  assert (c' = c) as -> by congruence.
  unfold toString_numChars. rewrite Hlen.
  split; [lia|]. split; [lia|].
  rewrite (toString_single C h a x c fuel Hcont Hc Hfuel). cbv zeta.
  rewrite length_replicate.
  destruct (decide _) as [[H0|Hfit]|_]; [lia | lia | reflexivity].
Qed.

Lemma toString_overflows_witness :
  toString_numChars 4 (mkBigInt (Some 0%nat) (Some 0%nat) 1 1) = 1 + 4 /\
  toString_numChars 4 (mkBigInt (Some 0%nat) (Some 0%nat) 1 1)
  < bi_length (mkBigInt (Some 0%nat) (Some 0%nat) 1 1) * 4 * charsPerUint + 1 /\
  toString 4 3 (Some 0%nat) (fresh_one 4) = Fault OutOfBounds.
Proof.
  apply (toString_overflows 4 (fresh_one 4) 0
           (mkBigInt (Some 0%nat) (Some 0%nat) 1 1) 0%nat
           (mkChunk NULL NULL 1 [0; 0; 0; 0]) 3).
  - apply containerb_sound. vm_compute. reflexivity.
  - reflexivity.
  - reflexivity.
  - vm_compute. reflexivity.
  - simpl. lia.
Defined.

(** C7, as amended (load, then render): on a one-chunk container, for one
    to C / 8 words, [setValue] followed by [toString] gives the string of
    the words' digits in array order, eight lowercase hexadecimal digits
    for each word, the least significant nibble first, and a NUL after
    them. *)
Theorem setValue_toString_little_endian C h a x (ws : list Z) fuel :
  container C h a [x] -> ws <> [] ->
  charsPerUint * Z.of_nat (length ws) <= C ->
  (length ws + 1 < fuel)%nat ->
  exists h' buf,
    setValue C fuel (Some a) (Z.of_nat (length ws)) (Some ws) h = Ok (0, h') /\
    toString C fuel (Some a) h' = Ok (Some buf, h') /\
    c_string buf = Some (hex_words_le ws).
Proof.
  intros Hcont Hne Hfit Hfuel.
  assert (charsPerUint = 8) as H8 by reflexivity. rewrite H8 in Hfit.
  assert (1 <= length ws)%nat as H1 by (destruct ws; [contradiction | simpl; lia]).
  destruct (setValue_single C h a x ws (length ws) fuel Hcont H1)
    as (h' & Hset & Hcont' & Hw & _); [lia | lia | exact Hfuel |].
  rewrite firstn_all in Hw.
  pose proof Hcont' as (_ & _ & _ & _ & _ & _ & Hok).
  apply chunks_ok_cons in Hok as [(c & Hc & Hcok) _].
  rewrite words_singleton, (words_at_lookup _ _ _ Hc) in Hw.
  pose proof (chunk_words_length C c Hcok) as Hn. rewrite Hw in Hn.
  exists h', (render_into (replicate (Z.to_nat (1 + 1 * C)) None) 0 ws).
  split; [exact Hset|]. split.
  - rewrite (toString_single C h' a x c fuel Hcont' Hc) by lia. cbv zeta.
    rewrite length_replicate, Hw.
    destruct (decide _) as [_|Hno]; [reflexivity | lia].
  - apply c_string_render; [exact Hne | lia].
Qed.

Lemma setValue_toString_little_endian_witness :
  exists h' buf,
    setValue 16 4 (Some 0%nat) (Z.of_nat (length [1; 2882400018]))
             (Some [1; 2882400018]) (fresh_one 16) = Ok (0, h') /\
    toString 16 4 (Some 0%nat) h' = Ok (Some buf, h') /\
    c_string buf = Some (hex_words_le [1; 2882400018]).
Proof.
  apply (setValue_toString_little_endian 16 (fresh_one 16) 0 0%nat
           [1; 2882400018] 4).
  - apply containerb_sound. vm_compute. reflexivity.
  - discriminate.
  - vm_compute. discriminate.
  - simpl. lia.
Defined.

(** C7 as stated fails on the one word 1, in a container of capacity 8:
    the string is [10000000], where the most significant nibble first
    gives [00000001]. *)
Lemma setValue_toString_one_reversed :
  exists h' buf,
    setValue 8 4 (Some 0%nat) 1 (Some [1]) (fresh_one 8) = Ok (0, h') /\
    toString 8 4 (Some 0%nat) h' = Ok (Some buf, h') /\
    c_string buf = Some (list_ascii_of_string "10000000") /\
    hex_word_be 1 = list_ascii_of_string "00000001" /\
    c_string buf <> Some (hex_word_be 1).
Proof.
  eexists _, _. split; [vm_compute; reflexivity|].
  split; [vm_compute; reflexivity|].
  split; [vm_compute; reflexivity|].
  split; [vm_compute; reflexivity|].
  vm_compute. discriminate.
Qed.

(** ** What the code does establish *)

(** *** The number [add] leaves, where no carry is lost *)

Lemma uint_modulus_pos : 0 < uint_modulus.
Proof. reflexivity. Qed.

Lemma number_app ws1 ws2 :
  number (ws1 ++ ws2)
  = number ws1 + uint_modulus ^ Z.of_nat (length ws1) * number ws2.
Proof.
  induction ws1 as [|w ws1 IH]; [simpl; lia|].
  cbn [app number length]. rewrite IH, Nat2Z.inj_succ, Z.pow_succ_r by lia.
  ring.
Qed.

Lemma number_hd_tl ws : number ws = hd 0 ws + uint_modulus * number (tl ws).
Proof. destruct ws; reflexivity. Qed.

Lemma number_extend ws : number (extend ws) = number ws.
Proof. destruct ws; reflexivity. Qed.

Lemma in_range_extend ws : in_range ws -> in_range (extend ws).
Proof.
  destruct ws; [|auto]. intros _. constructor; [|constructor].
  pose proof uint_modulus_pos. lia.
Qed.

Lemma in_range_hd_tl ws :
  in_range ws -> 0 <= hd 0 ws < uint_modulus /\ in_range (tl ws).
Proof.
  destruct ws; simpl.
  - intros _. pose proof uint_modulus_pos. split; [lia | constructor].
  - intros H. inversion H; subst. auto.
Qed.

Lemma uadd_range a b : 0 <= uadd a b < uint_modulus.
Proof. unfold uadd. apply Z.mod_pos_bound. reflexivity. Qed.

Lemma add_carry_words_number r :
  in_range r -> number (add_carry_words r) = 1 + number r.
Proof.
  induction r as [|lv r IH]; intros Hr; [reflexivity|].
  inversion Hr as [|? ? Hlv Hr']; subst. cbn [add_carry_words number].
  assert (uint_modulus = 4294967296) as HM by reflexivity.
  unfold uadd. destruct (Z.eq_dec lv (uint_modulus - 1)) as [->|Hne].
  - replace ((1 + (uint_modulus - 1)) mod uint_modulus) with 0
      by (rewrite HM; reflexivity).
    cbn [Z.ltb Z.compare number]. rewrite (IH Hr'). lia.
  - rewrite Z.mod_small by lia.
    destruct (Z.ltb_spec 0 (1 + lv)); [|lia]. cbn [number]. lia.
Qed.

Lemma add_main_words_number carry wa wb :
  carry = 0 \/ carry = 1 ->
  in_range wa -> in_range wb -> Forall (fun w => w <> UINT_MAX) wb ->
  let n := length wb in
  let ws := (add_main_words carry wa wb).1 in
  let c := (add_main_words carry wa wb).2 in
  (c = 0 \/ c = 1) /\ in_range ws /\
  number (take n ws)
  + uint_modulus ^ Z.of_nat n * (c + number (drop n ws))
  = carry + number wa + number wb.
Proof.
  revert carry wa. induction wb as [|rv wb IH]; intros carry wa Hc Hwa Hwb Hno;
    cbn [add_main_words length].
  - cbn [fst snd]. split; [exact Hc|]. split; [exact Hwa|].
    rewrite take_0, drop_0. cbn [number]. change (Z.of_nat 0) with 0.
    rewrite Z.pow_0_r. lia.
  - inversion Hwb as [|? ? Hrv Hwb']; subst.
    inversion Hno as [|? ? Hrv' Hno']; subst.
    destruct (in_range_hd_tl wa Hwa) as [Hlv Htl].
    destruct (add_word_spec carry (hd 0 wa) rv Hc Hlv Hrv) as [Hsum Hcar].
    assert ((add_word carry (hd 0 wa) rv).2
            = (carry + hd 0 wa + rv) / uint_modulus) as Hcarry
      by (apply Hcar; intros (_ & _ & ?); contradiction).
    clear Hcar.
    destruct (add_word carry (hd 0 wa) rv) as [sum carry'].
    cbn [fst snd] in Hsum, Hcarry.
    assert (uint_modulus = 4294967296) as HM by reflexivity.
    assert (carry' = 0 \/ carry' = 1) as Hc'.
    { subst carry'.
      assert (0 <= (carry + hd 0 wa + rv) / uint_modulus < 2); [|lia].
      split; [apply Z.div_pos; lia | apply Z.div_lt_upper_bound; lia]. }
    specialize (IH carry' (extend (tl wa)) Hc' (in_range_extend _ Htl) Hwb' Hno').
    cbv zeta in IH.
    destruct (add_main_words carry' (extend (tl wa)) wb) as [ws c].
    cbn [fst snd] in *. destruct IH as (Hcc & Hws & Hnum).
    split; [exact Hcc|]. split.
    { constructor; [|exact Hws]. subst sum. apply Z.mod_pos_bound. lia. }
    cbn [take drop number]. rewrite Nat2Z.inj_succ, Z.pow_succ_r by lia.
    rewrite number_extend in Hnum.
    rewrite (number_hd_tl wa).
    pose proof (Z.div_mod (carry + hd 0 wa + rv) uint_modulus) as Hdm.
    rewrite <- Hsum, <- Hcarry in Hdm.
    transitivity (sum + uint_modulus *
        (number (take (length wb) ws) +
         uint_modulus ^ Z.of_nat (length wb) *
           (c + number (drop (length wb) ws)))); [ring|].
    rewrite Hnum. lia.
Qed.

Lemma add_words_number wa wb :
  in_range wa -> in_range wb -> Forall (fun w => w <> UINT_MAX) wb ->
  number (add_words wa wb) = number wa + number wb.
Proof.
  intros Hwa Hwb Hno. unfold add_words.
  assert (extend wa <> []) as Hne by (destruct wa; discriminate).
  pose proof (add_main_words_length_ge 0 (extend wa) wb Hne) as Hlen.
  pose proof (add_main_words_number 0 (extend wa) wb (or_introl eq_refl)
                (in_range_extend _ Hwa) Hwb Hno) as H.
  cbv zeta in H.
  destruct (add_main_words 0 (extend wa) wb) as [ws carry].
  cbn [fst snd] in *. destruct H as (Hc & Hws & Hnum).
  rewrite number_extend in Hnum.
  destruct Hc as [-> | ->]; cbn [Z.eqb].
  - rewrite <- (take_drop (length wb) ws) at 1.
    rewrite number_app, length_take, Nat.min_l by lia. lia.
  - rewrite number_app, length_take, Nat.min_l by lia.
    rewrite add_carry_words_number; [lia|].
    unfold in_range in *. now apply Forall_drop.
Qed.

(** *** Construction *)

Lemma lookup_at_end {A} (l : list A) x : (l ++ [x]) !! length l = Some x.
Proof. now rewrite list_lookup_middle. Qed.

Lemma insert_at_end {A} (l : list A) x y : <[length l := y]> (l ++ [x]) = l ++ [y].
Proof.
  replace (length l) with (length l + 0)%nat at 1 by lia.
  now rewrite insert_app_r.
Qed.

Lemma newBigInt_ok C h :
  0 < C ->
  newBigInt C h
  = Ok (Some (length (bigints h)),
        mkHeap (chunks h ++ [mkChunk NULL NULL 1 (replicate (Z.to_nat C) 0)])
               (bigints h ++ [mkBigInt (Some (length (chunks h)))
                                       (Some (length (chunks h))) 1 1])).
Proof.
  intros HC. unfold newBigInt.
  eapply bind_ok; [reflexivity|].
  eapply bind_ok; [reflexivity|].
  unfold set_first, set_last, set_parity, set_bi_length.
  repeat (eapply bind_ok;
          [eapply bind_ok;
           [apply load_bi_ok; cbn [bigints chunks]; apply lookup_at_end|];
           eapply store_bi_ok; cbn [bigints chunks]; apply lookup_at_end|];
          cbn [bigints chunks bi_first bi_last bi_parity bi_length];
          rewrite insert_at_end).
  eapply bind_ok; [apply set_prev_ok; cbn [chunks]; apply lookup_at_end|].
  cbn [chunks bigints ch_prev ch_next ch_length ch_value]. rewrite insert_at_end.
  eapply bind_ok; [apply set_next_ok; cbn [chunks]; apply lookup_at_end|].
  cbn [chunks bigints ch_prev ch_next ch_length ch_value]. rewrite insert_at_end.
  eapply bind_ok; [apply set_length_ok; cbn [chunks]; apply lookup_at_end|].
  cbn [chunks bigints ch_prev ch_next ch_length ch_value]. rewrite insert_at_end.
  eapply bind_ok.
  { apply set_value_ok; [cbn [chunks]; apply lookup_at_end|].
    cbn [ch_value]. rewrite length_replicate. lia. }
  cbn [chunks bigints ch_prev ch_next ch_length ch_value].
  rewrite insert_at_end, insert_replicate. reflexivity.
Qed.

(** [newBigInt] gives a valid container of one chunk that holds the one
    word 0, and [lengthBigInt] answers 1 for it. *)
Theorem newBigInt_container C h :
  0 < C ->
  exists h',
    newBigInt C h = Ok (Some (length (bigints h)), h') /\
    container C h' (length (bigints h)) [length (chunks h)] /\
    words (chunks h') [length (chunks h)] = [0] /\
    lengthBigInt (Some (length (bigints h))) h' = Ok (1, h').
Proof.
  intros HC. eexists. split; [apply newBigInt_ok; exact HC|].
  split; [|split].
  - eexists. split; [apply lookup_at_end|]. cbn [chunks bigints bi_first bi_last bi_length].
    split.
    { split; [reflexivity|]. eexists. split; [apply lookup_at_end|]. reflexivity. }
    split; [discriminate|]. split; [reflexivity|]. split; [reflexivity|].
    intros y Hy. apply list_elem_of_singleton in Hy as ->.
    eexists. split; [apply lookup_at_end|].
    split; cbn [ch_length ch_value]; [lia|]. rewrite length_replicate. lia.
  - rewrite words_singleton. cbn [chunks].
    rewrite (words_at_lookup _ _ _ (lookup_at_end _ _)).
    unfold chunk_words. cbn [ch_length ch_value].
    assert (Z.to_nat C = S (Z.to_nat C - 1)) as -> by lia. reflexivity.
  - unfold lengthBigInt. cbn [is_null].
    eapply bind_ok; [apply load_bi_ok; apply lookup_at_end|]. reflexivity.
Qed.

(** *** Extra properties *)

(** Away from a carry into two all-ones words, the carry test of [add] is
    exact: the word written is the sum modulo 2^32 and the carry kept is
    the carry out. *)
Theorem add_word_exact carry lv rv :
  carry = 0 \/ carry = 1 ->
  0 <= lv < uint_modulus -> 0 <= rv < uint_modulus ->
  ~ (carry = 1 /\ lv = UINT_MAX /\ rv = UINT_MAX) ->
  add_word carry lv rv
  = ((carry + lv + rv) mod uint_modulus, (carry + lv + rv) / uint_modulus).
Proof.
  intros Hc Hlv Hrv Hno.
  destruct (add_word_spec carry lv rv Hc Hlv Hrv) as [Hsum Hcarry].
  apply Hcarry in Hno. destruct (add_word carry lv rv) as [sum carry'].
  cbn [fst snd] in *. congruence.
Qed.

Lemma add_word_exact_witness :
  add_word 1 UINT_MAX 5
  = ((1 + UINT_MAX + 5) mod uint_modulus, (1 + UINT_MAX + 5) / uint_modulus).
Proof.
  assert (uint_modulus = 4294967296) as HM by reflexivity.
  assert (UINT_MAX = 4294967295) as HU by reflexivity.
  apply (add_word_exact 1 UINT_MAX 5).
  - right. reflexivity.
  - lia.
  - lia.
  - lia.
Defined.

(** For distinct valid containers that share no chunk, [add] returns the
    accumulator, leaves the addend as it was, and, where no word of the
    addend is the all-ones word, leaves in the accumulator the sum of the
    two numbers. *)
Theorem add_computes_sum C h a b la lb fuel :
  0 < C -> a <> b ->
  container C h a la -> container C h b lb ->
  (forall x, x ∈ la -> x ∉ lb) ->
  in_range (words (chunks h) la) -> in_range (words (chunks h) lb) ->
  Forall (fun w => w <> UINT_MAX) (words (chunks h) lb) ->
  (length la + length lb + 2 * length (words (chunks h) la)
   + 5 * length (words (chunks h) lb) + 5 <= fuel)%nat ->
  exists h' la',
    add C fuel (Some a) (Some b) h = Ok (Some a, h') /\
    container C h' a la' /\ container C h' b lb /\
    words (chunks h') lb = words (chunks h) lb /\
    number (words (chunks h') la')
    = number (words (chunks h) la) + number (words (chunks h) lb).
Proof.
  intros HC Hab Hca Hcb Hdisj Hwa Hwb Hno Hfuel.
  destruct (add_spec C h a b la lb HC Hab Hca Hcb Hdisj fuel Hfuel)
    as (h' & extra & Hadd & Hca' & Hcb' & Hwb' & _ & Hw).
  exists h', (la ++ extra). split; [exact Hadd|]. split; [exact Hca'|].
  split; [exact Hcb'|]. split; [exact Hwb'|].
  rewrite Hw. now apply add_words_number.
Qed.

Lemma add_computes_sum_witness :
  exists h' la',
    add 4 30 (Some 0%nat) (Some 1%nat) (loaded_two 4 [UINT_MAX; 5] [1; 7])
    = Ok (Some 0%nat, h') /\
    container 4 h' 0 la' /\ container 4 h' 1 [1%nat] /\
    words (chunks h') [1%nat]
    = words (chunks (loaded_two 4 [UINT_MAX; 5] [1; 7])) [1%nat] /\
    number (words (chunks h') la')
    = number (words (chunks (loaded_two 4 [UINT_MAX; 5] [1; 7])) [0%nat])
      + number (words (chunks (loaded_two 4 [UINT_MAX; 5] [1; 7])) [1%nat]).
Proof.
  assert (words (chunks (loaded_two 4 [UINT_MAX; 5] [1; 7])) [0%nat]
          = [4294967295; 5]) as Hwa by (vm_compute; reflexivity).
  assert (words (chunks (loaded_two 4 [UINT_MAX; 5] [1; 7])) [1%nat]
          = [1; 7]) as Hwb by (vm_compute; reflexivity).
  assert (uint_modulus = 4294967296) as HM by reflexivity.
  apply (add_computes_sum 4 (loaded_two 4 [UINT_MAX; 5] [1; 7])
           0 1 [0%nat] [1%nat] 30).
  - lia.
  - discriminate.
  - apply containerb_sound. vm_compute. reflexivity.
  - apply containerb_sound. vm_compute. reflexivity.
  - apply disjointb_sound. vm_compute. reflexivity.
  - rewrite Hwa. repeat constructor; lia.
  - rewrite Hwb. repeat constructor; lia.
  - rewrite Hwb. repeat constructor; discriminate.
  - rewrite Hwa, Hwb. simpl. lia.
Defined.

Lemma newBigInt_container_witness :
  exists h',
    newBigInt 4 empty_heap = Ok (Some (length (bigints empty_heap)), h') /\
    container 4 h' (length (bigints empty_heap))
              [length (chunks empty_heap)] /\
    words (chunks h') [length (chunks empty_heap)] = [0] /\
    lengthBigInt (Some (length (bigints empty_heap))) h' = Ok (1, h').
Proof. apply (newBigInt_container 4 empty_heap). lia. Defined.

(** *** The iterator *)

(** Writing through a cursor and reading back: [IT_set] at word [k]
    replaces that word and no other, keeps the container valid, and
    [IT_get] then returns the value written. *)
Theorem IT_set_then_get C h a l it k v :
  container C h a l -> cursor (chunks h) l it k ->
  exists h',
    IT_set it v h = Ok (true, h') /\
    IT_get it h' = Ok (v, h') /\
    container C h' a l /\
    words (chunks h') l = <[k := v]> (words (chunks h) l).
Proof.
  intros Hcont Hcur.
  pose proof Hcont as (b & Hb & Hl & _ & _ & _ & Hok).
  pose proof (lseg_NoDup _ _ _ Hl) as Hnd.
  pose proof (cursor_lt C _ _ _ _ Hok Hcur) as Hk.
  destruct (IT_set_spec C h l it k v Hok Hnd Hcur)
    as (x & h' & _ & _ & Hset & Hbi & Hshape & _ & Hw).
  exists h'. split; [exact Hset|].
  pose proof (same_shape_chunks_ok C _ _ _ Hshape Hok) as Hok'.
  pose proof (same_shape_cursor C _ _ _ _ _ Hshape Hok Hcur) as Hcur'.
  destruct (IT_get_spec C h' l it k Hok' Hcur') as (v' & Hget & Hv').
  rewrite Hw, list_lookup_insert_eq in Hv' by exact Hk.
  injection Hv' as <-.
  split; [exact Hget|]. split; [|exact Hw].
  eapply container_same_shape; eassumption.
Qed.

Lemma IT_set_then_get_witness :
  exists h',
    IT_set (mkIterator (Some 0%nat) (Some 0%nat) 0) 7 (fresh_one 4)
    = Ok (true, h') /\
    IT_get (mkIterator (Some 0%nat) (Some 0%nat) 0) h' = Ok (7, h') /\
    container 4 h' 0 [0%nat] /\
    words (chunks h') [0%nat]
    = <[0%nat := 7]> (words (chunks (fresh_one 4)) [0%nat]).
Proof.
  apply (IT_set_then_get 4 (fresh_one 4) 0 [0%nat]
           (mkIterator (Some 0%nat) (Some 0%nat) 0) 0 7).
  - apply containerb_sound. vm_compute. reflexivity.
  - exists [], 0%nat, [], (mkChunk NULL NULL 1 [0; 0; 0; 0]).
    vm_compute. repeat split; discriminate.
Defined.

Lemma nth_cursor_spec C h a l fuel k :
  container C h a l -> (length l < fuel)%nat ->
  (k < length (words (chunks h) l))%nat ->
  exists it,
    nth_cursor fuel (Some a) k h = Ok (Some it, h) /\
    it_obj it = Some a /\ cursor (chunks h) l it k.
Proof.
  intros Hcont Hfuel. pose proof Hcont as (b & Hb & Hl & _ & _ & _ & Hok).
  induction k as [|k IH]; intros Hk; cbn [nth_cursor].
  - destruct (iterate_spec C h a l fuel Hcont Hfuel)
      as (it & Hit & Hobj & _ & [Hcur | [_ Hnil]]).
    + now exists it.
    + rewrite Hnil in Hk. simpl in Hk. lia.
  - destruct IH as (it & Hrun & Hobj & Hcur); [lia|].
    destruct (IT_next_spec C h l _ it k fuel Hl Hok Hcur Hfuel)
      as (r & it' & Hnext & Hobj' & [(_ & -> & Hcur') | (Hend & _)]); [|lia].
    exists it'. split; [|split; [congruence | exact Hcur']].
    eapply bind_ok; [exact Hrun|]. cbv beta iota.
    eapply bind_ok; [exact Hnext|]. reflexivity.
Qed.

(** Walking a container: after [iterate] and [k] calls of [IT_next],
    [IT_get] reads word [k] of the container, empty chunks skipped, and
    nothing has been written; the call of [IT_next] after the last word
    returns NULL. *)
Theorem traversal_reads_words C h a l fuel k w :
  container C h a l -> (length l < fuel)%nat ->
  words (chunks h) l !! k = Some w ->
  exists it,
    nth_cursor fuel (Some a) k h = Ok (Some it, h) /\
    IT_get it h = Ok (w, h) /\
    nth_cursor fuel (Some a) (length (words (chunks h) l)) h = Ok (None, h).
Proof.
  intros Hcont Hfuel Hw.
  pose proof Hcont as (b & Hb & Hl & _ & _ & _ & Hok).
  pose proof (lookup_lt_Some _ _ _ Hw) as Hk.
  destruct (nth_cursor_spec C h a l fuel k Hcont Hfuel Hk)
    as (it & Hrun & _ & Hcur).
  exists it. split; [exact Hrun|]. split.
  - destruct (IT_get_spec C h l it k Hok Hcur) as (v & Hget & Hv).
    congruence.
  - destruct (length (words (chunks h) l)) as [|n] eqn:Hn; [lia|].
    destruct (nth_cursor_spec C h a l fuel n Hcont Hfuel) as (itn & Hrunn & _ & Hcurn);
      [lia|].
    destruct (IT_next_spec C h l _ itn n fuel Hl Hok Hcurn Hfuel)
      as (r & it' & Hnext & _ & [(Hlt & _) | (_ & -> & _)]); [lia|].
    cbn [nth_cursor]. eapply bind_ok; [exact Hrunn|]. cbv beta iota.
    eapply bind_ok; [exact Hnext|]. reflexivity.
Qed.

Lemma traversal_reads_words_witness :
  exists it,
    nth_cursor 2 (Some 0%nat) 1 (loaded_two 4 [5; 6] [1])
    = Ok (Some it, loaded_two 4 [5; 6] [1]) /\
    IT_get it (loaded_two 4 [5; 6] [1]) = Ok (6, loaded_two 4 [5; 6] [1]) /\
    nth_cursor 2 (Some 0%nat)
               (length (words (chunks (loaded_two 4 [5; 6] [1])) [0%nat]))
               (loaded_two 4 [5; 6] [1])
    = Ok (None, loaded_two 4 [5; 6] [1]).
Proof.
  apply (traversal_reads_words 4 (loaded_two 4 [5; 6] [1]) 0 [0%nat] 2 1 6).
  - apply containerb_sound. vm_compute. reflexivity.
  - simpl. lia.
  - vm_compute. reflexivity.
Defined.

(** Advancing with growth from any cursor: the call always leaves a
    cursor at the next word, the container valid, the words before it
    unchanged and a zero word appended when the cursor stood at the last
    word. *)
Theorem IT_next_with_extend_grows C h a l it k fuel :
  0 < C -> container C h a l -> it_obj it = Some a ->
  cursor (chunks h) l it k -> (length l < fuel)%nat ->
  exists it' h' l',
    IT_next_with_extend C fuel it h = Ok (it', h') /\
    container C h' a l' /\
    cursor (chunks h') l' it' (S k) /\
    words (chunks h') l'
    = (if decide (S k < length (words (chunks h) l))%nat
       then words (chunks h) l else words (chunks h) l ++ [0]) /\
    IT_get it' h' = Ok (nth (S k) (words (chunks h) l) 0, h').
Proof.
  intros HC Hcont Hobj Hcur Hfuel.
  destruct (IT_next_with_extend_spec C h a l it k fuel HC Hcont Hobj Hcur Hfuel)
    as (it' & h' & l' & Hrun & _ & Hcont' & Hcur' & Hw & _ & _).
  exists it', h', l'. split; [exact Hrun|]. split; [exact Hcont'|].
  split; [exact Hcur'|]. split; [exact Hw|].
  pose proof Hcont as (_ & _ & _ & _ & _ & _ & Hok).
  pose proof Hcont' as (_ & _ & _ & _ & _ & _ & Hok').
  pose proof (cursor_lt C _ _ _ _ Hok Hcur) as Hk.
  destruct (IT_get_spec C h' l' it' (S k) Hok' Hcur') as (v & Hget & Hv).
  rewrite Hget. do 2 f_equal. rewrite Hw in Hv. unfold grow in Hv.
  destruct (decide _) as [Hlt|Hge].
  - symmetry. now apply nth_lookup_Some with (d := 0) in Hv.
  - rewrite nth_overflow by (simpl; lia).
    rewrite lookup_app_r in Hv by lia.
    replace (S k - length (words (chunks h) l))%nat with 0%nat in Hv by lia.
    simpl in Hv. congruence.
Qed.

Lemma IT_next_with_extend_grows_witness :
  exists it' h' l',
    IT_next_with_extend 4 2 (mkIterator (Some 0%nat) (Some 0%nat) 0)
                        (fresh_one 4) = Ok (it', h') /\
    container 4 h' 0 l' /\
    cursor (chunks h') l' it' 1 /\
    words (chunks h') l'
    = (if decide (1 < length (words (chunks (fresh_one 4)) [0%nat]))%nat
       then words (chunks (fresh_one 4)) [0%nat]
       else words (chunks (fresh_one 4)) [0%nat] ++ [0]) /\
    IT_get it' h' = Ok (nth 1 (words (chunks (fresh_one 4)) [0%nat]) 0, h').
Proof.
  apply (IT_next_with_extend_grows 4 (fresh_one 4) 0 [0%nat]
           (mkIterator (Some 0%nat) (Some 0%nat) 0) 0 2).
  - lia.
  - apply containerb_sound. vm_compute. reflexivity.
  - reflexivity.
  - exists [], 0%nat, [], (mkChunk NULL NULL 1 [0; 0; 0; 0]).
    vm_compute. repeat split; discriminate.
  - simpl. lia.
Defined.

(** *** Freeing *)

Lemma is_freed_chunks l x :
  is_freed (map FreedChunk l) x = true -> x ∈ l.
Proof.
  induction l as [|y l IH]; cbn; [discriminate|].
  destruct (Nat.eqb_spec x y) as [->|Hne]; cbn.
  - intros _. apply elem_of_cons. now left.
  - intros H. apply elem_of_cons. right. now apply IH.
Qed.

Lemma freeBigInt_loop cs l2 :
  forall l1 p fuel h,
    chunks h = cs -> lseg cs p l2 NULL -> NoDup (l1 ++ l2) ->
    (length l2 < fuel)%nat ->
    while fuel
      (fun '(chunk, log) => ret (negb (is_null chunk)))
      (fun '(chunk, log) =>
         c <- load_live log chunk ;;
         let next := ch_next c in
         log <- free_chunk log chunk ;;
         ret (next, log))
      (p, map FreedChunk l1) h
    = Ok ((NULL, map FreedChunk (l1 ++ l2)), h).
Proof.
  induction l2 as [|x l2 IH]; intros l1 p fuel h Hcs Hl Hnd Hfuel;
    (destruct fuel as [|fuel]; [simpl in Hfuel; lia|]).
  - simpl in Hl. subst p. rewrite app_nil_r. now apply while_false.
  - destruct Hl as (-> & c & Hc & Hl).
    assert (is_freed (map FreedChunk l1) x = false) as Hlive.
    { destruct (is_freed (map FreedChunk l1) x) eqn:E; [|reflexivity].
      apply is_freed_chunks in E. apply NoDup_app in Hnd as (_ & Hnd & _).
      exfalso. apply (Hnd x E). apply elem_of_cons. now left. }
    erewrite while_true; [|reflexivity|].
    2:{ eapply bind_ok.
        { unfold load_live. rewrite Hlive. apply load_ok. rewrite Hcs. exact Hc. }
        cbv zeta. eapply bind_ok; [|reflexivity].
        unfold free_chunk. rewrite Hlive.
        eapply bind_ok; [apply load_ok; rewrite Hcs; exact Hc | reflexivity]. }
    replace (map FreedChunk l1 ++ [FreedChunk x])
      with (map FreedChunk (l1 ++ [x])) by now rewrite map_app.
    rewrite (IH (l1 ++ [x]) (ch_next c) fuel h Hcs Hl).
    + now rewrite <- app_assoc.
    + now rewrite <- app_assoc.
    + simpl in Hfuel. lia.
Qed.

(** [freeBigInt] on a valid container frees every chunk of the chain, head
    to tail, each one once, and then the container object; it reads no
    chunk it has freed.  On NULL it frees nothing. *)
Theorem freeBigInt_frees_chain C h a l fuel :
  container C h a l -> (length l < fuel)%nat ->
  freeBigInt fuel (Some a) h
  = Ok (map FreedChunk l ++ [FreedBigInt a], h) /\
  NoDup (map FreedChunk l ++ [FreedBigInt a]) /\
  freeBigInt fuel NULL h = Ok ([], h).
Proof.
  intros (b & Hb & Hl & _) Hfuel.
  pose proof (lseg_NoDup _ _ _ Hl) as Hnd.
  split; [|split; [|reflexivity]].
  - unfold freeBigInt. cbn [is_null].
    eapply bind_ok; [apply load_bi_ok; exact Hb|].
    eapply bind_ok.
    { apply (freeBigInt_loop (chunks h) l [] (bi_first b) fuel h);
        [reflexivity | exact Hl | exact Hnd | exact Hfuel]. }
    cbn [app]. unfold free_BigInt.
    eapply bind_ok; [apply load_bi_ok; exact Hb | reflexivity].
  - apply NoDup_app. split; [|split].
    + apply NoDup_fmap_2; [|exact Hnd]. intros x y Hxy. now injection Hxy.
    + intros f Hf Hf'. apply list_elem_of_singleton in Hf'. subst f.
      apply list_elem_of_fmap in Hf as (x & Hx & _). discriminate.
    + apply NoDup_singleton.
Qed.

Lemma freeBigInt_frees_chain_witness :
  freeBigInt 3 (Some 0%nat) (grown_one 4)
  = Ok (map FreedChunk [0%nat; 2%nat] ++ [FreedBigInt 0], grown_one 4) /\
  NoDup (map FreedChunk [0%nat; 2%nat] ++ [FreedBigInt 0]) /\
  freeBigInt 3 NULL (grown_one 4) = Ok ([], grown_one 4).
Proof.
  apply (freeBigInt_frees_chain 4 (grown_one 4) 0 [0%nat; 2%nat] 3).
  - apply containerb_sound. vm_compute. reflexivity.
  - simpl. lia.
Defined.

(** *** Absent arguments *)

(** Every public function checks its container argument: on NULL,
    [lengthBigInt] returns 0, [setValue] returns 1 (as it does for a NULL
    array), [toString] and [add] return NULL, and none of them touches the
    memory. *)
Theorem null_arguments C fuel h (self : ptr) n (ws : option (list Z)) :
  lengthBigInt NULL h = Ok (0, h) /\
  setValue C fuel NULL n ws h = Ok (1, h) /\
  setValue C fuel self n None h = Ok (1, h) /\
  toString C fuel NULL h = Ok (None, h) /\
  add C fuel NULL self h = Ok (NULL, h) /\
  add C fuel self NULL h = Ok (NULL, h).
Proof.
  repeat split; try reflexivity.
  - destruct self; reflexivity.
  - destruct self; reflexivity.
Qed.

(** *** Hexadecimal digits *)

Lemma hex_value_digit d : 0 <= d < 16 -> hex_value (hex_digit d) = Some d.
Proof.
  intros Hd.
  assert (d = 0 \/ d = 1 \/ d = 2 \/ d = 3 \/ d = 4 \/ d = 5 \/ d = 6 \/ d = 7 \/
          d = 8 \/ d = 9 \/ d = 10 \/ d = 11 \/ d = 12 \/ d = 13 \/ d = 14 \/
          d = 15) as H by lia.
  repeat (destruct H as [-> | H]; [reflexivity|]). subst d. reflexivity.
Qed.

Lemma number_of_hex_le_digits w n :
  forall k,
    0 <= w ->
    number_of_hex_le
      (map (fun i => hex_digit ((w / 16 ^ Z.of_nat i) mod 16)) (seq k n))
    = Some ((w / 16 ^ Z.of_nat k) mod 16 ^ Z.of_nat n).
Proof.
  induction n as [|n IH]; intros k Hw.
  - cbn. now rewrite Z.mod_1_r.
  - cbn [seq map number_of_hex_le].
    rewrite hex_value_digit by (apply Z.mod_pos_bound; lia).
    rewrite (IH (S k) Hw). f_equal.
    rewrite (Nat2Z.inj_succ n), Z.pow_succ_r by lia.
    rewrite Z.rem_mul_r by lia. f_equal. f_equal.
    rewrite (Nat2Z.inj_succ k), Z.pow_succ_r by lia.
    rewrite (Z.mul_comm 16), <- Z.div_div by lia. reflexivity.
Qed.

Lemma number_of_hex_le_word w :
  0 <= w < uint_modulus -> number_of_hex_le (hex_word_le w) = Some w.
Proof.
  intros Hw. unfold hex_word_le.
  rewrite number_of_hex_le_digits by lia.
  change (Z.of_nat 0) with 0. rewrite Z.pow_0_r, Z.div_1_r.
  f_equal. apply Z.mod_small. exact Hw.
Qed.

Lemma c_string_render_word (buf : buffer) P w :
  (P + 8 < length buf)%nat ->
  c_string (drop P (render_word buf P w)) = Some (hex_word_le w).
Proof.
  intros HP. unfold render_word.
  rewrite drop_app_length' by (rewrite length_take; lia).
  apply c_string_spec.
  - rewrite hex_word_le_length.
    replace 8%nat with (length (map Some (hex_word_le w)))
      by (rewrite length_map; apply hex_word_le_length).
    apply take_app_length.
  - rewrite hex_word_le_length.
    rewrite lookup_app_r by (rewrite length_map, hex_word_le_length; lia).
    rewrite length_map, hex_word_le_length. reflexivity.
  - apply hex_word_le_not_NUL.
Qed.

(** [uintToHex] needs nine cells from [target] on, and faults when the
    buffer has fewer.  With them, it writes the eight digits of the word,
    least significant first, and a NUL; the cells before and after are
    left as they were, and the digits read back give the word. *)
Theorem uintToHex_round_trip (buf : buffer) P w :
  0 <= w < uint_modulus ->
  if decide (P + 8 < length buf)%nat then
    exists buf' s,
      uintToHex buf (Z.of_nat P) w = Ok buf' /\
      length buf' = length buf /\
      take P buf' = take P buf /\
      drop (P + 9) buf' = drop (P + 9) buf /\
      c_string (drop P buf') = Some s /\
      length s = 8%nat /\
      number_of_hex_le s = Some w
  else uintToHex buf (Z.of_nat P) w = Fault OutOfBounds.
Proof.
  intros Hw. destruct (decide _) as [HP|HP].
  - exists (render_word buf P w), (hex_word_le w).
    split; [now apply uintToHex_ok|].
    split; [now apply render_word_length|].
    split; [|split; [|split; [|split]]].
    + unfold render_word. rewrite take_app_length'; [reflexivity|].
      rewrite length_take. lia.
    + unfold render_word.
      rewrite drop_app_ge by (rewrite length_take; lia).
      rewrite length_take, Nat.min_l by lia.
      rewrite drop_app_ge by (rewrite length_map, hex_word_le_length; lia).
      rewrite length_map, hex_word_le_length.
      replace (P + 9 - P - 8)%nat with 1%nat by lia. reflexivity.
    + now apply c_string_render_word.
    + apply hex_word_le_length.
    + now apply number_of_hex_le_word.
  - apply uintToHex_oob. lia.
Qed.

Lemma uintToHex_round_trip_witness :
  if decide (1 + 8 < length (replicate 10 (@None ascii)))%nat then
    exists buf' s,
      uintToHex (replicate 10 None) (Z.of_nat 1) 2882400018 = Ok buf' /\
      length buf' = length (replicate 10 (@None ascii)) /\
      take 1 buf' = take 1 (replicate 10 None) /\
      drop (1 + 9) buf' = drop (1 + 9) (replicate 10 None) /\
      c_string (drop 1 buf') = Some s /\
      length s = 8%nat /\
      number_of_hex_le s = Some 2882400018
  else uintToHex (replicate 10 None) (Z.of_nat 1) 2882400018
       = Fault OutOfBounds.
Proof.
  apply (uintToHex_round_trip (replicate 10 None) 1 2882400018).
  assert (uint_modulus = 4294967296) as HM by reflexivity. lia.
Defined.

(** *** [toString] on a chain of any length *)

Lemma render_into_app ws1 :
  forall (buf : buffer) P ws2,
    render_into buf P (ws1 ++ ws2)
    = render_into (render_into buf P ws1) (P + 8 * length ws1) ws2.
Proof.
  induction ws1 as [|w ws1 IH]; intros buf P ws2; cbn [app render_into length].
  - f_equal. lia.
  - rewrite IH. f_equal. lia.
Qed.

Lemma toString_outer C fuel0 l :
  forall p P (buf : buffer) fuel h,
    lseg (chunks h) p l NULL -> chunks_ok C (chunks h) l ->
    (Z.to_nat C < fuel0)%nat -> (length l < fuel)%nat ->
    while fuel
      (fun '(chunk, p, string) => ret (negb (is_null chunk)))
      (fun '(chunk, p, string) =>
         '(_, p, string) <-
           while fuel0
             (fun '(index, p, string) =>
                c <- load chunk ;; ret (index <? ch_length c))
             (fun '(index, p, string) =>
                w <- get_value chunk index ;;
                string <- lift (uintToHex string p w) ;;
                ret (index + 1, p + 1 * charsPerUint, string))
             (0, p, string) ;;
         c <- load chunk ;;
         ret (ch_next c, p, string))
      (p, Z.of_nat P, buf) h
    = if decide (words (chunks h) l = [] \/
                 P + 8 * length (words (chunks h) l) < length buf)%nat
      then Ok ((NULL, Z.of_nat (P + 8 * length (words (chunks h) l)),
                render_into buf P (words (chunks h) l)), h)
      else Fault OutOfBounds.
Proof.
  induction l as [|x l IH]; intros p P buf fuel h Hl Hok Hf0 Hfuel;
    (destruct fuel as [|fuel]; [simpl in Hfuel; lia|]).
  - simpl in Hl. subst p. cbn [words flat_map length render_into].
    rewrite decide_True by (now left).
    rewrite while_false by reflexivity.
    now replace (P + 8 * 0)%nat with P by lia.
  - destruct Hl as (-> & c & Hc & Hl).
    apply chunks_ok_cons in Hok as [(c' & Hc' & Hcok) Hok].
    assert (c' = c) as -> by congruence.
    pose proof Hcok as [Hclen Hcap].
    rewrite words_cons, (words_at_lookup _ _ _ Hc).
    pose proof (chunk_words_length C c Hcok) as Hn.
    set (n := Z.to_nat (ch_length c)) in *.
    assert (take n (drop 0 (ch_value c)) = chunk_words c) as Htk
      by reflexivity.
    destruct (decide (n = 0 \/ P + 8 * n < length buf)%nat) as [Hfit|Hnofit].
    + erewrite while_true; [|reflexivity|].
      2:{ cbv beta iota. eapply bind_ok.
          { apply (toString_inner_ok x fuel0 n 0 P buf h c Hc);
              [unfold n; simpl; lia | unfold n; simpl; lia | exact Hfit
              | unfold n; lia]. }
          cbv beta iota.
          eapply bind_ok; [apply load_ok; exact Hc | reflexivity]. }
      rewrite Htk. cbn [Nat.add].
      rewrite (IH (ch_next c) (P + 8 * n)%nat _ fuel h Hl Hok Hf0)
        by (simpl in Hfuel; lia).
      rewrite render_into_length
        by (rewrite Hn; destruct Hfit as [H0 | Hlt];
            [left; apply nil_length_inv; lia | right; exact Hlt]).
      rewrite length_app, Hn, render_into_app, Hn.
      destruct (decide (words (chunks h) l = [] \/ _)%nat) as [Hfit2|Hnofit2].
      * rewrite decide_True.
        { now replace (P + 8 * n + 8 * length (words (chunks h) l))%nat
            with (P + 8 * (n + length (words (chunks h) l)))%nat by lia. }
        destruct Hfit2 as [Hnil | Hlt].
        -- rewrite Hnil, app_nil_r. simpl.
           destruct Hfit as [H0 | Hlt]; [|right; lia].
           left. apply nil_length_inv. lia.
        -- right. lia.
      * rewrite decide_False; [reflexivity|].
        intros [Hnil | Hlt]; apply Hnofit2.
        -- apply app_eq_nil in Hnil as [_ Hnil]. now left.
        -- right. lia.
    + rewrite decide_False.
      * cbn [while]. eapply bind_ok; [reflexivity|]. cbv beta iota.
        cbn [negb is_null]. apply bind_fault. apply bind_fault.
        apply (toString_inner_oob x fuel0 n 0 P buf h c Hc);
          unfold n in *; simpl; lia.
      * intros [Hnil | Hlt]; apply Hnofit.
        -- apply app_eq_nil in Hnil as [Hnil _]. left.
           rewrite <- Hn, Hnil. reflexivity.
        -- right. rewrite length_app, Hn in Hlt. lia.
Qed.

Lemma toString_chain C h a b l fuel :
  bigints h !! a = Some b ->
  lseg (chunks h) (bi_first b) l NULL -> chunks_ok C (chunks h) l ->
  (length l < fuel)%nat -> (Z.to_nat C < fuel)%nat ->
  toString C fuel (Some a) h
  = if decide (words (chunks h) l = [] \/
               8 * length (words (chunks h) l)
               < Z.to_nat (1 + bi_length b * C))%nat
    then Ok (Some (render_into
                     (replicate (Z.to_nat (1 + bi_length b * C)) None) 0
                     (words (chunks h) l)), h)
    else Fault OutOfBounds.
Proof.
  intros Hb Hl Hok Hfuel Hf0. unfold toString. cbn [is_null].
  eapply bind_ok; [apply load_bi_ok; exact Hb|]. cbv zeta.
  unfold toString_numChars.
  pose proof (toString_outer C fuel l (bi_first b) 0
                (replicate (Z.to_nat (1 + bi_length b * C)) None)
                fuel h Hl Hok Hf0 Hfuel) as Hloop.
  rewrite length_replicate in Hloop. cbn [Nat.add] in Hloop.
  change (Z.of_nat 0) with 0 in Hloop.
  destruct (decide _) as [Hfit|Hnofit].
  - eapply bind_ok; [exact Hloop | reflexivity].
  - apply bind_fault. exact Hloop.
Qed.

(** [toString] on any valid container: with W the words of the chain,
    the call either renders every word, least significant nibble first and
    in order, into a buffer of 1 + count * C characters and leaves the
    container untouched, or, when the 8 * |W| digits and the NUL do not
    fit, writes outside the buffer.  With no word at all nothing is
    written, not even the NUL. *)
Theorem toString_spec C h a l fuel :
  container C h a l -> (length l < fuel)%nat -> (Z.to_nat C < fuel)%nat ->
  let W := words (chunks h) l in
  let size := Z.to_nat (1 + Z.of_nat (length l) * C) in
  (W <> [] -> (8 * length W < size)%nat ->
   exists buf, toString C fuel (Some a) h = Ok (Some buf, h) /\
               length buf = size /\
               c_string buf = Some (hex_words_le W)) /\
  (W <> [] -> (size <= 8 * length W)%nat ->
   toString C fuel (Some a) h = Fault OutOfBounds) /\
  (W = [] ->
   toString C fuel (Some a) h = Ok (Some (replicate size None), h)).
Proof.
  intros (b & Hb & Hl & _ & _ & Hlen & Hok) Hfuel Hf0 W size.
  pose proof (toString_chain C h a b l fuel Hb Hl Hok Hfuel Hf0) as Hrun.
  rewrite Hlen in Hrun. fold W size in Hrun.
  split; [|split].
  - intros Hne Hfit. rewrite decide_True in Hrun by (right; exact Hfit).
    eexists. split; [exact Hrun|]. split.
    + rewrite render_into_length; [apply length_replicate|].
      right. rewrite length_replicate. simpl. exact Hfit.
    + now apply c_string_render.
  - intros Hne Hbig. rewrite decide_False in Hrun; [exact Hrun|].
    intros [Hnil | Hlt]; [contradiction | lia].
  - intros Hnil. rewrite decide_True in Hrun by (left; exact Hnil).
    rewrite Hrun, Hnil. reflexivity.
Qed.

Lemma toString_spec_witness :
  let W := words (chunks (fresh_one 16)) [0%nat] in
  let size := Z.to_nat (1 + Z.of_nat (length [0%nat]) * 16) in
  (W <> [] -> (8 * length W < size)%nat ->
   exists buf, toString 16 17 (Some 0%nat) (fresh_one 16)
               = Ok (Some buf, fresh_one 16) /\
               length buf = size /\
               c_string buf = Some (hex_words_le W)) /\
  (W <> [] -> (size <= 8 * length W)%nat ->
   toString 16 17 (Some 0%nat) (fresh_one 16) = Fault OutOfBounds) /\
  (W = [] ->
   toString 16 17 (Some 0%nat) (fresh_one 16)
   = Ok (Some (replicate size None), fresh_one 16)).
Proof.
  apply (toString_spec 16 (fresh_one 16) 0 [0%nat] 17).
  - apply containerb_sound. vm_compute. reflexivity.
  - simpl. lia.
  - simpl. lia.
Defined.


(** *** A load of no word, then [toString] *)

Lemma setValue_zero_state C h a l (ws : list Z) fuel :
  0 < C -> container C h a l -> (2 <= fuel)%nat ->
  exists h' b' x c c',
    setValue C fuel (Some a) 0 (Some ws) h = Ok (0, h') /\
    head l = Some x /\ chunks h !! x = Some c /\
    bigints h' !! a = Some b' /\ bi_length b' = 0 /\
    bi_first b' = Some x /\ bi_last b' = Some x /\
    chunks h' !! x = Some c' /\ ch_next c' = NULL /\
    ch_length c' = 0 /\ ch_value c' = ch_value c.
Proof.
  intros HC (b & Hb & Hl & Hne & _ & Hlen & _) Hfuel.
  destruct l as [|x l]; [contradiction|]. clear Hne.
  destruct Hl as (Hfirst & c & Hc & Hl).
  pose proof (lookup_lt_Some _ _ _ Hb) as Ha.
  pose proof (lookup_lt_Some _ _ _ Hc) as Hx.
  destruct fuel as [|[|fuel]]; [lia..|].
  set (b1 := mkBigInt (Some x) (Some x) (bi_parity b) (bi_length b)).
  set (b2 := mkBigInt (Some x) (Some x) (bi_parity b) 0).
  set (c1 := mkChunk (ch_prev c) NULL (ch_length c) (ch_value c)).
  set (c2 := mkChunk (ch_prev c) NULL 0 (ch_value c)).
  (* the store after [trimChunk] *)
  assert (exists cs1,
    trimChunk (Some x) (mkHeap (chunks h) (<[a := b1]> (bigints h)))
    = Ok (ch_next c, mkHeap cs1 (<[a := b1]> (bigints h))) /\
    cs1 !! x = Some c1) as (cs1 & Htrim & Hc1).
  { destruct (ch_next c) as [y|] eqn:Hnext.
    - destruct l as [|y' l]; simpl in Hl; [discriminate|].
      destruct Hl as (Hy & cy & Hcy & Hrest). injection Hy as <-.
      assert (y <> x) as Hyx.
      { intros ->.
        assert (lseg (chunks h) (Some x) (x :: x :: l) NULL) as Hch.
        { simpl. split; [reflexivity|]. exists c. split; [exact Hc|].
          rewrite Hnext. split; [reflexivity|]. exists cy.
          split; [exact Hcy | exact Hrest]. }
        apply lseg_NoDup, NoDup_cons in Hch as [Hn _]. apply Hn. left. }
      eexists. split.
      + unfold trimChunk.
        eapply bind_ok; [apply load_ok; exact Hc|].
        eapply bind_ok; [eapply set_next_ok; exact Hc|].
        rewrite Hnext.
        eapply bind_ok;
          [eapply set_prev_ok; simpl;
           rewrite list_lookup_insert_ne by congruence; exact Hcy
          | reflexivity].
      + rewrite list_lookup_insert_ne by exact Hyx.
        apply list_lookup_insert_eq. exact Hx.
    - eexists. split.
      + unfold trimChunk.
        eapply bind_ok; [apply load_ok; exact Hc|].
        eapply bind_ok; [eapply set_next_ok; exact Hc|].
        rewrite Hnext. reflexivity.
      + apply list_lookup_insert_eq. exact Hx. }
  pose proof (lookup_lt_Some _ _ _ Hc1) as Hx1.
  exists (mkHeap (<[x := c2]> cs1) (<[a := b2]> (bigints h))), b2, x, c, c2.
  split.
  { unfold setValue.
    rewrite Z.quot_0_l, Z.rem_0_l by lia. cbv iota beta zeta. simpl (0 =? 0).
    cbv iota.
    eapply bind_ok.
    { unfold setValue_resize.
      eapply bind_ok; [apply load_bi_ok; exact Hb|].
      destruct (Z.ltb_spec 0 (bi_length b)) as [_|?]; [|simpl in Hlen; lia].
      cbv zeta.
      eapply bind_ok; [apply while_false; reflexivity|].
      eapply bind_ok; [eapply set_last_ok; exact Hb|]. rewrite Hfirst.
      fold b1.
      eapply bind_ok; [exact Htrim|].
      erewrite set_bi_length_ok
        by (simpl; apply list_lookup_insert_eq; exact Ha).
      simpl. rewrite list_insert_insert_eq. fold b2. reflexivity. }
    eapply bind_ok; [|reflexivity].
    unfold setValue_copy.
    eapply bind_ok;
      [apply load_bi_ok; simpl; apply list_lookup_insert_eq; exact Ha|].
    simpl bi_first.
    eapply bind_ok; [|reflexivity].
    erewrite (while_true _ _ _ _ (NULL, 0)
                _ (mkHeap (<[x := c2]> cs1) (<[a := b2]> (bigints h)))).
    - now apply while_false.
    - reflexivity.
    - cbv beta iota.
      eapply bind_ok.
      { eapply set_length_ok. exact Hc1. }
      unfold MIN. destruct (Z.ltb_spec C 0) as [?|_]; [lia|].
      change (mkChunk (ch_prev c1) (ch_next c1) 0 (ch_value c1)) with c2.
      cbn [chunks bigints].
      eapply bind_ok.
      { apply while_false. simpl.
        eapply bind_ok;
          [apply load_ok; simpl; apply list_lookup_insert_eq; exact Hx1
          | reflexivity]. }
      cbv beta iota.
      eapply bind_ok;
        [apply load_ok; simpl; apply list_lookup_insert_eq; exact Hx1
        | reflexivity]. }
  split; [reflexivity|]. split; [exact Hc|]. cbn [bigints chunks].
  split; [apply list_lookup_insert_eq; exact Ha|].
  split; [reflexivity|]. split; [reflexivity|]. split; [reflexivity|].
  split; [apply list_lookup_insert_eq; exact Hx1|].
  split; [reflexivity|]. split; reflexivity.
Qed.

(** After a load of no word [toString] returns a buffer of one character
    that it has not written: the string has no terminating NUL. *)
Theorem setValue_zero_toString_unterminated C h a l (ws : list Z) fuel :
  0 < C -> container C h a l -> (2 <= fuel)%nat -> (Z.to_nat C < fuel)%nat ->
  exists h',
    setValue C fuel (Some a) 0 (Some ws) h = Ok (0, h') /\
    toString C fuel (Some a) h' = Ok (Some [None], h') /\
    c_string [None] = None.
Proof.
  intros HC Hcont Hfuel Hf0.
  pose proof Hcont as (_ & _ & _ & _ & _ & _ & Hok).
  destruct (setValue_zero_state C h a l ws fuel HC Hcont Hfuel)
    as (h' & b' & x & c & c' & Hrun & Hhd & Hc & Hb' & Hlen & Hfirst & _
        & Hc' & Hnext & Hclen & Hval).
  exists h'. split; [exact Hrun|]. split; [|reflexivity].
  assert (chunk_ok C c) as [_ Hcap].
  { destruct (Hok x) as (c0 & Hc0 & Hc0ok).
    - destruct l; [discriminate|]. injection Hhd as ->.
      apply elem_of_cons. now left.
    - congruence. }
  rewrite (toString_chain C h' a b' [x] fuel Hb').
  - rewrite words_singleton, (words_at_lookup _ _ _ Hc').
    unfold chunk_words. rewrite Hclen. cbn [Z.to_nat take].
    rewrite decide_True by (now left). rewrite Hlen. reflexivity.
  - rewrite Hfirst. simpl. split; [reflexivity|]. exists c'.
    split; [exact Hc' | exact Hnext].
  - intros y Hy. apply list_elem_of_singleton in Hy as ->.
    exists c'. split; [exact Hc'|]. split; [lia | congruence].
  - simpl. lia.
  - exact Hf0.
Qed.

Lemma setValue_zero_toString_unterminated_witness :
  exists h',
    setValue 4 5 (Some 0%nat) 0 (Some []) (fresh_one 4) = Ok (0, h') /\
    toString 4 5 (Some 0%nat) h' = Ok (Some [None], h') /\
    c_string [None] = None.
Proof.
  apply (setValue_zero_toString_unterminated 4 (fresh_one 4) 0 [0%nat] [] 5).
  - lia.
  - apply containerb_sound. vm_compute. reflexivity.
  - lia.
  - simpl. lia.
Defined.

(** *** [setValue] on a container that is not too long *)

(** One turn of the loop that extends the chain: a fresh, empty chunk
    becomes the last chunk. *)
Lemma append_fresh C h a l :
  0 <= C -> container C h a l ->
  exists h',
    (c <- newChunk C ;; append (Some a) c ;;; ret tt) h = Ok (tt, h') /\
    container C h' a (l ++ [length (chunks h)]) /\
    length (chunks h') = S (length (chunks h)) /\
    (forall a', a' <> a -> bigints h' !! a' = bigints h !! a') /\
    (forall y, y ∉ l -> (y < length (chunks h))%nat ->
       chunks h' !! y = chunks h !! y) /\
    words (chunks h') (l ++ [length (chunks h)]) = words (chunks h) l.
Proof.
  intros HC (b & Hb & Hl & Hne & Hlast & Hlen & Hok).
  destruct l as [|t l0 _] using rev_ind; [contradiction|]. clear Hne.
  rewrite last_snoc in Hlast.
  pose proof (lseg_NoDup _ _ _ Hl) as Hnd.
  apply NoDup_app in Hnd as (_ & Hd & _).
  assert (forall y, y ∈ l0 -> y <> t) as Hd'.
  { intros y Hy ->. apply (Hd t Hy). left. }
  pose proof Hl as Hl'. apply lseg_app in Hl' as (q & Hl0 & Hlt).
  simpl in Hlt. destruct Hlt as (-> & ct & Ht & Hnext).
  pose proof (lookup_lt_Some _ _ _ Ht) as Htlt.
  pose proof (lookup_lt_Some _ _ _ Hb) as Ha.
  set (n := length (chunks h)).
  set (c0 := mkChunk NULL NULL 0 (replicate (Z.to_nat C) 0)).
  set (h0 := mkHeap (chunks h ++ [c0]) (bigints h)).
  set (ct' := mkChunk (ch_prev ct) (Some n) (ch_length ct) (ch_value ct)).
  set (cn := mkChunk (Some t) NULL 0 (replicate (Z.to_nat C) 0)).
  set (b1 := mkBigInt (bi_first b) (Some n) (bi_parity b) (bi_length b + 1)).
  set (h1 := mkHeap (<[t := ct']> (<[n := cn]> (chunks h ++ [c0])))
                    (<[a := b1]> (bigints h))).
  assert (chunks h1 !! t = Some ct') as Ht1.
  { apply list_lookup_insert_eq. rewrite length_insert, length_app. lia. }
  assert (chunks h1 !! n = Some cn) as Hn1.
  { unfold h1. cbn [chunks]. rewrite list_lookup_insert_ne by (unfold n; lia).
    apply list_lookup_insert_eq. rewrite length_app. unfold n. simpl. lia. }
  assert (forall y, y <> t -> (y < n)%nat -> chunks h1 !! y = chunks h !! y)
    as Hother.
  { intros y Hyt Hyn. unfold h1. cbn [chunks].
    rewrite list_lookup_insert_ne by congruence.
    rewrite list_lookup_insert_ne by lia.
    now apply lookup_app_l. }
  assert (forall y, y ∈ l0 -> chunks h1 !! y = chunks h !! y) as Hsame.
  { intros y Hy. apply Hother; [now apply Hd'|].
    eapply lseg_lt; [exact Hl0 | exact Hy]. }
  apply chunks_ok_app in Hok as [Hok0 Hokt].
  apply chunks_ok_cons in Hokt as [(ct0 & Hct0 & Hctok) _].
  assert (ct0 = ct) as -> by congruence.
  exists h1. split.
  { eapply bind_ok; [reflexivity|]. fold n c0 h0.
    eapply bind_ok; [|reflexivity].
    rewrite (append_ok h0 a b t ct n c0 Hb Hlast);
      [ reflexivity
      | simpl; rewrite lookup_app_l by exact Htlt; exact Ht
      | simpl; apply list_lookup_middle; reflexivity
      | unfold n; lia ]. }
  split.
  { exists b1. split; [apply list_lookup_insert_eq; exact Ha|].
    cbn [bi_first bi_last bi_length b1]. split.
    { rewrite <- app_assoc. apply lseg_app. exists (Some t). split.
      - eapply lseg_ext; [|exact Hl0]. intros y Hy. now rewrite Hsame.
      - simpl. split; [reflexivity|]. eexists. split; [exact Ht1|]. simpl.
        split; [reflexivity|]. eexists. split; [exact Hn1|]. reflexivity. }
    split; [intros Heq; apply app_eq_nil in Heq as [_ ?]; discriminate|].
    split; [now rewrite last_snoc|]. split.
    { rewrite Hlen, !length_app. simpl. lia. }
    apply chunks_ok_app. split; [apply chunks_ok_app; split|].
    + eapply chunks_ok_ext; [|exact Hok0]. exact Hsame.
    + apply chunks_ok_cons. split; [|intros y Hy; inversion Hy].
      eexists. split; [exact Ht1|]. exact Hctok.
    + apply chunks_ok_cons. split; [|intros y Hy; inversion Hy].
      eexists. split; [exact Hn1|]. split; simpl; [lia|].
      rewrite length_replicate. lia. }
  split.
  { unfold h1. cbn [chunks]. rewrite !length_insert, length_app.
    unfold n. simpl. lia. }
  split.
  { intros a' Ha'. unfold h1. cbn [bigints].
    now apply list_lookup_insert_ne. }
  split.
  { intros y Hy Hyn. apply Hother; [|exact Hyn].
    intros ->. apply Hy. apply elem_of_app. right.
    now apply list_elem_of_singleton. }
  rewrite !words_app, !words_singleton.
  rewrite (words_ext (chunks h) _ l0) by exact Hsame.
  rewrite (words_at_lookup _ _ _ Ht1), (words_at_lookup _ _ _ Hn1),
    (words_at_lookup _ _ _ Ht).
  unfold chunk_words. simpl. now rewrite app_nil_r.
Qed.

(** The loop that extends the chain to [numChunks] chunks. *)
Lemma setValue_extend_loop C a numChunks k :
  forall h l fuel,
    0 <= C -> container C h a l ->
    Z.of_nat (length l) + Z.of_nat k = numChunks -> (k < fuel)%nat ->
    exists h' l',
      while fuel
        (fun _ => b <- load_bi (Some a) ;; ret (bi_length b <? numChunks))
        (fun _ => c <- newChunk C ;; append (Some a) c ;;; ret tt)
        tt h = Ok (tt, h') /\
      container C h' a (l ++ l') /\ length l' = k /\
      (forall y, y ∈ l' -> (length (chunks h) <= y)%nat) /\
      (length (chunks h) <= length (chunks h'))%nat /\
      (forall a', a' <> a -> bigints h' !! a' = bigints h !! a') /\
      (forall y, y ∉ l -> (y < length (chunks h))%nat ->
         chunks h' !! y = chunks h !! y).
Proof.
  induction k as [|k IH]; intros h l fuel HC Hcont Hnum Hfuel;
    (destruct fuel as [|fuel]; [lia|]).
  - exists h, []. rewrite app_nil_r.
    pose proof Hcont as (b & Hb & _ & _ & _ & Hlen & _).
    split.
    { apply while_false.
      eapply bind_ok; [apply load_bi_ok; exact Hb|].
      unfold ret. do 2 f_equal. apply Z.ltb_ge. lia. }
    split; [exact Hcont|]. split; [reflexivity|].
    split; [intros y Hy; inversion Hy|]. auto.
  - pose proof Hcont as (b & Hb & _ & _ & _ & Hlen & _).
    destruct (append_fresh C h a l HC Hcont)
      as (h1 & Hstep & Hcont1 & Hlen1 & Hbi1 & Hch1 & _).
    destruct (IH h1 (l ++ [length (chunks h)]) fuel HC Hcont1)
      as (h' & l' & Hrun & Hcont' & Hl' & Hnew & Hlen' & Hbi' & Hch');
      [rewrite length_app; simpl; lia | lia |].
    exists h', (length (chunks h) :: l').
    split.
    { erewrite while_true; [exact Hrun | | exact Hstep].
      eapply bind_ok; [apply load_bi_ok; exact Hb|].
      unfold ret. do 2 f_equal. apply Z.ltb_lt. lia. }
    split; [now rewrite <- app_assoc in Hcont'|].
    split; [simpl; lia|]. split.
    { intros y Hy. apply elem_of_cons in Hy as [->|Hy]; [lia|].
      apply Hnew in Hy. lia. }
    split; [lia|]. split.
    { intros a' Ha'. rewrite Hbi' by exact Ha'. now apply Hbi1. }
    intros y Hy Hyn. rewrite Hch'; [now apply Hch1 | | lia].
    intros Hin. apply elem_of_app in Hin as [Hin|Hin]; [now apply Hy|].
    apply list_elem_of_singleton in Hin. lia.
Qed.

(** The copy loop over what is left of the chain, from index [i] of the
    array: every chunk is given [m] words, and the loop reads past the
    array when it has fewer than the chunks take. *)
Lemma setValue_copy_loop C (ws : list Z) m fuel0 l2 :
  forall p i fuel h,
    lseg (chunks h) p l2 NULL -> chunks_ok C (chunks h) l2 ->
    (0 < m)%nat -> Z.of_nat m <= C -> (i <= length ws)%nat ->
    (m < fuel0)%nat -> (length l2 < fuel)%nat ->
    let loop :=
      while fuel
        (fun '(chunk, arrayIndex) => ret (negb (is_null chunk)))
        (fun '(chunk, arrayIndex) =>
           set_length chunk (Z.of_nat m) ;;;
           '(_, arrayIndex') <-
             while fuel0
               (fun '(chunkIndex, arrayIndex) =>
                  c <- load chunk ;; ret (chunkIndex <? ch_length c))
               (fun '(chunkIndex, arrayIndex) =>
                  match ws !! Z.to_nat arrayIndex with
                  | Some w =>
                      set_value chunk chunkIndex w ;;;
                      ret (chunkIndex + 1, arrayIndex + 1)
                  | None => raise OutOfBounds
                  end)
               (0, arrayIndex) ;;
           c <- load chunk ;;
           ret (ch_next c, arrayIndex'))
        (p, Z.of_nat i) h in
    ((i + length l2 * m <= length ws)%nat ->
     exists h',
       loop = Ok ((NULL, Z.of_nat (i + length l2 * m)), h') /\
       bigints h' = bigints h /\
       length (chunks h') = length (chunks h) /\
       (forall y, y ∉ l2 -> chunks h' !! y = chunks h !! y) /\
       lseg (chunks h') p l2 NULL /\ chunks_ok C (chunks h') l2 /\
       words (chunks h') l2 = take (length l2 * m) (drop i ws)) /\
    ((length ws < i + length l2 * m)%nat -> loop = Fault OutOfBounds).
Proof.
  induction l2 as [|x l2 IH]; intros p i fuel h Hl Hok Hm HmC Hi Hf0 Hfuel;
    (destruct fuel as [|fuel]; [simpl in Hfuel; lia|]); cbv zeta.
  - simpl in Hl. subst p. split; [|simpl; lia].
    intros _. exists h. rewrite while_false by reflexivity.
    replace (i + length (@nil nat) * m)%nat with i by (simpl; lia).
    split; [reflexivity|]. split; [reflexivity|]. split; [reflexivity|].
    split; [auto|]. split; [reflexivity|]. split; [exact Hok|]. reflexivity.
  - pose proof (lseg_NoDup _ _ _ Hl) as Hnd.
    apply NoDup_cons in Hnd as [Hx Hnd].
    destruct Hl as (-> & c & Hc & Hl).
    apply chunks_ok_cons in Hok as [(c' & Hc' & [Hclen Hcap]) Hok].
    assert (c' = c) as -> by congruence.
    pose proof (lookup_lt_Some _ _ _ Hc) as Hxlt.
    set (c1 := mkChunk (ch_prev c) (ch_next c) (Z.of_nat m)
                       (copy_into (ch_value c) 0 (take m (drop i ws)))).
    set (h1 := mkHeap (<[x := c1]> (chunks h)) (bigints h)).
    assert (forall y, y ∈ l2 -> chunks h1 !! y = chunks h !! y) as Hsame.
    { intros y Hy. unfold h1. cbn [chunks]. apply list_lookup_insert_ne.
      intros ->. now apply Hx. }
    assert (chunks h1 !! x = Some c1) as Hc1
      by (apply list_lookup_insert_eq; exact Hxlt).
    assert (length (x :: l2) * m = m + length l2 * m)%nat as Hmul
      by (simpl; lia).
    destruct (le_lt_dec (i + m) (length ws)) as [Hfit|Hnofit].
    + (* the first chunk is filled *)
      assert (lseg (chunks h1) (ch_next c) l2 NULL) as Hl1.
      { eapply lseg_ext; [|exact Hl]. intros y Hy. now rewrite Hsame. }
      assert (chunks_ok C (chunks h1) l2) as Hok1
        by (eapply chunks_ok_ext; [exact Hsame | exact Hok]).
      destruct (IH (ch_next c) (i + m)%nat fuel h1 Hl1 Hok1 Hm HmC Hfit Hf0)
        as [IHok IHoob]; [simpl in Hfuel; lia|]. cbv zeta in IHok, IHoob.
      assert (forall r,
        while fuel
          (fun '(chunk, arrayIndex) => ret (negb (is_null chunk)))
          (fun '(chunk, arrayIndex) =>
             set_length chunk (Z.of_nat m) ;;;
             '(_, arrayIndex') <-
               while fuel0
                 (fun '(chunkIndex, arrayIndex) =>
                    c <- load chunk ;; ret (chunkIndex <? ch_length c))
                 (fun '(chunkIndex, arrayIndex) =>
                    match ws !! Z.to_nat arrayIndex with
                    | Some w =>
                        set_value chunk chunkIndex w ;;;
                        ret (chunkIndex + 1, arrayIndex + 1)
                    | None => raise OutOfBounds
                    end)
                 (0, arrayIndex) ;;
             c <- load chunk ;;
             ret (ch_next c, arrayIndex'))
          (ch_next c, Z.of_nat (i + m)) h1 = r ->
        while (S fuel)
          (fun '(chunk, arrayIndex) => ret (negb (is_null chunk)))
          (fun '(chunk, arrayIndex) =>
             set_length chunk (Z.of_nat m) ;;;
             '(_, arrayIndex') <-
               while fuel0
                 (fun '(chunkIndex, arrayIndex) =>
                    c <- load chunk ;; ret (chunkIndex <? ch_length c))
                 (fun '(chunkIndex, arrayIndex) =>
                    match ws !! Z.to_nat arrayIndex with
                    | Some w =>
                        set_value chunk chunkIndex w ;;;
                        ret (chunkIndex + 1, arrayIndex + 1)
                    | None => raise OutOfBounds
                    end)
                 (0, arrayIndex) ;;
             c <- load chunk ;;
             ret (ch_next c, arrayIndex'))
          (Some x, Z.of_nat i) h = r) as Hstep.
      { intros r <-. apply while_true; [reflexivity|]. cbv beta iota.
        apply (setValue_copy_body_ok ws x c fuel0 m i h Hc); lia. }
      split.
      * intros Hall. destruct IHok as (h' & Hrun & Hbi & Hlen & Hfr & Hl' & Hok' & Hw);
          [lia|].
        exists h'. split.
        { apply Hstep. rewrite Hrun.
          now replace (i + m + length l2 * m)%nat
            with (i + length (x :: l2) * m)%nat by lia. }
        split; [rewrite Hbi; reflexivity|].
        split; [rewrite Hlen; unfold h1; cbn [chunks]; apply length_insert|].
        assert (chunks h' !! x = Some c1) as Hc'x by (rewrite Hfr; auto).
        split.
        { intros y Hy. rewrite Hfr.
          - unfold h1. cbn [chunks]. apply list_lookup_insert_ne.
            intros ->. apply Hy. apply elem_of_cons. now left.
          - intros Hin. apply Hy. apply elem_of_cons. now right. }
        split.
        { simpl. split; [reflexivity|]. exists c1. split; [exact Hc'x|].
          exact Hl'. }
        split.
        { apply chunks_ok_cons. split; [|exact Hok'].
          exists c1. split; [exact Hc'x|]. split; cbn [c1 ch_length ch_value].
          - lia.
          - now rewrite copy_into_length. }
        rewrite words_cons, (words_at_lookup _ _ _ Hc'x), Hw, Hmul.
        unfold chunk_words. cbn [c1 ch_length ch_value]. rewrite Nat2Z.id.
        pose proof (copy_into_take (ch_value c) 0 (take m (drop i ws))) as Ht.
        rewrite length_take_le in Ht by (rewrite length_drop; lia).
        cbn [Nat.add take app] in Ht. rewrite Ht by lia.
        rewrite <- (take_drop m (take (m + length l2 * m) (drop i ws))).
        rewrite take_take, Nat.min_l by lia. f_equal.
        rewrite <- take_drop_commute, drop_drop. reflexivity.
      * intros Hover. apply Hstep. apply IHoob. lia.
    + split; [lia|]. intros _.
      apply while_body_fault; [reflexivity|]. cbv beta iota.
      apply (setValue_copy_body_oob ws x c fuel0 m i h Hc); lia.
Qed.

Lemma numChunks_ceil C n K :
  0 < C -> 0 < n -> (K - 1) * C < n <= K * C ->
  (if Z.rem n C =? 0 then Z.quot n C else Z.quot n C + 1) = K.
Proof.
  intros HC Hn HK.
  rewrite Z.rem_mod_nonneg, Z.quot_div_nonneg by lia.
  pose proof (Z.div_mod n C ltac:(lia)) as Hdm.
  pose proof (Z.mod_pos_bound n C HC) as Hr.
  destruct (Z.eqb_spec (n mod C) 0) as [H0|H0]; nia.
Qed.

Lemma MIN_min C n : MIN C n = Z.min C n.
Proof. unfold MIN. destruct (Z.ltb_spec C n); lia. Qed.

(** [setValue] with a count [n] that needs [K] chunks, on a container of
    at most [K] chunks: every chunk is given min(C, n) words. *)
Lemma setValue_extend_spec C h a l (ws : list Z) n K fuel :
  0 < C -> container C h a l -> 0 < n ->
  (Z.of_nat K - 1) * C < n <= Z.of_nat K * C -> (length l <= K)%nat ->
  (K < fuel)%nat -> (Z.to_nat C < fuel)%nat ->
  let m := Z.to_nat (Z.min C n) in
  ((K * m <= length ws)%nat ->
   exists h' l',
     setValue C fuel (Some a) n (Some ws) h = Ok (0, h') /\
     container C h' a (l ++ l') /\ length (l ++ l') = K /\
     words (chunks h') (l ++ l') = take (K * m) ws /\
     (forall a', a' <> a -> bigints h' !! a' = bigints h !! a') /\
     (forall y, y ∉ l -> (y < length (chunks h))%nat ->
        chunks h' !! y = chunks h !! y)) /\
  ((length ws < K * m)%nat ->
   setValue C fuel (Some a) n (Some ws) h = Fault OutOfBounds).
Proof.
  intros HC Hcont Hn HK HlK Hfuel Hf0 m.
  assert (0 < m)%nat as Hm by (unfold m; lia).
  assert (Z.of_nat m <= C) as HmC by (unfold m; lia).
  assert (MIN C n = Z.of_nat m) as HMIN by (rewrite MIN_min; unfold m; lia).
  pose proof Hcont as (b & Hb & _ & _ & _ & Hlen & _).
  destruct (setValue_extend_loop C a (Z.of_nat K) (K - length l) h l fuel)
    as (h1 & l' & Hres & Hcont1 & Hl' & Hnew & Hlen1 & Hbi1 & Hch1);
    [lia | exact Hcont | lia | lia |].
  assert (setValue_resize C fuel (Some a) (Z.of_nat K) h = Ok (tt, h1))
    as Hresize.
  { unfold setValue_resize.
    eapply bind_ok; [apply load_bi_ok; exact Hb|].
    destruct (Z.ltb_spec (Z.of_nat K) (bi_length b)) as [?|_]; [lia|].
    exact Hres. }
  pose proof Hcont1 as (b1 & Hb1 & Hl1 & Hne1 & Hlast1 & Hblen1 & Hok1).
  assert (length (l ++ l') = K) as HK' by (rewrite length_app; lia).
  destruct (setValue_copy_loop C ws m fuel (l ++ l') (bi_first b1) 0 fuel h1
              Hl1 Hok1 Hm HmC) as [Hcopy Hoob]; [lia | lia | lia |].
  cbv zeta in Hcopy, Hoob. rewrite HK' in Hcopy, Hoob.
  cbn [Nat.add] in Hcopy, Hoob. change (Z.of_nat 0) with 0 in Hcopy, Hoob.
  unfold setValue. rewrite (numChunks_ceil C n (Z.of_nat K)) by lia.
  split.
  - intros Hfit.
    destruct (Hcopy Hfit) as (h' & Hrun & Hbi & Hlen' & Hfr & Hl2 & Hok2 & Hw).
    exists h', l'. split.
    { eapply bind_ok; [exact Hresize|].
      eapply bind_ok; [|reflexivity].
      unfold setValue_copy.
      eapply bind_ok; [apply load_bi_ok; exact Hb1|].
      rewrite HMIN. eapply bind_ok; [exact Hrun | reflexivity]. }
    split.
    { exists b1. rewrite Hbi. split; [exact Hb1|]. split; [exact Hl2|].
      split; [exact Hne1|]. split; [exact Hlast1|]. split; [exact Hblen1|].
      exact Hok2. }
    split; [exact HK'|]. split; [now rewrite Hw, drop_0|].
    split; [intros a' Ha'; rewrite Hbi; now apply Hbi1|].
    intros y Hy Hyn.
    rewrite Hfr; [now apply Hch1|].
    intros Hin. apply elem_of_app in Hin as [Hin|Hin]; [now apply Hy|].
    apply Hnew in Hin. lia.
  - intros Hover.
    eapply bind_ok; [exact Hresize|]. apply bind_fault.
    unfold setValue_copy.
    eapply bind_ok; [apply load_bi_ok; exact Hb1|].
    rewrite HMIN. apply bind_fault. now apply Hoob.
Qed.

(** [setValue] with an array of exactly [n >= 1] words, on a container
    that has no more chunks than the [K] the count needs.  When the count
    fits one chunk or is a multiple of C, the call succeeds: the container
    is valid, has [K] chunks and holds exactly the words of the array, in
    order, and nothing outside the container is changed.  For every other
    count the copy reads the array past its end. *)
Theorem setValue_exact_array C h a l (ws : list Z) K fuel :
  0 < C -> container C h a l -> ws <> [] ->
  (Z.of_nat K - 1) * C < Z.of_nat (length ws) <= Z.of_nat K * C ->
  (length l <= K)%nat -> (K < fuel)%nat -> (Z.to_nat C < fuel)%nat ->
  let n := Z.of_nat (length ws) in
  (n <= C \/ n = Z.of_nat K * C ->
   exists h' l',
     setValue C fuel (Some a) n (Some ws) h = Ok (0, h') /\
     container C h' a (l ++ l') /\
     words (chunks h') (l ++ l') = ws /\
     lengthBigInt (Some a) h' = Ok (Z.of_nat K, h') /\
     (forall a', a' <> a -> bigints h' !! a' = bigints h !! a') /\
     (forall y, y ∉ l -> (y < length (chunks h))%nat ->
        chunks h' !! y = chunks h !! y)) /\
  (C < n < Z.of_nat K * C ->
   setValue C fuel (Some a) n (Some ws) h = Fault OutOfBounds).
Proof.
  intros HC Hcont Hne HK HlK Hfuel Hf0 n.
  assert (0 < n) as Hn by (unfold n; destruct ws; [contradiction | simpl; lia]).
  destruct (setValue_extend_spec C h a l ws n K fuel HC Hcont Hn HK HlK
              Hfuel Hf0) as [Hok Hoob]. cbv zeta in Hok, Hoob.
  split.
  - intros Hcase.
    assert (K * Z.to_nat (Z.min C n) = length ws)%nat as Hexact.
    { unfold n in *.
      assert (1 <= Z.of_nat K) as HK1 by nia.
      destruct Hcase as [Hle | Heq].
      - assert (K = 1)%nat as -> by nia. lia.
      - assert (C <= Z.of_nat (length ws)) as HCn by nia.
        rewrite Z.min_l by exact HCn. nia. }
    destruct Hok as (h' & l' & Hrun & Hcont' & HKl & Hw & Hbi & Hch); [lia|].
    exists h', l'. split; [exact Hrun|]. split; [exact Hcont'|].
    split; [rewrite Hw, Hexact; apply firstn_all|].
    split; [|split; [exact Hbi | exact Hch]].
    destruct Hcont' as (b' & Hb' & _ & _ & _ & Hlen' & _).
    unfold lengthBigInt. cbn [is_null].
    eapply bind_ok; [apply load_bi_ok; exact Hb'|].
    unfold ret. now rewrite Hlen', HKl.
  - intros Hcase. apply Hoob. unfold n in *. nia.
Qed.

Lemma setValue_exact_array_witness :
  let n := Z.of_nat (length [1; 2; 3; 4; 5; 6; 7; 8]) in
  (n <= 4 \/ n = Z.of_nat 2 * 4 ->
   exists h' l',
     setValue 4 5 (Some 0%nat) n (Some [1; 2; 3; 4; 5; 6; 7; 8]) (fresh_one 4)
     = Ok (0, h') /\
     container 4 h' 0 ([0%nat] ++ l') /\
     words (chunks h') ([0%nat] ++ l') = [1; 2; 3; 4; 5; 6; 7; 8] /\
     lengthBigInt (Some 0%nat) h' = Ok (Z.of_nat 2, h') /\
     (forall a', a' <> 0%nat ->
        bigints h' !! a' = bigints (fresh_one 4) !! a') /\
     (forall y, y ∉ [0%nat] -> (y < length (chunks (fresh_one 4)))%nat ->
        chunks h' !! y = chunks (fresh_one 4) !! y)) /\
  (4 < n < Z.of_nat 2 * 4 ->
   setValue 4 5 (Some 0%nat) n (Some [1; 2; 3; 4; 5; 6; 7; 8]) (fresh_one 4)
   = Fault OutOfBounds).
Proof.
  apply (setValue_exact_array 4 (fresh_one 4) 0 [0%nat]
           [1; 2; 3; 4; 5; 6; 7; 8] 2 5).
  - lia.
  - apply containerb_sound. vm_compute. reflexivity.
  - discriminate.
  - simpl. lia.
  - simpl. lia.
  - lia.
  - simpl. lia.
Defined.

(** [setValue] with a count [n] above C that is no multiple of C, on a
    valid container of at most the [K] chunks the count needs, and an
    array of at least K * C words: the call succeeds, the container is
    valid and holds the first K * C words of the array, more than the [n]
    asked for, since every chunk is filled. *)
Theorem setValue_loads_past_count C h a l (ws : list Z) n K fuel :
  0 < C -> container C h a l ->
  C < n < Z.of_nat K * C -> (Z.of_nat K - 1) * C < n ->
  (length l <= K)%nat -> (K * Z.to_nat C <= length ws)%nat ->
  (K < fuel)%nat -> (Z.to_nat C < fuel)%nat ->
  exists h' l',
    setValue C fuel (Some a) n (Some ws) h = Ok (0, h') /\
    container C h' a (l ++ l') /\
    words (chunks h') (l ++ l') = take (K * Z.to_nat C) ws /\
    n < Z.of_nat (length (words (chunks h') (l ++ l'))).
Proof.
  intros HC Hcont Hn HK HlK Hws Hfuel Hf0.
  destruct (setValue_extend_spec C h a l ws n K fuel HC Hcont) as [Hok _];
    [lia | lia | exact HlK | exact Hfuel | exact Hf0 |].
  cbv zeta in Hok. replace (Z.min C n) with C in Hok by lia.
  destruct (Hok Hws) as (h' & l' & Hrun & Hcont' & _ & Hw & _).
  exists h', l'. split; [exact Hrun|]. split; [exact Hcont'|].
  split; [exact Hw|]. rewrite Hw, length_take_le by exact Hws. nia.
Qed.

Lemma setValue_loads_past_count_witness :
  exists h' l',
    setValue 4 5 (Some 0%nat) 5 (Some [1; 2; 3; 4; 5; 6; 7; 8]) (fresh_one 4)
    = Ok (0, h') /\
    container 4 h' 0 ([0%nat] ++ l') /\
    words (chunks h') ([0%nat] ++ l')
    = take (2 * Z.to_nat 4) [1; 2; 3; 4; 5; 6; 7; 8] /\
    5 < Z.of_nat (length (words (chunks h') ([0%nat] ++ l'))).
Proof.
  apply (setValue_loads_past_count 4 (fresh_one 4) 0 [0%nat]
           [1; 2; 3; 4; 5; 6; 7; 8] 5 2 5).
  - lia.
  - apply containerb_sound. vm_compute. reflexivity.
  - lia.
  - lia.
  - simpl. lia.
  - simpl. lia.
  - lia.
  - simpl. lia.
Defined.

(** *** [reset] *)

(** [reset] on a valid container returns 0 and stores the count 0, but
    keeps the first chunk, with its words, as a chain of its own; of the
    chunks cut off it frees the first one only, and it leaves [last] as it
    was.  On NULL it returns 1 and does nothing. *)
Theorem reset_keeps_first_chunk C h a x r :
  container C h a (x :: r) ->
  exists h' b',
    reset (Some a) h = Ok ((0, map FreedChunk (take 1 r)), h') /\
    bigints h' !! a = Some b' /\
    bi_length b' = 0 /\ bi_first b' = Some x /\
    bi_last b' = last (x :: r) /\
    lseg (chunks h') (Some x) [x] NULL /\
    words (chunks h') [x] = words (chunks h) [x] /\
    reset NULL h = Ok ((1, []), h).
Proof.
  intros (b & Hb & Hl & _ & Hlast & Hlen & _).
  destruct Hl as (Hfirst & c & Hc & Hl).
  pose proof (lookup_lt_Some _ _ _ Hb) as Ha.
  pose proof (lookup_lt_Some _ _ _ Hc) as Hx.
  set (c1 := mkChunk (ch_prev c) NULL (ch_length c) (ch_value c)).
  set (b1 := mkBigInt (bi_first b) (bi_last b) (bi_parity b) 0).
  assert (words_at (<[x := c1]> (chunks h)) x = words_at (chunks h) x) as Hwx.
  { unfold words_at. rewrite list_lookup_insert_eq by exact Hx. now rewrite Hc. }
  destruct r as [|y r].
  - simpl in Hl.
    exists (mkHeap (<[x := c1]> (chunks h)) (<[a := b1]> (bigints h))), b1.
    split.
    { unfold reset. cbn [is_null].
      eapply bind_ok; [apply load_bi_ok; exact Hb|]. rewrite Hfirst.
      eapply bind_ok.
      { unfold trimChunk. eapply bind_ok; [apply load_ok; exact Hc|].
        eapply bind_ok; [eapply set_next_ok; exact Hc|].
        rewrite Hl. reflexivity. }
      cbn [is_null]. eapply bind_ok; [reflexivity|].
      eapply bind_ok; [eapply set_bi_length_ok; exact Hb|]. reflexivity. }
    cbn [bigints chunks].
    split; [apply list_lookup_insert_eq; exact Ha|].
    split; [reflexivity|]. split; [exact Hfirst|]. split; [exact Hlast|].
    split.
    { simpl. split; [reflexivity|]. exists c1.
      split; [apply list_lookup_insert_eq; exact Hx | reflexivity]. }
    split; [|reflexivity].
    now rewrite !words_singleton.
  - destruct Hl as (Hnext & cy & Hcy & Hrest).
    assert (y <> x) as Hyx.
    { intros ->.
      assert (lseg (chunks h) (Some x) (x :: x :: r) NULL) as Hch.
      { simpl. split; [reflexivity|]. exists c. split; [exact Hc|].
        split; [exact Hnext|]. exists cy. split; [exact Hcy | exact Hrest]. }
      apply lseg_NoDup, NoDup_cons in Hch as [Hn _]. apply Hn. left. }
    set (cy1 := mkChunk NULL (ch_next cy) (ch_length cy) (ch_value cy)).
    exists (mkHeap (<[y := cy1]> (<[x := c1]> (chunks h)))
                   (<[a := b1]> (bigints h))), b1.
    assert ((<[x := c1]> (chunks h)) !! y = Some cy) as Hcy1
      by (rewrite list_lookup_insert_ne by congruence; exact Hcy).
    split.
    { unfold reset. cbn [is_null].
      eapply bind_ok; [apply load_bi_ok; exact Hb|]. rewrite Hfirst.
      eapply bind_ok.
      { unfold trimChunk. eapply bind_ok; [apply load_ok; exact Hc|].
        eapply bind_ok; [eapply set_next_ok; exact Hc|].
        rewrite Hnext.
        eapply bind_ok; [eapply set_prev_ok; exact Hcy1 | reflexivity]. }
      cbn [is_null]. eapply bind_ok.
      { unfold free_chunk. cbn [is_freed existsb].
        eapply bind_ok; [|reflexivity].
        apply load_ok. cbn [chunks]. apply list_lookup_insert_eq.
        rewrite length_insert. eapply lookup_lt_Some; exact Hcy. }
      eapply bind_ok; [eapply set_bi_length_ok; exact Hb|]. reflexivity. }
    cbn [bigints chunks].
    split; [apply list_lookup_insert_eq; exact Ha|].
    split; [reflexivity|]. split; [exact Hfirst|]. split; [exact Hlast|].
    assert ((<[y := cy1]> (<[x := c1]> (chunks h))) !! x = Some c1) as Hx1.
    { rewrite list_lookup_insert_ne by exact Hyx.
      apply list_lookup_insert_eq. exact Hx. }
    split.
    { simpl. split; [reflexivity|]. exists c1. split; [exact Hx1 | reflexivity]. }
    split; [|reflexivity].
    rewrite !words_singleton.
    rewrite (words_at_lookup _ _ _ Hx1), (words_at_lookup _ _ _ Hc).
    reflexivity.
Qed.

Lemma reset_keeps_first_chunk_witness :
  exists h' b',
    reset (Some 0%nat) (grown_one 4)
    = Ok ((0, map FreedChunk (take 1 [2%nat])), h') /\
    bigints h' !! 0%nat = Some b' /\
    bi_length b' = 0 /\ bi_first b' = Some 0%nat /\
    bi_last b' = last (0%nat :: [2%nat]) /\
    lseg (chunks h') (Some 0%nat) [0%nat] NULL /\
    words (chunks h') [0%nat] = words (chunks (grown_one 4)) [0%nat] /\
    reset NULL (grown_one 4) = Ok ((1, []), grown_one 4).
Proof.
  apply (reset_keeps_first_chunk 4 (grown_one 4) 0 0%nat [2%nat]).
  apply containerb_sound. vm_compute. reflexivity.
Defined.

(** *** [setValue] on a container that is too long *)

(** [setValue] with an array of exactly [n >= 1] words, on a container
    with more chunks than the count needs: the chain is not cut, the copy
    fills every chunk of it and reads the array past its end. *)
Theorem setValue_shrink_reads_past C h a l (ws : list Z) K fuel :
  0 < C -> container C h a l -> ws <> [] ->
  (Z.of_nat K - 1) * C < Z.of_nat (length ws) <= Z.of_nat K * C ->
  (K < length l)%nat -> (length l < fuel)%nat -> (Z.to_nat C < fuel)%nat ->
  setValue C fuel (Some a) (Z.of_nat (length ws)) (Some ws) h
  = Fault OutOfBounds.
Proof.
  intros HC Hcont Hne HK HKl Hfuel Hf0.
  set (n := Z.of_nat (length ws)) in *.
  assert (0 < n) as Hn by (unfold n; destruct ws; [contradiction | simpl; lia]).
  assert (1 <= Z.of_nat K) as HK1 by nia.
  set (m := Z.to_nat (Z.min C n)).
  assert (0 < m)%nat as Hm by (unfold m; lia).
  assert (Z.of_nat m <= C) as HmC by (unfold m; lia).
  assert (MIN C n = Z.of_nat m) as HMIN by (rewrite MIN_min; unfold m; lia).
  pose proof Hcont as (b & Hb & Hl & _ & _ & Hlen & Hok).
  pose proof (lookup_lt_Some _ _ _ Hb) as Ha.
  unfold setValue. rewrite (numChunks_ceil C n (Z.of_nat K)) by lia.
  eapply bind_ok.
  { apply (setValue_resize_long C h a l b (Z.of_nat K) fuel Hcont Hb);
      [lia | exact Hfuel]. }
  apply bind_fault. unfold setValue_copy.
  eapply bind_ok;
    [apply load_bi_ok; cbn [bigints]; apply list_lookup_insert_eq; exact Ha|].
  cbn [bi_first]. rewrite HMIN. apply bind_fault.
  set (h1 := mkHeap (chunks h) _).
  destruct (setValue_copy_loop C ws m fuel l (bi_first b) 0 fuel h1
              Hl Hok Hm HmC) as [_ Hoob]; [lia | lia | exact Hfuel |].
  apply Hoob. cbn [Nat.add].
  assert (Z.of_nat (length ws) < Z.of_nat (length l) * Z.of_nat m); [|nia].
  fold n. destruct (Z_le_gt_dec n C) as [Hle|Hgt].
  - assert (K = 1)%nat by nia. unfold m. rewrite Z.min_r by lia. nia.
  - unfold m. rewrite Z.min_l by lia. nia.
Qed.

Lemma setValue_shrink_reads_past_witness :
  setValue 4 5 (Some 0%nat) (Z.of_nat (length [7])) (Some [7]) (grown_one 4)
  = Fault OutOfBounds.
Proof.
  apply (setValue_shrink_reads_past 4 (grown_one 4) 0 [0%nat; 2%nat] [7] 1 5).
  - lia.
  - apply containerb_sound. vm_compute. reflexivity.
  - discriminate.
  - simpl. lia.
  - simpl. lia.
  - simpl. lia.
  - simpl. lia.
Defined.

(** *** Load, then render *)

(** [setValue] with an array of exactly [n >= 1] words and then
    [toString], on a container that has no more chunks than the count
    needs: the two calls give the digits of the words exactly when
    8 * n <= C.  For every larger count one of the two goes outside an
    array: [setValue] outside the caller's when the count is above C and
    no multiple of it, [toString] outside its buffer otherwise. *)
Theorem load_render_iff C h a l (ws : list Z) K fuel :
  0 < C -> container C h a l -> ws <> [] ->
  (Z.of_nat K - 1) * C < Z.of_nat (length ws) <= Z.of_nat K * C ->
  (length l <= K)%nat -> (K < fuel)%nat -> (Z.to_nat C < fuel)%nat ->
  let n := Z.of_nat (length ws) in
  (8 * n <= C ->
   exists h' buf,
     setValue C fuel (Some a) n (Some ws) h = Ok (0, h') /\
     toString C fuel (Some a) h' = Ok (Some buf, h') /\
     c_string buf = Some (hex_words_le ws)) /\
  (C < 8 * n ->
   setValue C fuel (Some a) n (Some ws) h = Fault OutOfBounds \/
   exists h',
     setValue C fuel (Some a) n (Some ws) h = Ok (0, h') /\
     toString C fuel (Some a) h' = Fault OutOfBounds).
Proof.
  intros HC Hcont Hne HK HlK Hfuel Hf0 n.
  assert (0 < n) as Hn by (unfold n; destruct ws; [contradiction | simpl; lia]).
  assert (1 <= Z.of_nat K) as HK1 by (unfold n in *; nia).
  destruct (setValue_extend_spec C h a l ws n K fuel HC Hcont Hn HK HlK
              Hfuel Hf0) as [Hok Hoob]. cbv zeta in Hok, Hoob.
  assert (n <= C \/ n = Z.of_nat K * C ->
          exists h' l' b',
            setValue C fuel (Some a) n (Some ws) h = Ok (0, h') /\
            bigints h' !! a = Some b' /\ bi_length b' = Z.of_nat K /\
            lseg (chunks h') (bi_first b') (l ++ l') NULL /\
            chunks_ok C (chunks h') (l ++ l') /\ length (l ++ l') = K /\
            words (chunks h') (l ++ l') = ws) as Hload.
  { intros Hcase.
    assert (K * Z.to_nat (Z.min C n) = length ws)%nat as Hexact.
    { unfold n in *. destruct Hcase as [Hle | Heq].
      - assert (K = 1)%nat as -> by nia. lia.
      - assert (C <= Z.of_nat (length ws)) as HCn by nia.
        rewrite Z.min_l by exact HCn. nia. }
    destruct Hok as (h' & l' & Hrun & Hcont' & HKl & Hw & _); [lia|].
    destruct Hcont' as (b' & Hb' & Hl' & _ & _ & Hlen' & Hok').
    exists h', l', b'. split; [exact Hrun|]. split; [exact Hb'|].
    split; [now rewrite Hlen', HKl|]. split; [exact Hl'|].
    split; [exact Hok'|]. split; [exact HKl|].
    rewrite Hw, Hexact. apply firstn_all. }
  split.
  - intros Hfit.
    destruct Hload as (h' & l' & b' & Hrun & Hb' & Hlen' & Hl' & Hok' & HKl & Hw);
      [left; lia|].
    assert (K = 1)%nat as -> by (unfold n in *; nia).
    exists h', (render_into (replicate (Z.to_nat (1 + 1 * C)) None) 0 ws).
    split; [exact Hrun|]. split.
    + rewrite (toString_chain C h' a b' (l ++ l') fuel Hb' Hl' Hok')
        by (rewrite ?HKl; lia).
      rewrite Hw, Hlen'. change (Z.of_nat 1) with 1.
      rewrite decide_True; [reflexivity|]. right. unfold n in *. lia.
    + apply c_string_render; [exact Hne|]. unfold n in *. lia.
  - intros Hbig.
    destruct (Z_le_gt_dec n C) as [Hle|Hgt];
      [|destruct (Z.eq_dec n (Z.of_nat K * C)) as [Heq|Hneq]].
    + right.
      destruct Hload as (h' & l' & b' & Hrun & Hb' & Hlen' & Hl' & Hok' & HKl & Hw);
        [left; lia|].
      assert (K = 1)%nat as HK' by (unfold n in *; nia).
      exists h'. split; [exact Hrun|].
      rewrite (toString_chain C h' a b' (l ++ l') fuel Hb' Hl' Hok')
        by (rewrite ?HKl; lia).
      rewrite Hw, Hlen', HK'. change (Z.of_nat 1) with 1.
      rewrite decide_False; [reflexivity|].
      intros [Hnil | Hlt]; [contradiction|]. unfold n in *. lia.
    + right.
      destruct Hload as (h' & l' & b' & Hrun & Hb' & Hlen' & Hl' & Hok' & HKl & Hw);
        [right; exact Heq|].
      exists h'. split; [exact Hrun|].
      rewrite (toString_chain C h' a b' (l ++ l') fuel Hb' Hl' Hok')
        by (rewrite ?HKl; lia).
      rewrite Hw, Hlen'.
      rewrite decide_False; [reflexivity|].
      intros [Hnil | Hlt]; [contradiction|]. unfold n in *. nia.
    + left. apply Hoob. unfold n in *.
      rewrite Z.min_l by lia. nia.
Qed.

Lemma load_render_iff_witness :
  let n := Z.of_nat (length [1; 2882400018]) in
  (8 * n <= 16 ->
   exists h' buf,
     setValue 16 17 (Some 0%nat) n (Some [1; 2882400018]) (fresh_one 16)
     = Ok (0, h') /\
     toString 16 17 (Some 0%nat) h' = Ok (Some buf, h') /\
     c_string buf = Some (hex_words_le [1; 2882400018])) /\
  (16 < 8 * n ->
   setValue 16 17 (Some 0%nat) n (Some [1; 2882400018]) (fresh_one 16)
   = Fault OutOfBounds \/
   exists h',
     setValue 16 17 (Some 0%nat) n (Some [1; 2882400018]) (fresh_one 16)
     = Ok (0, h') /\
     toString 16 17 (Some 0%nat) h' = Fault OutOfBounds).
Proof.
  apply (load_render_iff 16 (fresh_one 16) 0 [0%nat] [1; 2882400018] 1 17).
  - lia.
  - apply containerb_sound. vm_compute. reflexivity.
  - discriminate.
  - simpl. lia.
  - simpl. lia.
  - lia.
  - simpl. lia.
Defined.

(** *** [append] *)

(** [append] of an allocated chunk that is not in the chain and has no
    successor: the chunk becomes the last of the chain, the container
    stays valid, its words are followed by the chunk's, and the count is
    one more.  With an absent container or chunk [append] returns 1 and
    does nothing. *)
Theorem append_links C h a l x cx :
  container C h a l -> x ∉ l ->
  chunks h !! x = Some cx -> chunk_ok C cx -> ch_next cx = NULL ->
  exists h',
    append (Some a) (Some x) h = Ok (0, h') /\
    container C h' a (l ++ [x]) /\
    words (chunks h') (l ++ [x]) = words (chunks h) l ++ chunk_words cx /\
    lengthBigInt (Some a) h' = Ok (Z.of_nat (length l) + 1, h') /\
    append NULL (Some x) h = Ok (1, h) /\
    append (Some a) NULL h = Ok (1, h).
Proof.
  intros (b & Hb & Hl & Hne & Hlast & Hlen & Hok) Hx Hcx Hcxok Hnextx.
  destruct l as [|t l0 _] using rev_ind; [contradiction|]. clear Hne.
  rewrite last_snoc in Hlast.
  pose proof (lseg_NoDup _ _ _ Hl) as Hnd.
  apply NoDup_app in Hnd as (_ & Hd & _).
  assert (forall y, y ∈ l0 -> y <> t) as Hd'.
  { intros y Hy ->. apply (Hd t Hy). left. }
  assert (x <> t) as Hxt.
  { intros ->. apply Hx. apply elem_of_app. right.
    now apply list_elem_of_singleton. }
  assert (forall y, y ∈ l0 -> y <> x) as Hxl0.
  { intros y Hy ->. apply Hx. apply elem_of_app. now left. }
  pose proof Hl as Hl'. apply lseg_app in Hl' as (q & Hl0 & Hlt).
  simpl in Hlt. destruct Hlt as (-> & ct & Ht & Hnext).
  pose proof (lookup_lt_Some _ _ _ Ht) as Htlt.
  pose proof (lookup_lt_Some _ _ _ Hcx) as Hxlt.
  pose proof (lookup_lt_Some _ _ _ Hb) as Ha.
  set (ct' := mkChunk (ch_prev ct) (Some x) (ch_length ct) (ch_value ct)).
  set (cx' := mkChunk (Some t) (ch_next cx) (ch_length cx) (ch_value cx)).
  set (b1 := mkBigInt (bi_first b) (Some x) (bi_parity b) (bi_length b + 1)).
  set (h1 := mkHeap (<[t := ct']> (<[x := cx']> (chunks h)))
                    (<[a := b1]> (bigints h))).
  assert (chunks h1 !! t = Some ct') as Ht1.
  { apply list_lookup_insert_eq. now rewrite length_insert. }
  assert (chunks h1 !! x = Some cx') as Hx1.
  { unfold h1. cbn [chunks]. rewrite list_lookup_insert_ne by congruence.
    now apply list_lookup_insert_eq. }
  assert (forall y, y ∈ l0 -> chunks h1 !! y = chunks h !! y) as Hsame.
  { intros y Hy. unfold h1. cbn [chunks].
    rewrite list_lookup_insert_ne by (intros ->; now apply (Hd' y)).
    apply list_lookup_insert_ne. intros ->. now apply (Hxl0 y). }
  apply chunks_ok_app in Hok as [Hok0 Hokt].
  apply chunks_ok_cons in Hokt as [(ct0 & Hct0 & Hctok) _].
  assert (ct0 = ct) as -> by congruence.
  assert (container C h1 a ((l0 ++ [t]) ++ [x])) as Hcont1.
  { exists b1. split; [apply list_lookup_insert_eq; exact Ha|].
    cbn [bi_first bi_last bi_length b1]. split.
    { rewrite <- app_assoc. apply lseg_app. exists (Some t). split.
      - eapply lseg_ext; [|exact Hl0]. intros y Hy. now rewrite Hsame.
      - simpl. split; [reflexivity|]. eexists. split; [exact Ht1|]. simpl.
        split; [reflexivity|]. eexists. split; [exact Hx1|]. exact Hnextx. }
    split; [intros Heq; apply app_eq_nil in Heq as [_ ?]; discriminate|].
    split; [now rewrite last_snoc|]. split.
    { rewrite Hlen, !length_app. simpl. lia. }
    apply chunks_ok_app. split; [apply chunks_ok_app; split|].
    + eapply chunks_ok_ext; [|exact Hok0]. exact Hsame.
    + apply chunks_ok_cons. split; [|intros y Hy; inversion Hy].
      eexists. split; [exact Ht1|]. exact Hctok.
    + apply chunks_ok_cons. split; [|intros y Hy; inversion Hy].
      eexists. split; [exact Hx1|]. exact Hcxok. }
  exists h1. split.
  { now rewrite (append_ok h a b t ct x cx Hb Hlast Ht Hcx Hxt). }
  split; [exact Hcont1|]. split; [|split; [|split; reflexivity]].
  - rewrite !words_app, !words_singleton.
    rewrite (words_ext (chunks h) _ l0) by exact Hsame.
    now rewrite (words_at_lookup _ _ _ Ht1), (words_at_lookup _ _ _ Hx1),
      (words_at_lookup _ _ _ Ht).
  - unfold lengthBigInt. cbn [is_null].
    eapply bind_ok; [apply load_bi_ok; apply list_lookup_insert_eq; exact Ha|].
    cbn [bi_length b1]. unfold ret. now rewrite Hlen.
Qed.

Lemma append_links_witness :
  exists h',
    append (Some 0%nat) (Some 1%nat)
           (heap_of ((newBigInt 4 ;;; newChunk 4) empty_heap)) = Ok (0, h') /\
    container 4 h' 0 ([0%nat] ++ [1%nat]) /\
    words (chunks h') ([0%nat] ++ [1%nat])
    = words (chunks (heap_of ((newBigInt 4 ;;; newChunk 4) empty_heap)))
            [0%nat]
      ++ chunk_words (mkChunk NULL NULL 0 [0; 0; 0; 0]) /\
    lengthBigInt (Some 0%nat) h'
    = Ok (Z.of_nat (length [0%nat]) + 1, h') /\
    append NULL (Some 1%nat)
           (heap_of ((newBigInt 4 ;;; newChunk 4) empty_heap))
    = Ok (1, heap_of ((newBigInt 4 ;;; newChunk 4) empty_heap)) /\
    append (Some 0%nat) NULL
           (heap_of ((newBigInt 4 ;;; newChunk 4) empty_heap))
    = Ok (1, heap_of ((newBigInt 4 ;;; newChunk 4) empty_heap)).
Proof.
  apply (append_links 4 (heap_of ((newBigInt 4 ;;; newChunk 4) empty_heap))
           0 [0%nat] 1 (mkChunk NULL NULL 0 [0; 0; 0; 0])).
  - apply containerb_sound. vm_compute. reflexivity.
  - intros Hin. apply list_elem_of_singleton in Hin. discriminate.
  - vm_compute. reflexivity.
  - split; simpl; lia.
  - reflexivity.
Defined.

(** *** The length [add] leaves *)

Lemma add_main_words_short carry wa wb :
  wa <> [] -> (length wa <= length wb)%nat ->
  length (add_main_words carry wa wb).1 = S (length wb) /\
  drop (length wb) (add_main_words carry wa wb).1 = [0].
Proof.
  revert carry wa. induction wb as [|rv wb IH]; intros carry wa Hne Hlen.
  - destruct wa; [contradiction | simpl in Hlen; lia].
  - cbn [add_main_words].
    destruct (add_word carry (hd 0 wa) rv) as [sum carry'].
    destruct wb as [|rv' wb].
    + destruct wa as [|w [|w' wa]]; [contradiction | | simpl in Hlen; lia].
      cbn. auto.
    + assert (extend (tl wa) <> []) as Hne' by (destruct (tl wa); discriminate).
      assert (length (extend (tl wa)) <= length (rv' :: wb))%nat as Hlen'.
      { destruct wa as [|w [|w' wa]]; simpl in *; lia. }
      specialize (IH carry' (extend (tl wa)) Hne' Hlen').
      destruct (add_main_words carry' (extend (tl wa)) (rv' :: wb)) as [ws c].
      cbn [fst] in *. destruct IH as [IH1 IH2].
      split; [cbn [length]; now rewrite IH1 | exact IH2].
Qed.

Lemma add_words_short wa wb :
  (length wa <= length wb)%nat ->
  exists top,
    length (add_words wa wb) = S (length wb) /\
    last (add_words wa wb) = Some top /\ (top = 0 \/ top = 1).
Proof.
  intros Hlen. unfold add_words.
  destruct wb as [|rv wb].
  { destruct wa; [|simpl in Hlen; lia]. exists 0. cbn. auto. }
  assert (extend wa <> []) as Hne by (destruct wa; discriminate).
  assert (length (extend wa) <= length (rv :: wb))%nat as Hlen'
    by (destruct wa; simpl in *; lia).
  destruct (add_main_words_short 0 (extend wa) (rv :: wb) Hne Hlen')
    as [H1 H2].
  destruct (add_main_words 0 (extend wa) (rv :: wb)) as [ws carry].
  cbn [fst] in H1, H2.
  destruct (carry =? 0).
  - exists 0. split; [exact H1|]. split; [|now left].
    rewrite <- (take_drop (length (rv :: wb)) ws), H2. apply last_snoc.
  - exists 1. rewrite H2. split.
    + rewrite length_app, length_take, H1. simpl. lia.
    + split; [|now right]. cbn. apply last_snoc.
Qed.

(** Where the accumulator has no more words than the addend, [add] leaves
    it with exactly one word more than the addend has: a top word that is
    the last carry, 0 or 1.  The accumulator grows by that word even when
    nothing is carried. *)
Theorem add_leaves_top_word C h a b la lb fuel :
  0 < C -> a <> b ->
  container C h a la -> container C h b lb ->
  (forall x, x ∈ la -> x ∉ lb) ->
  (length (words (chunks h) la) <= length (words (chunks h) lb))%nat ->
  (length la + length lb + 2 * length (words (chunks h) la)
   + 5 * length (words (chunks h) lb) + 5 <= fuel)%nat ->
  exists h' la' top,
    add C fuel (Some a) (Some b) h = Ok (Some a, h') /\
    container C h' a la' /\
    length (words (chunks h') la') = S (length (words (chunks h) lb)) /\
    last (words (chunks h') la') = Some top /\ (top = 0 \/ top = 1).
Proof.
  intros HC Hab Hca Hcb Hdisj Hshort Hfuel.
  destruct (add_spec C h a b la lb HC Hab Hca Hcb Hdisj fuel Hfuel)
    as (h' & extra & Hadd & Hca' & _ & _ & _ & Hw).
  destruct (add_words_short _ _ Hshort) as (top & Hlen & Hlast & Htop).
  exists h', (la ++ extra), top. rewrite Hw. auto.
Qed.

Lemma add_leaves_top_word_witness :
  exists h' la' top,
    add 4 30 (Some 0%nat) (Some 1%nat) (loaded_two 4 [1] [2])
    = Ok (Some 0%nat, h') /\
    container 4 h' 0 la' /\
    length (words (chunks h') la')
    = S (length (words (chunks (loaded_two 4 [1] [2])) [1%nat])) /\
    last (words (chunks h') la') = Some top /\ (top = 0 \/ top = 1).
Proof.
  apply (add_leaves_top_word 4 (loaded_two 4 [1] [2]) 0 1 [0%nat] [1%nat] 30).
  - lia.
  - discriminate.
  - apply containerb_sound. vm_compute. reflexivity.
  - apply containerb_sound. vm_compute. reflexivity.
  - apply disjointb_sound. vm_compute. reflexivity.
  - vm_compute. lia.
  - vm_compute. lia.
Defined.

(** *** What [add] writes *)

(** For distinct valid containers that share no chunk, [add] returns the
    accumulator; the words it leaves there are those of [add_words], the
    main pass with the carry test of the code followed by the carry pass;
    the chunks the accumulator had keep their valid lengths, new chunks
    come behind them, and the addend is left as it was. *)
Theorem add_refines_add_words C h a b la lb fuel :
  0 < C -> a <> b ->
  container C h a la -> container C h b lb ->
  (forall x, x ∈ la -> x ∉ lb) ->
  (length la + length lb + 2 * length (words (chunks h) la)
   + 5 * length (words (chunks h) lb) + 5 <= fuel)%nat ->
  exists h' extra,
    add C fuel (Some a) (Some b) h = Ok (Some a, h') /\
    container C h' a (la ++ extra) /\ container C h' b lb /\
    words (chunks h') lb = words (chunks h) lb /\
    lengths_kept la (chunks h) (chunks h') /\
    words (chunks h') (la ++ extra)
    = add_words (words (chunks h) la) (words (chunks h) lb).
Proof.
  intros HC Hab Hca Hcb Hdisj Hfuel.
  exact (add_spec C h a b la lb HC Hab Hca Hcb Hdisj fuel Hfuel).
Qed.

Lemma add_refines_add_words_witness :
  exists h' extra,
    add 4 30 (Some 0%nat) (Some 1%nat) (loaded_two 4 [UINT_MAX; 5] [1; 7])
    = Ok (Some 0%nat, h') /\
    container 4 h' 0 ([0%nat] ++ extra) /\ container 4 h' 1 [1%nat] /\
    words (chunks h') [1%nat]
    = words (chunks (loaded_two 4 [UINT_MAX; 5] [1; 7])) [1%nat] /\
    lengths_kept [0%nat] (chunks (loaded_two 4 [UINT_MAX; 5] [1; 7]))
                 (chunks h') /\
    words (chunks h') ([0%nat] ++ extra)
    = add_words (words (chunks (loaded_two 4 [UINT_MAX; 5] [1; 7])) [0%nat])
                (words (chunks (loaded_two 4 [UINT_MAX; 5] [1; 7])) [1%nat]).
Proof.
  apply (add_refines_add_words 4 (loaded_two 4 [UINT_MAX; 5] [1; 7])
           0 1 [0%nat] [1%nat] 30).
  - lia.
  - discriminate.
  - apply containerb_sound. vm_compute. reflexivity.
  - apply containerb_sound. vm_compute. reflexivity.
  - apply disjointb_sound. vm_compute. reflexivity.
  - vm_compute. lia.
Defined.
